(** * Verification of the core utilities of the learning bot

    Shallow embedding of [split_message], [sanitize_markdown] and
    [safe_send_message] (utils.py) and of [UserService.check_rate_limit]
    (user_service.py), with the properties stated about them.

    Conventions.  A Python [str] is a [list ascii]; a Python [int] is a [Z];
    [len] is [py_len]; an exception that leaves a function is the [Raise]
    case of [result]; a reading of [time.time()] is a binary64 ([float]),
    subtracted and compared as Python does. *)

From Stdlib Require Import Ascii String ZArith QArith Qpower Lia Lqa Bool List Sorted.
From Stdlib Require Import Floats.
From stdpp Require Import gmap.
Import ListNotations.
Local Open Scope Z_scope.

(** ** Strings and exceptions *)

Abbreviation str := (list ascii).

Definition lit (s : string) : str := list_ascii_of_string s.

Definition newline : ascii := "010"%char.

Definition py_len {A} (l : list A) : Z := Z.of_nat (length l).

(** Truth value of a string: the empty string is falsy. *)
Definition truthy (s : str) : bool :=
  match s with [] => false | _ :: _ => true end.

(** [a == b] on strings. *)
Fixpoint str_eqb (a b : str) : bool :=
  match a, b with
  | [], [] => true
  | x :: a', y :: b' => Ascii.eqb x y && str_eqb a' b'
  | _, _ => false
  end.

Inductive exn := ValueError | BadRequest | OtherError.

Inductive result (A : Type) :=
| Ok (a : A)
| Raise (e : exn).
Arguments Ok {A} a.
Arguments Raise {A} e.

Definition bind {A B} (r : result A) (k : A -> result B) : result B :=
  match r with Ok a => k a | Raise e => Raise e end.

Notation "'let?' x := r 'in' k" := (bind r (fun x => k))
  (at level 10, x name, r at level 100, k at level 200).

(** A [for] loop whose body may raise: the state is threaded through the
    items from left to right and the first exception ends the loop. *)
Fixpoint for_each {S A} (body : S -> A -> result S) (items : list A) (s : S)
  : result S :=
  match items with
  | [] => Ok s
  | x :: rest => let? s' := body s x in for_each body rest s'
  end.

(** ** [str.split(sep)] and [sep.join(parts)] *)

Fixpoint starts_with (p s : str) : bool :=
  match p, s with
  | [], _ => true
  | _ :: _, [] => false
  | a :: p', b :: s' => Ascii.eqb a b && starts_with p' s'
  end.

Definition push_front (c : ascii) (parts : list str) : list str :=
  match parts with
  | [] => [[c]]
  | p :: rest => (c :: p) :: rest
  end.

(** Left-to-right scan for non-overlapping occurrences of a non-empty
    separator.  [skip] counts the characters of a separator that has just
    been matched and are still to be passed over. *)
Fixpoint split_scan (sep : str) (skip : nat) (s : str) : list str :=
  match s with
  | [] => [[]]
  | c :: s' =>
      match skip with
      | S k => split_scan sep k s'
      | O =>
          if starts_with sep s
          then [] :: split_scan sep (Nat.pred (length sep)) s'
          else push_front c (split_scan sep O s')
      end
  end.

(** [s.split(sep)], for the non-empty literal separators of the source. *)
Definition split (s sep : str) : list str := split_scan sep O s.

Fixpoint join (sep : str) (parts : list str) : str :=
  match parts with
  | [] => []
  | [p] => p
  | p :: rest => p ++ sep ++ join sep rest
  end.

(** ** Slices and [range] *)

(** [s[i:j]] for [0 <= i <= j]. *)
Definition slice (s : str) (i j : Z) : str :=
  firstn (Z.to_nat (j - i)) (skipn (Z.to_nat i) s).

(** [range(0, stop, step)] for [stop >= 0]: a zero step raises
    [ValueError], a negative step gives the empty range. *)
Definition range_from_zero (stop step : Z) : result (list Z) :=
  if step =? 0 then Raise ValueError
  else if step <? 0 then Ok []
  else Ok (map (fun k => Z.of_nat k * step)
               (seq 0 (Z.to_nat ((stop + step - 1) / step)))).

(** ** [split_message] *)

Definition paragraph_sep : str := [newline; newline].
Definition sentence_sep : str := lit ". ".

(** Loop state: [chunks] and [current_chunk]. *)
Definition seg_state : Type := list str * str.

(** Body of the inner loop, [for sentence in sentences]. *)
Definition sentence_body (paragraph : str) (max_length : Z)
  (st : seg_state) (sentence : str) : result seg_state :=
  let '(chunks, current_chunk) := st in
  if py_len current_chunk + py_len sentence + 2 >? max_length then
    if truthy current_chunk then
      Ok (chunks ++ [current_chunk], sentence ++ sentence_sep)
    else
      let? starts := range_from_zero (py_len paragraph) max_length in
      let sub_chunks :=
        map (fun i => slice paragraph i (i + max_length)) starts in
      Ok (chunks ++ sub_chunks, current_chunk)
  else
    Ok (chunks, current_chunk ++ sentence ++ sentence_sep).

(** Body of the outer loop, [for paragraph in paragraphs]. *)
Definition paragraph_body (max_length : Z)
  (st : seg_state) (paragraph : str) : result seg_state :=
  let '(chunks, current_chunk) := st in
  if py_len current_chunk + py_len paragraph + 2 >? max_length then
    if truthy current_chunk then
      Ok (chunks ++ [current_chunk], paragraph)
    else
      let sentences := split paragraph sentence_sep in
      for_each (sentence_body paragraph max_length) sentences
               (chunks, current_chunk)
  else
    if truthy current_chunk then
      Ok (chunks, current_chunk ++ paragraph_sep ++ paragraph)
    else
      Ok (chunks, paragraph).

Definition split_message (text : str) (max_length : Z) : result (list str) :=
  if py_len text <=? max_length then Ok [text]
  else
    let paragraphs := split text paragraph_sep in
    let? st := for_each (paragraph_body max_length) paragraphs ([], []) in
    let '(chunks, current_chunk) := st in
    if truthy current_chunk then Ok (chunks ++ [current_chunk])
    else Ok chunks.

(** ** The rate limiter: [UserService.check_rate_limit] *)

(** [time.time()] is an input of the model: each call receives the clock
    reading it would have taken.  The two operations the source applies to
    clock readings are kept abstract in a class, so that the properties that
    do not depend on arithmetic hold for every representation of time. *)
Class Clock (T : Type) := {
  time_sub : T -> T -> T;          (* [current_time - ts] *)
  time_lt_int : T -> Z -> bool     (* [d < time_window] *)
}.

(** A binary64 compared with an integer, exactly, as Python does. *)
Definition float_lt_int (x : float) (w : Z) : bool :=
  match Prim2SF x with
  | S754_nan => false
  | S754_infinity s => s
  | S754_zero _ => 0 <? w
  | S754_finite s m e =>
      let v := if s then Z.neg m else Z.pos m in
      if 0 <=? e then v * 2 ^ e <? w else v <? w * 2 ^ (- e)
  end.

(** IEEE 754 binary64 time, the representation [time.time()] returns. *)
#[export] Instance float_clock : Clock float := {
  time_sub := PrimFloat.sub;
  time_lt_int := float_lt_int
}.

Section RateLimiter.
Context {T : Type} `{Clock T}.

(** The comprehension's condition, [current_time - ts < time_window]. *)
Definition in_window (current_time : T) (time_window : Z) (ts : T) : bool :=
  time_lt_int (time_sub current_time ts) time_window.

Definition prune (current_time : T) (time_window : Z) (timestamps : list T)
  : list T :=
  List.filter (in_window current_time time_window) timestamps.

(** The class attribute [_rate_limits] is the state; the call returns its
    result and the new state. *)
Definition check_rate_limit (current_time : T)
  (user_id limit time_window : Z) (_rate_limits : gmap Z (list T))
  : bool * gmap Z (list T) :=
  let _rate_limits :=
    match _rate_limits !! user_id with
    | None => <[user_id := []]> _rate_limits
    | Some _ => _rate_limits
    end in
  let timestamps := default [] (_rate_limits !! user_id) in
  let timestamps := prune current_time time_window timestamps in
  let _rate_limits := <[user_id := timestamps]> _rate_limits in
  if py_len timestamps >=? limit then (false, _rate_limits)
  else (true, alter (fun l => l ++ [current_time]) user_id _rate_limits).

(** The list stored for an identity ([[]] when there is none yet). *)
Definition stored (user_id : Z) (_rate_limits : gmap Z (list T)) : list T :=
  default [] (_rate_limits !! user_id).
End RateLimiter.

(** *** What a binary64 reading denotes

    The properties of the limiter that speak of seconds elapsed need the
    number a clock reading stands for.  A binary64 is finite when it is
    neither an infinity nor a NaN ([time.time()] returns finite readings
    only); a finite one denotes, exactly, its signed mantissa times a power
    of two. *)
Definition finite_reading (x : float) : bool :=
  match Prim2SF x with
  | S754_zero _ | S754_finite _ _ _ => true
  | S754_infinity _ | S754_nan => false
  end.

Definition float_value (x : float) : Q :=
  match Prim2SF x with
  | S754_finite s m e => (inject_Z (if s then Z.neg m else Z.pos m) * 2 ^ e)%Q
  | _ => 0%Q
  end.

(** Exact age tests of a stored timestamp at a reading: [time_window]
    seconds old or more; at most [time_window - 1] seconds old. *)
Definition old_at (now : float) (time_window : Z) (ts : float) : bool :=
  finite_reading ts
  && Qle_bool (inject_Z time_window) (float_value now - float_value ts).

Definition recent_at (now : float) (time_window : Z) (ts : float) : bool :=
  finite_reading ts
  && Qle_bool (float_value now - float_value ts) (inject_Z (time_window - 1)).

(** Non-decreasing readings. *)
Definition reading_le (a b : float) : Prop :=
  (float_value a <= float_value b)%Q.

(** The comparison of [float_lt_int] on a decoded binary64; the value of a
    decoded binary64 in units of [2 ^ -1074], the least positive binary64;
    the exponent range of the finite ones. *)
Definition sf_lt_int (x : spec_float) (w : Z) : bool :=
  match x with
  | S754_nan => false
  | S754_infinity s => s
  | S754_zero _ => 0 <? w
  | S754_finite s m e =>
      let v := if s then Z.neg m else Z.pos m in
      if 0 <=? e then v * 2 ^ e <? w else v <? w * 2 ^ (- e)
  end.

Definition sf_units (x : spec_float) : option Z :=
  match x with
  | S754_zero _ => Some 0
  | S754_finite s m e => Some ((if s then Z.neg m else Z.pos m) * 2 ^ (e + 1074))
  | _ => None
  end.

Definition sf_ok (x : spec_float) : Prop :=
  match x with
  | S754_finite _ _ e => -1074 <= e
  | _ => True
  end.

(** Rounding to nearest, ties to even, of [M / 2 ^ k]: whether the quotient
    is rounded up. *)
Definition round_up (M k : Z) : bool :=
  (2 ^ k <? 2 * (M mod 2 ^ k))
  || ((2 ^ k =? 2 * (M mod 2 ^ k)) && Z.odd (M / 2 ^ k)).

(** The result of rounding the positive number [m * 2 ^ e], in units of
    [2 ^ -1074]: the mantissa is aligned as [binary_round] aligns it, then
    divided by the power of two that leaves 53 bits, or that brings the
    exponent to -1074, and the quotient is rounded. *)
Definition rounded_units (m : positive) (e : Z) : Z :=
  let '(mz, ez) := shl_align m e (fexp prec emax (Z.pos (digits2_pos m) + e)) in
  let F := Z.max (Z.pos (digits2_pos mz) + ez - 53) (-1074) in
  (Z.pos mz / 2 ^ (F - ez) + (if round_up (Z.pos mz) (F - ez) then 1 else 0))
  * 2 ^ (F + 1074).

(** A decoded binary64 of sign [s] whose magnitude is [V] units; an
    infinity stands for any magnitude of [2 ^ 1024] or more. *)
Definition result_units (r : spec_float) (s : bool) (V : Z) : Prop :=
  match r with
  | S754_zero _ => V = 0
  | S754_finite s' m2 e2 =>
      s' = s /\ -1074 <= e2 /\ Z.pos m2 * 2 ^ (e2 + 1074) = V
  | S754_infinity s' => s' = s /\ 2 ^ 53 * 2 ^ (971 + 1074) <= V
  | S754_nan => False
  end.

(** The mantissa and the exponent of a finite binary64 are canonical. *)
Definition sf_canonical (x : spec_float) : Prop :=
  match x with
  | S754_finite _ m e => fexp prec emax (Z.pos (digits2_pos m) + e) = e
  | _ => True
  end.

(** ** The delivery formatter: [sanitize_markdown], [safe_send_message] *)

Definition backslash : ascii := "\"%char.

(** [text.replace(old, new)] for a one-character [old]. *)
Definition replace_char (text : str) (old : ascii) (new : str) : str :=
  flat_map (fun c => if Ascii.eqb c old then new else [c]) text.

Definition escape_chars : str := lit "_*[]()~`>#+-=|{}.!".

Definition sanitize_markdown (text : str) : str :=
  if truthy text then
    fold_left (fun text char => replace_char text char [backslash; char])
              escape_chars text
  else [].

(** Membership in a regular-expression character class. *)
Definition in_class (class : str) (c : ascii) : bool :=
  existsb (Ascii.eqb c) class.

(** [re.sub('[class]', repl, text)]: every character of the class is
    replaced by [repl], the others are copied. *)
Fixpoint re_sub_class (class repl text : str) : str :=
  match text with
  | [] => []
  | c :: rest =>
      if in_class class c then repl ++ re_sub_class class repl rest
      else c :: re_sub_class class repl rest
  end.

(** The class of the pattern [[*_`[\]()]]. *)
Definition markup_class : str := lit "*_`[]()".

(** A keyword argument is either left out of the call or passed. *)
Inductive kwarg (A : Type) :=
| Omitted
| Passed (a : A).
Arguments Omitted {A}.
Arguments Passed {A} a.

Section Delivery.
Variable InlineKeyboardMarkup : Type.

(** The arguments of one [context.bot.send_message] call. *)
Record send_call := {
  chat_id : Z;
  text : str;
  parse_mode : kwarg (option str);
  reply_markup : option InlineKeyboardMarkup
}.

(** The transport: it has a state and answers a call by returning or by
    raising. *)
Variable World : Type.
Variable send_message : send_call -> World -> result unit * World.

(** Strategy 3, the plain-text attempt under [except Exception]. *)
Definition send_plain (chat : Z) (text : str)
  (reply_markup : option InlineKeyboardMarkup) (w : World)
  : result bool * World :=
  let plain_text := re_sub_class markup_class [] text in
  match send_message {| chat_id := chat; text := plain_text;
                        parse_mode := Omitted;
                        reply_markup := reply_markup |} w with
  | (Ok _, w') => (Ok true, w')
  | (Raise _, w') => (Ok false, w')
  end.

Definition is_markdown (parse_mode : option str) : bool :=
  match parse_mode with
  | Some m => str_eqb m (lit "Markdown")
  | None => false
  end.

(** [effective_chat] is [update.effective_chat.id] when the update has a
    chat.  Log lines are not part of the model. *)
Definition safe_send_message (effective_chat : option Z) (text : str)
  (parse_mode : option str) (reply_markup : option InlineKeyboardMarkup)
  (w : World) : result bool * World :=
  match effective_chat with
  | None => (Ok false, w)
  | Some chat =>
      match send_message {| chat_id := chat; text := text;
                            parse_mode := Passed parse_mode;
                            reply_markup := reply_markup |} w with
      | (Ok _, w1) => (Ok true, w1)
      | (Raise BadRequest, w1) =>
          if is_markdown parse_mode then
            let sanitized_text := sanitize_markdown text in
            match send_message {| chat_id := chat; text := sanitized_text;
                                  parse_mode := Passed (Some (lit "MarkdownV2"));
                                  reply_markup := reply_markup |} w1 with
            | (Ok _, w2) => (Ok true, w2)
            | (Raise BadRequest, w2) => send_plain chat text reply_markup w2
            | (Raise e, w2) => (Raise e, w2)
            end
          else send_plain chat text reply_markup w1
      | (Raise e, w1) => (Raise e, w1)
      end
  end.
End Delivery.

Arguments chat_id {InlineKeyboardMarkup} s.
Arguments text {InlineKeyboardMarkup} s.
Arguments parse_mode {InlineKeyboardMarkup} s.
Arguments reply_markup {InlineKeyboardMarkup} s.
Arguments Build_send_call {InlineKeyboardMarkup}.

(** A transport stub.  Its state is the list of the calls it has received,
    and its answer to a call is any function of that list and of the call:
    every deterministic transport started in a given state is of this form. *)
Definition stub {M : Type} (respond : list (send_call M) -> send_call M -> result unit)
  (c : send_call M) (received : list (send_call M))
  : result unit * list (send_call M) :=
  (respond received c, received ++ [c]).

(** The stub that answers its calls from a script, by position. *)
Definition scripted {M : Type} (script : list (result unit))
  (received : list (send_call M)) (c : send_call M) : result unit :=
  nth (length received) script (Raise OtherError).

(** Threads the state through successive checks of one identity, one clock
    reading per call. *)
Fixpoint check_all {T} `{Clock T} (readings : list T)
  (user_id limit time_window : Z) (_rate_limits : gmap Z (list T))
  : list bool * gmap Z (list T) :=
  match readings with
  | [] => ([], _rate_limits)
  | t :: rest =>
      let '(r, s) := check_rate_limit t user_id limit time_window _rate_limits in
      let '(rs, s') := check_all rest user_id limit time_window s in
      (r :: rs, s')
  end.

(** [c * n] for a one-character string [c]. *)
Definition py_repeat (c : ascii) (n : Z) : str := repeat c (Z.to_nat n).

(** The chunk fits. *)
Definition bounded (max_length : Z) (chunk : str) : Prop :=
  py_len chunk <= max_length.

(** Chunks put back together with any separators of one's choosing. *)
Fixpoint join_with (seps : list str) (chunks : list str) : str :=
  match chunks with
  | [] => []
  | [c] => c
  | c :: rest =>
      match seps with
      | [] => c ++ join_with [] rest
      | s :: seps' => c ++ s ++ join_with seps' rest
      end
  end.

Section DeliveryRuns.
Context {M : Type}.
Implicit Types (respond : list (send_call M) -> send_call M -> result unit)
  (chat : Z) (txt : str) (markup : option M).

Definition markdown : option str := Some (lit "Markdown").

(** The three attempts [safe_send_message] can make for a Markdown text. *)
Definition attempt1 chat txt markup : send_call M :=
  {| chat_id := chat; text := txt;
     parse_mode := Passed markdown; reply_markup := markup |}.
Definition attempt2 chat txt markup : send_call M :=
  {| chat_id := chat; text := sanitize_markdown txt;
     parse_mode := Passed (Some (lit "MarkdownV2")); reply_markup := markup |}.
Definition attempt3 chat txt markup : send_call M :=
  {| chat_id := chat;
     text := List.filter
               (fun c => negb (existsb (Ascii.eqb c)
                  ["*"; "_"; "`"; "["; "]"; "("; ")"]%char)) txt;
     parse_mode := Omitted; reply_markup := markup |}.

Definition send_markdown respond chat txt markup :=
  safe_send_message M _ (stub respond) (Some chat) txt markdown markup [].
End DeliveryRuns.

(** A call of [safe_send_message] against a stub that has received
    nothing yet: the result and the calls made, in order. *)
Definition run_send {M : Type}
  (respond : list (send_call M) -> send_call M -> result unit)
  (effective_chat : option Z) (txt : str) (mode : option str)
  (markup : option M) : result bool * list (send_call M) :=
  safe_send_message M _ (stub respond) effective_chat txt mode markup [].

(** The answers a stub gives to a sequence of calls. *)
Fixpoint responses_from {M : Type}
  (respond : list (send_call M) -> send_call M -> result unit)
  (received calls : list (send_call M)) : list (result unit) :=
  match calls with
  | [] => []
  | c :: rest => respond received c :: responses_from respond (received ++ [c]) rest
  end.

Definition responses {M : Type}
  (respond : list (send_call M) -> send_call M -> result unit)
  (calls : list (send_call M)) : list (result unit) :=
  responses_from respond [] calls.

(** What one pass over the text does to a character when the characters of
    [reserved] are escaped. *)
Definition escape_one (reserved : str) (c : ascii) : str :=
  if in_class reserved c then [backslash; c] else [c].

(** The comprehension [[s[i:i+n] for i in range(0, len(s), n)]], which
    [split_message] applies to a paragraph and the [/content] handler to the
    whole content. *)
Definition raw_slices (s : str) (n : Z) : result (list str) :=
  let? starts := range_from_zero (py_len s) n in
  Ok (map (fun i => slice s i (i + n)) starts).

(** The first [count] consecutive pieces of [width] characters of [s]. *)
Definition pieces (width count : nat) (s : str) : list str :=
  map (fun k => firstn width (skipn (k * width) s)) (seq 0 count).

(** Loop invariants of [split_message]: no chunk closed so far is empty;
    the chunks closed so far and the current one are within the limit. *)
Definition no_empty_chunk (st : seg_state) : Prop :=
  Forall (fun chunk => chunk <> []) (fst st).

Definition all_bounded (max_length : Z) (st : seg_state) : Prop :=
  Forall (bounded max_length) (fst st) /\ bounded max_length (snd st).

(** The clock readings of the calls that were admitted, in order. *)
Definition admitted {T} (readings : list T) (results : list bool) : list T :=
  map fst (List.filter snd (combine readings results)).

(** ** Handlers of learning_bot.py: the pure steps *)

(** [/content]: the loop that cuts the content into message parts,
    [for i in range(0, len(content_text), MAX_LENGTH)]. *)
Definition MAX_LENGTH : Z := 4000.

Definition content_message_parts (content_text : str) : result (list str) :=
  raw_slices content_text MAX_LENGTH.

(** [/content]: the topic id, from the command arguments or, failing that,
    from a message of the form [/content_ID] as the search results print
    it.  [None] stands for the [IndexError] of the subscript [[1]]. *)
Definition content_link : str := lit "/content_".

Definition content_topic_id (args : list str) (message_text : str)
  : option str :=
  let topic_id := match args with a :: _ => a | [] => [] end in
  if negb (truthy topic_id) && starts_with content_link message_text then
    match split message_text content_link with
    | _ :: second :: _ => Some second
    | _ => None
    end
  else Some topic_id.

(** [s.split(sep, 1)] for a one-character [sep]: cut at the first
    occurrence only. *)
Fixpoint split_once (s : str) (sep : ascii) : list str :=
  match s with
  | [] => [[]]
  | c :: rest =>
      if Ascii.eqb c sep then [[]; rest]
      else push_front c (split_once rest sep)
  end.

(** The [callback_data] that [/learn] gives a button, [f"{action}:{topic}"]. *)
Definition callback_data (action topic : str) : str :=
  action ++ lit ":" ++ topic.

(** [action, topic = query.data.split(":", 1)] of [button_click]; [None]
    stands for the [ValueError] of the unpacking, which the handler answers
    with "Invalid button data". *)
Definition parse_callback (data : str) : option (str * str) :=
  match split_once data ":"%char with
  | [action; topic] => Some (action, topic)
  | _ => None
  end.

(** ** user_service.py: learning sessions and statistics *)

(** A [LearningSession] document.  Times are microseconds since the epoch,
    the resolution of [datetime]; an unset field is [None]. *)
Record LearningSession := {
  s_id : Z;
  s_user : Z;
  s_topic : str;
  s_start_time : Z;
  s_end_time : option Z;
  s_duration : option Z;
  s_completed : bool;
  s_interactions : Z
}.

(** The collection is the list of its documents, in the order queries
    return them.  The queries of the source are filters on it. *)
Definition objects_user (db : list LearningSession) (user : Z)
  : list LearningSession :=
  List.filter (fun s => s_user s =? user) db.

Definition objects_user_completed (db : list LearningSession) (user : Z)
  : list LearningSession :=
  List.filter (fun s => (s_user s =? user) && s_completed s) db.

(** A [dict] with string keys, as the list of its items in insertion
    order: [d.get(k, default)] and [d[k] = v]. *)
Fixpoint dict_get (d : list (str * Z)) (k : str) (default : Z) : Z :=
  match d with
  | [] => default
  | (k', v) :: rest => if str_eqb k' k then v else dict_get rest k default
  end.

Fixpoint dict_set (d : list (str * Z)) (k : str) (v : Z) : list (str * Z) :=
  match d with
  | [] => [(k, v)]
  | (k', v') :: rest =>
      if str_eqb k' k then (k', v) :: rest else (k', v') :: dict_set rest k v
  end.

(** The loop that fills [topic_count]. *)
Definition count_topics (sessions : list LearningSession) : list (str * Z) :=
  fold_left
    (fun topic_count session =>
       let topic := s_topic session in
       dict_set topic_count topic (dict_get topic_count topic 0 + 1))
    sessions [].

(** [sorted(items, key=lambda x: x[1], reverse=True)]: the stable sort by
    decreasing count, items of equal count staying in their order. *)
Fixpoint insert_by_count (x : str * Z) (sorted : list (str * Z))
  : list (str * Z) :=
  match sorted with
  | [] => [x]
  | y :: rest =>
      if snd y <=? snd x then x :: y :: rest
      else y :: insert_by_count x rest
  end.

Definition sorted_by_count (items : list (str * Z)) : list (str * Z) :=
  fold_right insert_by_count [] items.

Record user_stats := {
  total_sessions : Z;
  completed_sessions : Z;
  total_time : Z;
  top_topics : list (str * Z);
  message_count : Z
}.

(** [get_user_stats], for queries that succeed; [user_message_count] is
    [user.message_count]. *)
Definition get_user_stats (user user_message_count : Z)
  (db : list LearningSession) : user_stats :=
  let total_sessions := py_len (objects_user db user) in
  let completed_sessions := py_len (objects_user_completed db user) in
  let total_learning_time :=
    fold_left (fun total session => total + default 0 (s_duration session))
              (objects_user_completed db user) 0 in
  let topic_count := count_topics (objects_user db user) in
  let sorted_topics := sorted_by_count topic_count in
  let top_topics := firstn 5 sorted_topics in
  {| total_sessions := total_sessions;
     completed_sessions := completed_sessions;
     total_time := total_learning_time;
     top_topics := top_topics;
     message_count := user_message_count |}.

(** The number of sessions on a topic. *)
Definition topic_sessions (sessions : list LearningSession) (topic : str) : Z :=
  py_len (List.filter (fun s => str_eqb (s_topic s) topic) sessions).

(** The counting loop started from any dictionary; the order of the sorted
    items; the sum of the counts of a list of items. *)
Definition count_from (d : list (str * Z)) (sessions : list LearningSession) :=
  fold_left
    (fun topic_count session =>
       let topic := s_topic session in
       dict_set topic_count topic (dict_get topic_count topic 0 + 1))
    sessions d.

Definition count_ge (x y : str * Z) : Prop := snd y <= snd x.

Definition sum_counts (items : list (str * Z)) : Z :=
  fold_right (fun item total => snd item + total) 0 items.

(** [(end - start).seconds]: the seconds field of the normalised
    [timedelta] (days, seconds in [[0, 86400)], microseconds) of a
    difference given in microseconds. *)
Definition timedelta_seconds (delta : Z) : Z :=
  (delta mod 86400000000) / 1000000.

(** [objects(id=session_id).first()] on the collection. *)
Definition objects_id_first (db : list LearningSession) (session_id : Z)
  : option LearningSession :=
  List.find (fun s => s_id s =? session_id) db.

(** A [datetime] as the collection holds it: a BSON date counts whole
    milliseconds, and the microseconds below them are cut off when the
    value is written. *)
Definition bson_datetime (t : Z) : Z := t - t mod 1000.

(** [session.save()] on a document read from the collection: the fields
    the call has set are written, the end time as a BSON date; the start
    time is the one that was read. *)
Definition to_mongo (doc : LearningSession) : LearningSession :=
  {| s_id := s_id doc;
     s_user := s_user doc;
     s_topic := s_topic doc;
     s_start_time := s_start_time doc;
     s_end_time := option_map bson_datetime (s_end_time doc);
     s_duration := s_duration doc;
     s_completed := s_completed doc;
     s_interactions := s_interactions doc |}.

Definition save (doc : LearningSession) (db : list LearningSession)
  : list LearningSession :=
  map (fun s => if s_id s =? s_id doc then to_mongo doc else s) db.

(** [end_learning_session], for a database that answers; [utcnow] is the
    reading of [datetime.utcnow()]. *)
Definition end_learning_session (session_id utcnow : Z)
  (db : list LearningSession) : bool * list LearningSession :=
  match objects_id_first db session_id with
  | Some session =>
      if negb (s_completed session) then
        let ended :=
          {| s_id := s_id session;
             s_user := s_user session;
             s_topic := s_topic session;
             s_start_time := s_start_time session;
             s_end_time := Some utcnow;
             s_duration := Some (timedelta_seconds (utcnow - s_start_time session));
             s_completed := true;
             s_interactions := s_interactions session |} in
        (true, save ended db)
      else (false, db)
  | None => (false, db)
  end.

(** The sum [get_user_stats] accumulates in [total_learning_time]. *)
Definition add_duration (total : Z) (session : LearningSession) : Z :=
  total + default 0 (s_duration session).

(** * Properties *)

Lemma py_len_nonneg {A} (l : list A) : 0 <= py_len l.
Proof. unfold py_len. lia. Qed.

Lemma py_len_app {A} (l1 l2 : list A) :
  py_len (l1 ++ l2) = py_len l1 + py_len l2.
Proof. unfold py_len. rewrite length_app. lia. Qed.

(** ** Rate limiter *)

Section RateLimiterFacts.
Context {T : Type} `{Clock T}.
Implicit Types (st : gmap Z (list T)) (now : T) (uid limit window : Z).

(** One call, in closed form: the stored list is pruned, and the clock
    reading is added to it exactly when the call admits. *)
Lemma check_rate_limit_unfold now uid limit window st :
  let pruned := prune now window (stored uid st) in
  check_rate_limit now uid limit window st =
    if py_len pruned >=? limit then (false, <[uid := pruned]> st)
    else (true, <[uid := pruned ++ [now]]> st).
Proof.
  unfold check_rate_limit, stored.
  destruct (st !! uid) as [l|] eqn:E; simpl.
  - rewrite E. simpl. destruct (_ >=? _); [done|].
    f_equal. apply map_eq. intros k. rewrite lookup_alter.
    destruct (decide (uid = k)) as [->|Hne].
    + by rewrite !lookup_insert_eq.
    + by rewrite !lookup_insert_ne.
  - rewrite lookup_insert_eq. simpl. rewrite insert_insert_eq.
    destruct (_ >=? _); [done|].
    f_equal. apply map_eq. intros k. rewrite lookup_alter.
    destruct (decide (uid = k)) as [->|Hne].
    + by rewrite !lookup_insert_eq.
    + by rewrite !lookup_insert_ne.
Qed.

Lemma prune_in_window now window l ts :
  In ts (prune now window l) <-> In ts l /\ in_window now window ts = true.
Proof. unfold prune. apply filter_In. Qed.

(** An admission leaves at most [limit] timestamps stored for the
    identity, whatever the representation of time. *)
Lemma check_rate_limit_admit_bound now uid limit window st st' :
  check_rate_limit now uid limit window st = (true, st') ->
  py_len (stored uid st') <= limit.
Proof.
  intros Hc. rewrite check_rate_limit_unfold in Hc. simpl in Hc.
  destruct (_ >=? _) eqn:E; [discriminate|].
  injection Hc as <-. unfold stored at 1. rewrite lookup_insert_eq. simpl.
  rewrite py_len_app. unfold py_len at 2. simpl. lia.
Qed.

(** C7: when the pruned list already holds [limit] timestamps or more, the
    call returns false and stores the pruned list as it is; the other
    identities are untouched. *)
Theorem check_rate_limit_reject now uid limit window st :
  py_len (prune now window (stored uid st)) >= limit ->
  fst (check_rate_limit now uid limit window st) = false
  /\ snd (check_rate_limit now uid limit window st) !! uid
     = Some (prune now window (stored uid st))
  /\ forall other, other <> uid ->
       snd (check_rate_limit now uid limit window st) !! other = st !! other.
Proof.
  intros Hge. rewrite check_rate_limit_unfold. simpl.
  destruct (_ >=? _) eqn:E; [|lia]. simpl.
  split; [done|]. split; [apply lookup_insert_eq|].
  intros other Hne. by rewrite lookup_insert_ne.
Qed.

(** C8: a limit of zero or less rejects every call, whatever is stored. *)
Theorem check_rate_limit_nonpositive now uid limit window st :
  limit <= 0 ->
  fst (check_rate_limit now uid limit window st) = false.
Proof.
  intros Hle. rewrite check_rate_limit_unfold. simpl.
  pose proof (py_len_nonneg (prune now window (stored uid st))).
  destruct (_ >=? _) eqn:E; [done|lia].
Qed.
End RateLimiterFacts.

Lemma stored_insert {T} (uid : Z) (l : list T) (st : gmap Z (list T)) :
  stored uid (<[uid := l]> st) = l.
Proof. unfold stored. by rewrite lookup_insert_eq. Qed.

Lemma prune_cons {T} `{Clock T} (now : T) (window : Z) (x : T) (l : list T) :
  prune now window (x :: l) =
    if in_window now window x then x :: prune now window l
    else prune now window l.
Proof. reflexivity. Qed.

Lemma check_rate_limit_on {T} `{Clock T} (now : T) (uid limit window : Z)
  (st : gmap Z (list T)) (l p : list T) :
  stored uid st = l -> prune now window l = p ->
  check_rate_limit now uid limit window st =
    if py_len p >=? limit then (false, <[uid := p]> st)
    else (true, <[uid := p ++ [now]]> st).
Proof. intros <- <-. apply check_rate_limit_unfold. Qed.

(** ** Binary64 subtraction

    [current_time - ts] is a binary64 subtraction: the exact difference,
    rounded to nearest, ties to even.  The lemmas below follow the
    algorithm of the standard library's specification of that operation
    ([SFsub], through [binary_normalize], [binary_round] and
    [binary_round_aux]): they give the value of its result, show that
    rounding is monotone and leaves a representable number as it is, and
    conclude with the three facts the limiter needs.  Values are counted in
    units of [2 ^ -1074], in which every finite binary64 is an integer. *)

(** *** Powers of two, digit counts and alignment *)

Lemma pow2_pos (a : Z) : 0 <= a -> 0 < 2 ^ a.
Proof. intros. apply Z.pow_pos_nonneg; lia. Qed.

Lemma pow2_split (a b : Z) : 0 <= a -> 0 <= b -> 2 ^ (a + b) = 2 ^ a * 2 ^ b.
Proof. intros. apply Z.pow_add_r; assumption. Qed.

Lemma fexp_eq (x : Z) : fexp prec emax x = Z.max (x - 53) (-1074).
Proof. reflexivity. Qed.

Lemma digits2_pos_size (p : positive) : digits2_pos p = Pos.size p.
Proof. induction p; simpl; congruence. Qed.

Lemma digits2_pos_bounds (m : positive) :
  2 ^ (Z.pos (digits2_pos m) - 1) <= Z.pos m < 2 ^ Z.pos (digits2_pos m).
Proof.
  rewrite digits2_pos_size. split.
  - pose proof (Pos.size_le m) as H.
    apply Pos2Z.pos_le_pos in H. rewrite Pos2Z.inj_pow in H.
    change (Z.pos m~0) with (2 * Z.pos m) in H.
    replace (Z.pos (Pos.size m)) with (Z.succ (Z.pos (Pos.size m) - 1)) in H by lia.
    rewrite Z.pow_succ_r in H by lia. lia.
  - pose proof (Pos.size_gt m) as H.
    apply Pos2Z.pos_lt_pos in H. rewrite Pos2Z.inj_pow in H. exact H.
Qed.

Lemma digits2_pos_le (m : positive) (k : Z) :
  Z.pos m < 2 ^ k -> Z.pos (digits2_pos m) <= k.
Proof.
  intros H. destruct (digits2_pos_bounds m) as [Hl _].
  destruct (Z.le_gt_cases (Z.pos (digits2_pos m)) k) as [|Hk]; [assumption|].
  exfalso. assert (2 ^ k <= 2 ^ (Z.pos (digits2_pos m) - 1)).
  { destruct (Z.le_gt_cases 0 k).
    - apply Z.pow_le_mono_r; lia.
    - rewrite Z.pow_neg_r by lia. apply Z.pow_nonneg. lia. }
  lia.
Qed.

Lemma digits2_pos_ge (m : positive) (k : Z) :
  2 ^ (k - 1) <= Z.pos m -> 1 <= k -> k <= Z.pos (digits2_pos m).
Proof.
  intros H Hk. destruct (digits2_pos_bounds m) as [_ Hu].
  destruct (Z.le_gt_cases k (Z.pos (digits2_pos m))) as [|Hd]; [assumption|].
  exfalso. assert (2 ^ Z.pos (digits2_pos m) <= 2 ^ (k - 1)).
  { apply Z.pow_le_mono_r; lia. }
  lia.
Qed.

Lemma shl_align_spec (mx : positive) (ex ez : Z) :
  ez <= ex ->
  Z.pos (fst (shl_align mx ex ez)) = Z.pos mx * 2 ^ (ex - ez)
  /\ snd (shl_align mx ex ez) = ez.
Proof.
  intros H. unfold shl_align. destruct (ez - ex) as [|d|d] eqn:E; cbn [fst snd].
  - replace (ex - ez) with 0 by lia. rewrite Z.pow_0_r. lia.
  - lia.
  - replace (ex - ez) with (Z.pos d) by lia.
    change (Pos.iter xO mx d) with (shift_pos d mx).
    rewrite shift_pos_correct, Z.pow_pos_fold.
    split; [ring|reflexivity].
Qed.

Lemma shl_align_norm (m : positive) (e : Z) :
  -1074 <= e ->
  exists (mz : positive) (ez : Z),
    shl_align m e (fexp prec emax (Z.pos (digits2_pos m) + e)) = (mz, ez)
    /\ -1074 <= ez
    /\ Z.pos mz * 2 ^ (ez + 1074) = Z.pos m * 2 ^ (e + 1074)
    /\ ez <= Z.max (Z.pos (digits2_pos mz) + ez - 53) (-1074).
Proof.
  intros He.
  set (fe := fexp prec emax (Z.pos (digits2_pos m) + e)).
  assert (Hfe : fe = Z.max (Z.pos (digits2_pos m) + e - 53) (-1074))
    by reflexivity.
  destruct (Z.le_gt_cases e fe) as [Hle|Hgt].
  - exists m, e. unfold shl_align.
    destruct (fe - e) eqn:E; try lia; repeat split; auto; lia.
  - destruct (shl_align_spec m e fe) as [Hm Hs]; [lia|].
    destruct (shl_align m e fe) as [mz ez]. cbn [fst snd] in Hm, Hs. subst ez.
    exists mz, fe. split; [reflexivity|]. split; [lia|]. split.
    + rewrite Hm, <- Z.mul_assoc, <- pow2_split by lia.
      f_equal. f_equal. lia.
    + assert (Z.pos (digits2_pos m) + (e - fe) <= Z.pos (digits2_pos mz)); [|lia].
      apply digits2_pos_ge; [|lia]. rewrite Hm.
      replace (Z.pos (digits2_pos m) + (e - fe) - 1)
        with ((Z.pos (digits2_pos m) - 1) + (e - fe)) by lia.
      rewrite pow2_split by lia.
      apply Z.mul_le_mono_nonneg_r; [apply Z.pow_nonneg; lia|].
      apply digits2_pos_bounds.
Qed.

(** The quotient of a mantissa by the power of two that leaves 53 bits or
    fewer. *)
Lemma quotient_bounds (mz : positive) (ez F : Z) :
  F = Z.max (Z.pos (digits2_pos mz) + ez - 53) (-1074) -> ez <= F ->
  0 <= Z.pos mz / 2 ^ (F - ez) < 2 ^ 53
  /\ (-1074 < F -> 2 ^ 52 <= Z.pos mz / 2 ^ (F - ez)).
Proof.
  intros HF Hle. set (d := Z.pos (digits2_pos mz)) in *.
  destruct (digits2_pos_bounds mz) as [Hdl Hdu]. fold d in Hdl, Hdu.
  assert (Hpn : 0 < 2 ^ (F - ez)) by (apply pow2_pos; lia).
  split; [split|].
  - apply Z.div_pos; lia.
  - apply Z.div_lt_upper_bound; [assumption|].
    rewrite <- pow2_split by lia.
    assert (2 ^ d <= 2 ^ (F - ez + 53)) by (apply Z.pow_le_mono_r; lia). lia.
  - intros Hn. apply Z.div_le_lower_bound; [assumption|].
    rewrite <- pow2_split by lia.
    replace (F - ez + 52) with (d - 1) by lia. exact Hdl.
Qed.

(** *** Shifting right and the rounding decision *)

Lemma spec_iter_pos_iter {A} (f : A -> A) (p : positive) (x : A) :
  SpecFloat.iter_pos f p x = Pos.iter f x p.
Proof.
  revert x. induction p as [p IH|p IH|]; intros x; simpl.
  - rewrite !IH. rewrite !Pos.iter_swap. reflexivity.
  - rewrite !IH. reflexivity.
  - reflexivity.
Qed.

Lemma shr_1_m (mrs : shr_record) :
  0 <= shr_m mrs -> shr_m (shr_1 mrs) = shr_m mrs / 2 /\ 0 <= shr_m (shr_1 mrs).
Proof.
  destruct mrs as [m r s]. cbn [shr_m]. intros Hm.
  destruct m as [|[p|p|]|p]; cbn [shr_1 shr_m]; try lia.
  - split; [reflexivity|lia].
  - split; [|lia]. apply Z.div_unique with 1; lia.
  - split; [|lia]. apply Z.div_unique with 0; lia.
  - split; [|lia]. reflexivity.
Qed.

Lemma shr_iter_m (p : positive) (mrs : shr_record) :
  0 <= shr_m mrs ->
  shr_m (SpecFloat.iter_pos shr_1 p mrs) = shr_m mrs / 2 ^ Z.pos p
  /\ 0 <= shr_m (SpecFloat.iter_pos shr_1 p mrs).
Proof.
  intros Hm. rewrite spec_iter_pos_iter.
  induction p as [|p IH] using Pos.peano_ind.
  - simpl. destruct (shr_1_m mrs Hm) as [-> H0]. split; [|lia].
    reflexivity.
  - rewrite Pos.iter_succ. destruct IH as [IHm IH0].
    destruct (shr_1_m _ IH0) as [-> H0]. split; [|exact H0].
    rewrite IHm, Pos2Z.inj_succ, Z.pow_succ_r by lia.
    rewrite Z.div_div by lia. f_equal. lia.
Qed.

Lemma shr_spec (mrs : shr_record) (e n : Z) :
  0 <= shr_m mrs ->
  shr_m (fst (shr mrs e n)) = shr_m mrs / 2 ^ Z.max 0 n
  /\ snd (shr mrs e n) = e + Z.max 0 n
  /\ 0 <= shr_m (fst (shr mrs e n)).
Proof.
  intros Hm. destruct n as [|p|p]; cbn [shr fst snd].
  - change (Z.max 0 0) with 0. rewrite Z.pow_0_r, Z.div_1_r. lia.
  - replace (Z.max 0 (Z.pos p)) with (Z.pos p) by lia.
    destruct (shr_iter_m p mrs Hm) as [H1 H2]. auto.
  - replace (Z.max 0 (Z.neg p)) with 0 by lia.
    rewrite Z.pow_0_r, Z.div_1_r. lia.
Qed.

Lemma shr_1_rs (mrs : shr_record) :
  0 <= shr_m mrs ->
  shr_r (shr_1 mrs) = Z.odd (shr_m mrs)
  /\ shr_s (shr_1 mrs) = shr_r mrs || shr_s mrs.
Proof.
  destruct mrs as [m r s]. cbn [shr_m shr_r shr_s]. intros Hm.
  destruct m as [|[p|p|]|p]; cbn [shr_1 shr_m shr_r shr_s]; try lia;
    split; reflexivity.
Qed.

Lemma mod_pow2_succ (M q : Z) :
  0 <= q ->
  M mod 2 ^ (q + 1) = M mod 2 ^ q + 2 ^ q * (if Z.odd (M / 2 ^ q) then 1 else 0).
Proof.
  intros Hq. rewrite Z.pow_add_r, Z.pow_1_r by lia.
  assert (0 < 2 ^ q) by (apply Z.pow_pos_nonneg; lia).
  rewrite Z.rem_mul_r by lia. rewrite Zmod_odd. reflexivity.
Qed.

Lemma shr_iter_rs (p : positive) (M : Z) :
  0 <= M ->
  let mrs := SpecFloat.iter_pos shr_1 p {| shr_m := M; shr_r := false; shr_s := false |} in
  shr_r mrs = (2 ^ (Z.pos p - 1) <=? M mod 2 ^ Z.pos p)
  /\ shr_s mrs = negb (M mod 2 ^ (Z.pos p - 1) =? 0).
Proof.
  intros HM. cbv zeta.
  induction p as [|p IH] using Pos.peano_ind.
  - cbn [SpecFloat.iter_pos]. destruct (shr_1_rs {| shr_m := M; shr_r := false; shr_s := false |}) as [-> ->];
      [cbn; lia|]. cbn [shr_m shr_r shr_s orb].
    change (Z.pos 1 - 1) with 0. rewrite Z.pow_0_r, Z.pow_1_r, Z.mod_1_r.
    rewrite Zmod_odd. split; [|reflexivity].
    destruct (Z.odd M); reflexivity.
  - destruct IH as [IHr IHs].
    destruct (shr_iter_m p {| shr_m := M; shr_r := false; shr_s := false |}) as [Hm H0];
      [cbn; lia|]. cbn [shr_m] in Hm.
    rewrite spec_iter_pos_iter in *. rewrite Pos.iter_succ.
    destruct (shr_1_rs (Pos.iter shr_1 {| shr_m := M; shr_r := false; shr_s := false |} p) H0)
      as [-> ->].
    rewrite IHr, IHs, Hm. clear IHr IHs Hm H0.
    rewrite Pos2Z.inj_succ. unfold Z.succ.
    replace (Z.pos p + 1 - 1) with (Z.pos p) by lia.
    set (q := Z.pos p). assert (Hq : 1 <= q) by (unfold q; lia).
    assert (Hpq : 0 < 2 ^ q) by (apply Z.pow_pos_nonneg; lia).
    assert (Hpq1 : 0 < 2 ^ (q - 1)) by (apply Z.pow_pos_nonneg; lia).
    pose proof (Z.mod_pos_bound M (2 ^ q) Hpq) as Hb.
    pose proof (Z.mod_pos_bound M (2 ^ (q - 1)) Hpq1) as Hb1.
    split.
    + rewrite (mod_pow2_succ M q) by lia.
      destruct (Z.odd (M / 2 ^ q)); symmetry; [apply Z.leb_le|apply Z.leb_gt]; lia.
    + pose proof (mod_pow2_succ M (q - 1)) as Hs.
      replace (q - 1 + 1) with q in Hs by lia. rewrite Hs by lia.
      destruct (Z.odd (M / 2 ^ (q - 1))).
      * replace (2 ^ (q - 1) <=? M mod 2 ^ (q - 1) + 2 ^ (q - 1) * 1) with true
          by (symmetry; apply Z.leb_le; lia).
        cbn [orb]. symmetry. apply negb_true_iff, Z.eqb_neq. lia.
      * replace (2 ^ (q - 1) <=? M mod 2 ^ (q - 1) + 2 ^ (q - 1) * 0) with false
          by (symmetry; apply Z.leb_gt; lia).
        cbn [orb]. f_equal. f_equal. lia.
Qed.

Lemma shr_round (M e n : Z) :
  0 <= M ->
  let mrs := fst (shr (shr_record_of_loc M loc_Exact) e n) in
  round_nearest_even (shr_m mrs) (loc_of_shr_record mrs)
  = M / 2 ^ Z.max 0 n + (if round_up M (Z.max 0 n) then 1 else 0).
Proof.
  intros HM. cbv zeta.
  assert (Hz : round_up M 0 = false).
  { unfold round_up. rewrite Z.pow_0_r, Z.mod_1_r. reflexivity. }
  destruct n as [|p|p]; cbn [shr fst shr_record_of_loc].
  - change (Z.max 0 0) with 0. rewrite Hz, Z.pow_0_r, Z.div_1_r.
    cbn [loc_of_shr_record round_nearest_even shr_m]. lia.
  - replace (Z.max 0 (Z.pos p)) with (Z.pos p) by lia.
    destruct (shr_iter_m p {| shr_m := M; shr_r := false; shr_s := false |}) as [Hm H0];
      [cbn; lia|]. cbn [shr_m] in Hm.
    destruct (shr_iter_rs p M HM) as [Hr Hs]. cbv zeta in Hr, Hs.
    destruct (SpecFloat.iter_pos shr_1 p _) as [m r s].
    cbn [shr_m shr_r shr_s] in *. subst m r s.
    set (q := Z.pos p). assert (Hq : 1 <= q) by (unfold q; lia).
    assert (Hpq : 0 < 2 ^ q) by (apply Z.pow_pos_nonneg; lia).
    assert (Hpq1 : 0 < 2 ^ (q - 1)) by (apply Z.pow_pos_nonneg; lia).
    assert (H2 : 2 ^ q = 2 * 2 ^ (q - 1)).
    { replace q with (q - 1 + 1) at 1 by lia.
      rewrite Z.pow_add_r, Z.pow_1_r by lia. ring. }
    pose proof (mod_pow2_succ M (q - 1)) as Hsplit.
    replace (q - 1 + 1) with q in Hsplit by lia.
    pose proof (Z.mod_pos_bound M (2 ^ (q - 1)) Hpq1) as Hb1.
    unfold round_up.
    destruct (Z.odd (M / 2 ^ (q - 1))) eqn:Eb; rewrite Hsplit by lia.
    + replace (2 ^ (q - 1) <=? M mod 2 ^ (q - 1) + 2 ^ (q - 1) * 1) with true
        by (symmetry; apply Z.leb_le; lia).
      destruct (M mod 2 ^ (q - 1) =? 0) eqn:Ea; cbn [negb loc_of_shr_record round_nearest_even].
      * apply Z.eqb_eq in Ea. rewrite Ea.
        replace (2 ^ q <? 2 * (0 + 2 ^ (q - 1) * 1)) with false
          by (symmetry; apply Z.ltb_ge; lia).
        replace (2 ^ q =? 2 * (0 + 2 ^ (q - 1) * 1)) with true
          by (symmetry; apply Z.eqb_eq; lia).
        cbn [orb andb]. rewrite <- Z.negb_even.
        destruct (Z.even (M / 2 ^ q)); cbn [negb]; lia.
      * apply Z.eqb_neq in Ea.
        replace (2 ^ q <? 2 * (M mod 2 ^ (q - 1) + 2 ^ (q - 1) * 1)) with true
          by (symmetry; apply Z.ltb_lt; lia).
        cbn [orb]. reflexivity.
    + replace (2 ^ (q - 1) <=? M mod 2 ^ (q - 1) + 2 ^ (q - 1) * 0) with false
        by (symmetry; apply Z.leb_gt; lia).
      replace (2 ^ q <? 2 * (M mod 2 ^ (q - 1) + 2 ^ (q - 1) * 0)) with false
        by (symmetry; apply Z.ltb_ge; lia).
      replace (2 ^ q =? 2 * (M mod 2 ^ (q - 1) + 2 ^ (q - 1) * 0)) with false
        by (symmetry; apply Z.eqb_neq; lia).
      cbn [orb andb].
      destruct (M mod 2 ^ (q - 1) =? 0); cbn [negb loc_of_shr_record round_nearest_even]; lia.
  - replace (Z.max 0 (Z.neg p)) with 0 by lia. rewrite Hz, Z.pow_0_r, Z.div_1_r.
    cbn [loc_of_shr_record round_nearest_even shr_m]. lia.
Qed.

(** *** The value of a rounded number *)

Lemma binary_round_aux_value (s : bool) (mz : positive) (ez : Z) :
  let n := Z.max 0 (fexp prec emax (Z.pos (digits2_pos mz) + ez) - ez) in
  let m1 := Z.pos mz / 2 ^ n + (if round_up (Z.pos mz) n then 1 else 0) in
  let n2 := Z.max 0 (fexp prec emax (Zdigits2 m1 + (ez + n)) - (ez + n)) in
  binary_round_aux prec emax s (Z.pos mz) ez loc_Exact =
    match m1 / 2 ^ n2 with
    | 0 => S754_zero s
    | Z.pos m =>
        if ez + n + n2 <=? 971 then S754_finite s m (ez + n + n2)
        else S754_infinity s
    | Z.neg _ => S754_nan
    end.
Proof.
  cbv zeta. unfold binary_round_aux, shr_fexp.
  change (Zdigits2 (Z.pos mz)) with (Z.pos (digits2_pos mz)).
  set (n0 := fexp prec emax (Z.pos (digits2_pos mz) + ez) - ez).
  pose proof (shr_spec (shr_record_of_loc (Z.pos mz) loc_Exact) ez n0) as H1.
  pose proof (shr_round (Z.pos mz) ez n0) as Hr.
  destruct (shr (shr_record_of_loc (Z.pos mz) loc_Exact) ez n0) as [mrs' e'].
  cbn [fst snd shr_record_of_loc shr_m] in H1, Hr.
  destruct H1 as (Hm' & He' & H0'); [lia|].
  rewrite Hr by lia. subst e'.
  set (m1 := Z.pos mz / 2 ^ Z.max 0 n0 + (if round_up (Z.pos mz) (Z.max 0 n0) then 1 else 0)).
  set (n2 := fexp prec emax (Zdigits2 m1 + (ez + Z.max 0 n0)) - (ez + Z.max 0 n0)).
  pose proof (shr_spec (shr_record_of_loc m1 loc_Exact) (ez + Z.max 0 n0) n2) as H2.
  destruct (shr (shr_record_of_loc m1 loc_Exact) (ez + Z.max 0 n0) n2) as [mrs'' e''].
  cbn [fst snd shr_record_of_loc shr_m] in H2.
  assert (0 <= Z.pos mz / 2 ^ Z.max 0 n0) by (apply Z.div_pos; lia).
  assert (0 <= m1) by (unfold m1; destruct (round_up _ _); lia).
  destruct H2 as (Hm'' & He'' & H0''); [lia|].
  rewrite Hm'', He''. reflexivity.
Qed.

Lemma binary_round_value (s : bool) (m : positive) (e : Z) :
  -1074 <= e ->
  result_units (binary_round prec emax s m e) s (rounded_units m e).
Proof.
  intros He. unfold binary_round, rounded_units.
  destruct (shl_align_norm m e He) as (mz & ez & -> & Hez & _ & Hcan).
  rewrite binary_round_aux_value. cbv zeta. rewrite !fexp_eq.
  set (F := Z.max (Z.pos (digits2_pos mz) + ez - 53) (-1074)) in *.
  replace (Z.max 0 (F - ez)) with (F - ez) by lia.
  replace (ez + (F - ez)) with F by lia.
  destruct (quotient_bounds mz ez F eq_refl Hcan) as [[Hm0 Hm53] Hnormal].
  set (m1 := Z.pos mz / 2 ^ (F - ez)
             + (if round_up (Z.pos mz) (F - ez) then 1 else 0)) in *.
  assert (Hm1 : Z.pos mz / 2 ^ (F - ez) <= m1 <= 2 ^ 53)
    by (unfold m1; destruct (round_up _ _); lia).
  set (d1 := Zdigits2 m1).
  set (n2 := Z.max 0 (Z.max (d1 + F - 53) (-1074) - F)).
  assert (H53 : 2 ^ 53 = 2 ^ 52 * 2) by reflexivity.
  assert (Hn2 : n2 = 0 \/ (n2 = 1 /\ m1 = 2 ^ 53)).
  { destruct (Z.eq_dec n2 0) as [|Hne]; [by left|right].
    assert (Hd1 : 54 <= d1) by (unfold n2 in Hne; lia).
    destruct m1 as [|p1|p1] eqn:Em1; [cbn in d1; lia| |lia].
    destruct (digits2_pos_bounds p1) as [Hl1 _].
    change (Z.pos (digits2_pos p1)) with d1 in Hl1.
    assert (2 ^ 53 <= 2 ^ (d1 - 1)) by (apply Z.pow_le_mono_r; lia).
    assert (Hp1 : Z.pos p1 = 2 ^ 53) by lia.
    assert (d1 <= 54).
    { apply digits2_pos_le. rewrite Hp1.
      apply Z.pow_lt_mono_r; lia. }
    split; [unfold n2; lia|exact Hp1]. }
  assert (Hexact : m1 / 2 ^ n2 * 2 ^ n2 = m1).
  { destruct Hn2 as [->|[-> ->]].
    - rewrite Z.pow_0_r, Z.div_1_r. lia.
    - rewrite Z.pow_1_r, H53, Z.div_mul by lia. reflexivity. }
  assert (HV : m1 / 2 ^ n2 * 2 ^ (F + n2 + 1074) = m1 * 2 ^ (F + 1074)).
  { replace (F + n2 + 1074) with (n2 + (F + 1074)) by lia.
    rewrite pow2_split by (unfold n2; lia).
    rewrite Z.mul_assoc, Hexact. reflexivity. }
  assert (Hm2 : 0 <= m1 / 2 ^ n2).
  { apply Z.div_pos; [lia|]. apply pow2_pos. unfold n2. lia. }
  destruct (m1 / 2 ^ n2) as [|m2|m2] eqn:E2; [| |lia].
  - cbn [result_units]. rewrite <- HV. lia.
  - destruct (F + n2 <=? 971) eqn:Ee; cbn [result_units].
    + split; [reflexivity|]. split; [unfold n2; lia|exact HV].
    + apply Z.leb_gt in Ee. split; [reflexivity|]. rewrite <- HV.
      assert (Hbig : 2 ^ 52 <= Z.pos m2).
      { destruct Hn2 as [Hz|[Ho Hp]].
        - rewrite Hz, Z.pow_0_r, Z.div_1_r in E2.
          assert (-1074 < F) by lia. specialize (Hnormal H). lia.
        - rewrite Ho, Z.pow_1_r, Hp, H53, Z.div_mul in E2 by lia. lia. }
      assert (HE : 2 ^ (971 + 1074) * 2 <= 2 ^ (F + n2 + 1074)).
      { apply Z.le_trans with (2 ^ (971 + 1074 + 1)).
        - rewrite (pow2_split (971 + 1074) 1), Z.pow_1_r by lia. lia.
        - apply Z.pow_le_mono_r; lia. }
      assert (0 < 2 ^ (971 + 1074)) by (apply pow2_pos; lia).
      set (B := 2 ^ (971 + 1074)) in *. set (T52 := 2 ^ 52) in *.
      rewrite H53.
      assert (T52 * (B * 2) <= Z.pos m2 * 2 ^ (F + n2 + 1074)); [|lia].
      apply Z.mul_le_mono_nonneg; unfold T52; lia.
Qed.

(** *** Rounding is monotone, and exact on what is representable *)

Lemma round_cell (U a r a' r' : Z) (up up' : bool) :
  0 < U -> 0 <= r < U -> 0 <= r' < U ->
  a * U + r <= a' * U + r' ->
  (up = true -> U < 2 * r \/ (U = 2 * r /\ Z.odd a = true)) ->
  (U < 2 * r' \/ (U = 2 * r' /\ Z.odd a' = true) -> up' = true) ->
  (a + (if up then 1 else 0)) * U <= (a' + (if up' then 1 else 0)) * U.
Proof.
  intros HU Hr Hr' Hle Hup Hup'.
  apply Z.mul_le_mono_nonneg_r; [lia|].
  destruct (Z.lt_trichotomy a a') as [Hlt|[Heq|Hgt]].
  - destruct up, up'; lia.
  - subst a'. assert (r <= r') by lia.
    destruct up; [|destruct up'; lia].
    rewrite Hup'; [lia|].
    destruct (Hup eq_refl) as [H1|[H1 H2]]; [left; lia|].
    destruct (Z.eq_dec r r') as [->|]; [right; done|left; lia].
  - exfalso. assert (a' * U + U <= a * U) by nia. lia.
Qed.

Lemma round_up_units (mz : positive) (n c : Z) :
  0 <= n -> 0 < c ->
  let U := 2 ^ n * c in
  let r := (Z.pos mz mod 2 ^ n) * c in
  0 <= r < U
  /\ Z.pos mz * c = (Z.pos mz / 2 ^ n) * U + r
  /\ (round_up (Z.pos mz) n = true <->
      U < 2 * r \/ (U = 2 * r /\ Z.odd (Z.pos mz / 2 ^ n) = true)).
Proof.
  intros Hn Hc. cbv zeta.
  assert (Hp : 0 < 2 ^ n) by (apply pow2_pos; lia).
  pose proof (Z.mod_pos_bound (Z.pos mz) (2 ^ n) Hp) as Hb.
  pose proof (Z.div_mod (Z.pos mz) (2 ^ n)) as Hdm.
  set (q := Z.pos mz / 2 ^ n) in *. set (rem := Z.pos mz mod 2 ^ n) in *.
  split; [nia|]. split; [nia|].
  unfold round_up. fold q rem.
  rewrite orb_true_iff, andb_true_iff, Z.ltb_lt, Z.eqb_eq.
  split; (intros [H|[H H']]; [left|right]); try split; try assumption; nia.
Qed.

Lemma rounded_units_mono (m m' : positive) (e e' : Z) :
  -1074 <= e -> -1074 <= e' ->
  Z.pos m * 2 ^ (e + 1074) <= Z.pos m' * 2 ^ (e' + 1074) ->
  rounded_units m e <= rounded_units m' e'.
Proof.
  intros He He' Hle. unfold rounded_units.
  destruct (shl_align_norm m e He) as (mz & ez & -> & Hez & Hval & Hcan).
  destruct (shl_align_norm m' e' He') as (mz' & ez' & -> & Hez' & Hval' & Hcan').
  rewrite <- Hval, <- Hval' in Hle. clear Hval Hval' m m' e e' He He'.
  cbv zeta.
  set (d := Z.pos (digits2_pos mz)) in *. set (d' := Z.pos (digits2_pos mz')) in *.
  set (F := Z.max (d + ez - 53) (-1074)) in *.
  set (F' := Z.max (d' + ez' - 53) (-1074)) in *.
  destruct (digits2_pos_bounds mz) as [Hdl Hdu]. fold d in Hdl, Hdu.
  destruct (digits2_pos_bounds mz') as [Hdl' Hdu']. fold d' in Hdl', Hdu'.
  destruct (quotient_bounds mz ez F eq_refl Hcan) as [[Hm0 Hm53] Hnormal].
  destruct (quotient_bounds mz' ez' F' eq_refl Hcan') as [[Hm0' Hm53'] Hnormal'].
  assert (Hc : 0 < 2 ^ (ez + 1074)) by (apply pow2_pos; lia).
  assert (Hc' : 0 < 2 ^ (ez' + 1074)) by (apply pow2_pos; lia).
  assert (Hdd : d + ez <= d' + ez').
  { assert (Hlt : 2 ^ (d - 1 + (ez + 1074)) < 2 ^ (d' + (ez' + 1074))).
    { rewrite (pow2_split (d - 1) (ez + 1074)), (pow2_split d' (ez' + 1074))
        by lia.
      assert (2 ^ (d - 1) * 2 ^ (ez + 1074) <= Z.pos mz * 2 ^ (ez + 1074))
        by (apply Z.mul_le_mono_nonneg_r; lia).
      assert (Z.pos mz' * 2 ^ (ez' + 1074) < 2 ^ d' * 2 ^ (ez' + 1074))
        by (apply Z.mul_lt_mono_pos_r; lia).
      lia. }
    apply Z.pow_lt_mono_r_iff in Hlt; lia. }
  assert (HFF : F <= F') by (unfold F, F'; lia).
  assert (HU : 0 < 2 ^ (F + 1074)) by (apply pow2_pos; lia).
  assert (HU' : 0 < 2 ^ (F' + 1074)) by (apply pow2_pos; lia).
  destruct (Z.eq_dec F F') as [Heq|Hne].
  - rewrite <- Heq in *.
    destruct (round_up_units mz (F - ez) (2 ^ (ez + 1074))) as (Hr & Hsplit & Hup);
      [lia|assumption|].
    destruct (round_up_units mz' (F - ez') (2 ^ (ez' + 1074))) as (Hr' & Hsplit' & Hup');
      [lia|assumption|].
    cbv zeta in *.
    rewrite <- !pow2_split in * by lia.
    replace (F - ez + (ez + 1074)) with (F + 1074) in * by lia.
    replace (F - ez' + (ez' + 1074)) with (F + 1074) in * by lia.
    apply (round_cell (2 ^ (F + 1074)) _ _ _ _ _ _ HU Hr Hr').
    + lia.
    + apply Hup.
    + apply Hup'.
  - assert (HF1 : F + 1 <= F') by lia.
    assert (Hn' : -1074 < F') by lia. specialize (Hnormal' Hn').
    assert (H53 : 2 ^ 53 = 2 ^ 52 * 2) by reflexivity.
    set (T52 := 2 ^ 52) in *.
    assert (HE : 2 * 2 ^ (F + 1074) <= 2 ^ (F' + 1074)).
    { apply Z.le_trans with (2 ^ (1 + (F + 1074))).
      - rewrite (pow2_split 1 (F + 1074)), Z.pow_1_r by lia. lia.
      - apply Z.pow_le_mono_r; lia. }
    set (a := Z.pos mz / 2 ^ (F - ez)) in *.
    set (a' := Z.pos mz' / 2 ^ (F' - ez')) in *.
    set (up := round_up (Z.pos mz) (F - ez)).
    set (up' := round_up (Z.pos mz') (F' - ez')).
    assert (H1 : (a + (if up then 1 else 0)) * 2 ^ (F + 1074)
                 <= T52 * 2 * 2 ^ (F + 1074)).
    { apply Z.mul_le_mono_nonneg_r; [lia|]. destruct up; lia. }
    assert (H2 : T52 * 2 ^ (F' + 1074)
                 <= (a' + (if up' then 1 else 0)) * 2 ^ (F' + 1074)).
    { apply Z.mul_le_mono_nonneg_r; [lia|]. destruct up'; lia. }
    assert (T52 * 2 * 2 ^ (F + 1074) <= T52 * 2 ^ (F' + 1074)).
    { rewrite <- Z.mul_assoc. apply Z.mul_le_mono_nonneg_l; [unfold T52; lia|lia]. }
    lia.
Qed.

Lemma rounded_units_nonneg (m : positive) (e : Z) :
  -1074 <= e -> 0 <= rounded_units m e.
Proof.
  intros He. unfold rounded_units.
  destruct (shl_align_norm m e He) as (mz & ez & -> & Hez & _ & Hcan).
  cbv zeta.
  destruct (quotient_bounds mz ez _ eq_refl Hcan) as [[Hm0 _] _].
  apply Z.mul_nonneg_nonneg; [destruct (round_up _ _); lia|].
  apply Z.pow_nonneg. lia.
Qed.

(** A number that has a binary64 representation is rounded to itself. *)
Lemma rounded_units_exact (m : positive) (e c k : Z) :
  -1074 <= e -> -1074 <= k -> 0 < c < 2 ^ 53 ->
  Z.pos m * 2 ^ (e + 1074) = c * 2 ^ (k + 1074) ->
  rounded_units m e = Z.pos m * 2 ^ (e + 1074).
Proof.
  intros He Hk Hc Hrep. unfold rounded_units.
  destruct (shl_align_norm m e He) as (mz & ez & -> & Hez & Hval & Hcan).
  rewrite <- Hval in *. clear Hval m e He. cbv zeta.
  set (d := Z.pos (digits2_pos mz)) in *.
  set (F := Z.max (d + ez - 53) (-1074)) in *.
  destruct (digits2_pos_bounds mz) as [Hdl _]. fold d in Hdl.
  assert (Hpn : 0 < 2 ^ (F - ez)) by (apply pow2_pos; lia).
  assert (Hpe : 0 < 2 ^ (ez + 1074)) by (apply pow2_pos; lia).
  assert (Hmod : Z.pos mz mod 2 ^ (F - ez) = 0).
  { destruct (Z.eq_dec F ez) as [->|Hne].
    - rewrite Z.sub_diag, Z.pow_0_r. apply Z.mod_1_r.
    - assert (HFk : F <= k).
      { assert (Hlt : 2 ^ (d - 1 + (ez + 1074)) < 2 ^ (53 + (k + 1074))).
        { rewrite (pow2_split (d - 1) (ez + 1074)), (pow2_split 53 (k + 1074))
            by lia.
          assert (2 ^ (d - 1) * 2 ^ (ez + 1074) <= Z.pos mz * 2 ^ (ez + 1074))
            by (apply Z.mul_le_mono_nonneg_r; lia).
          assert (c * 2 ^ (k + 1074) < 2 ^ 53 * 2 ^ (k + 1074)).
          { apply Z.mul_lt_mono_pos_r; [apply pow2_pos|]; lia. }
          lia. }
        apply Z.pow_lt_mono_r_iff in Hlt; lia. }
      assert (Hmz : Z.pos mz = c * 2 ^ (k - F) * 2 ^ (F - ez)).
      { apply Z.mul_reg_r with (p := 2 ^ (ez + 1074)); [lia|].
        rewrite Hrep, <- !Z.mul_assoc, <- !pow2_split by lia.
        f_equal. f_equal. lia. }
      rewrite Hmz. apply Z.mod_mul. lia. }
  unfold round_up. rewrite Hmod.
  replace (2 ^ (F - ez) <? 2 * 0) with false by (symmetry; apply Z.ltb_ge; lia).
  replace (2 ^ (F - ez) =? 2 * 0) with false by (symmetry; apply Z.eqb_neq; lia).
  cbn [orb andb]. rewrite Z.add_0_r.
  apply Z.div_exact in Hmod; [|lia].
  rewrite Hmod at 2.
  rewrite (Z.mul_comm (2 ^ (F - ez))), <- !Z.mul_assoc, <- pow2_split by lia.
  f_equal. f_equal. lia.
Qed.

(** So is an integer from 1 to [2 ^ 53]. *)
Lemma rounded_units_integer (w : Z) :
  1 <= w <= 2 ^ 53 ->
  rounded_units (Z.to_pos w) 0 = w * 2 ^ 1074.
Proof.
  intros Hw.
  assert (Hp : Z.pos (Z.to_pos w) = w) by (apply Z2Pos.id; lia).
  assert (Hv : Z.pos (Z.to_pos w) * 2 ^ (0 + 1074) = w * 2 ^ 1074)
    by (by rewrite Hp).
  rewrite <- Hv.
  destruct (Z.eq_dec w (2 ^ 53)) as [->|Hne].
  - apply (rounded_units_exact _ 0 (2 ^ 52) 1); [lia|lia| |].
    + split; [apply pow2_pos; lia|apply Z.pow_lt_mono_r; lia].
    + rewrite Hv. reflexivity.
  - apply (rounded_units_exact _ 0 w 0); [lia|lia|lia|exact Hv].
Qed.

Lemma rounded_units_canonical (m : positive) (e : Z) :
  fexp prec emax (Z.pos (digits2_pos m) + e) = e ->
  rounded_units m e = Z.pos m * 2 ^ (e + 1074).
Proof.
  intros Hc. unfold rounded_units. rewrite Hc.
  unfold shl_align. rewrite Z.sub_diag. cbv zeta.
  rewrite fexp_eq in Hc. rewrite Hc, Z.sub_diag.
  unfold round_up. rewrite Z.pow_0_r, Z.mod_1_r, Z.div_1_r. cbn [orb andb].
  change (1 <? 2 * 0) with false. change (1 =? 2 * 0) with false.
  cbn [orb andb]. lia.
Qed.

(** *** Comparing a result with an integer *)

Lemma sf_lt_int_finite (s : bool) (m : positive) (e w : Z) :
  -1074 <= e ->
  sf_lt_int (S754_finite s m e) w
  = ((if s then Z.neg m else Z.pos m) * 2 ^ (e + 1074) <? w * 2 ^ 1074).
Proof.
  intros He. cbn [sf_lt_int]. set (v := if s then Z.neg m else Z.pos m).
  set (P := 2 ^ 1074).
  apply Bool.eq_iff_eq_true. destruct (0 <=? e) eqn:E.
  - apply Z.leb_le in E. rewrite !Z.ltb_lt.
    rewrite pow2_split by lia. fold P.
    assert (0 < P) by (apply pow2_pos; lia).
    rewrite Z.mul_assoc. apply Z.mul_lt_mono_pos_r. assumption.
  - apply Z.leb_gt in E. rewrite !Z.ltb_lt.
    assert (HP : P = 2 ^ (- e) * 2 ^ (e + 1074)).
    { unfold P. rewrite <- pow2_split by lia. f_equal. lia. }
    rewrite HP, Z.mul_assoc.
    apply Z.mul_lt_mono_pos_r. apply pow2_pos. lia.
Qed.

Lemma sf_lt_int_negative (m : positive) (e w : Z) :
  1 <= w -> sf_lt_int (S754_finite true m e) w = true.
Proof.
  intros Hw. cbn [sf_lt_int]. destruct (0 <=? e) eqn:E; apply Z.ltb_lt.
  - apply Z.leb_le in E. assert (0 < 2 ^ e) by (apply pow2_pos; lia). nia.
  - apply Z.leb_gt in E. assert (0 < 2 ^ (- e)) by (apply pow2_pos; lia). nia.
Qed.

Lemma result_units_ge (r : spec_float) (V w : Z) :
  result_units r false V -> 1 <= w -> w * 2 ^ 1074 <= V ->
  sf_lt_int r w = false.
Proof.
  intros Hr Hw HV.
  assert (HP : 0 < 2 ^ 1074) by (apply pow2_pos; lia).
  destruct r as [s|s| |s m2 e2]; cbn [result_units] in Hr.
  - nia.
  - by destruct Hr as [-> _].
  - contradiction.
  - destruct Hr as (-> & He2 & <-).
    rewrite sf_lt_int_finite by assumption. by apply Z.ltb_ge.
Qed.

Lemma result_units_below (r : spec_float) (V w : Z) :
  result_units r false V -> 1 <= w <= 2 ^ 53 -> V < w * 2 ^ 1074 ->
  sf_lt_int r w = true.
Proof.
  intros Hr Hw HV.
  assert (HP : 0 < 2 ^ 1074) by (apply pow2_pos; lia).
  assert (HB : 2 ^ 1074 <= 2 ^ (971 + 1074)) by (apply Z.pow_le_mono_r; lia).
  destruct r as [s|s| |s m2 e2]; cbn [result_units] in Hr.
  - cbn [sf_lt_int]. apply Z.ltb_lt. lia.
  - destruct Hr as [_ Hbig]. exfalso.
    assert (w * 2 ^ 1074 <= 2 ^ 53 * 2 ^ (971 + 1074)); [|lia].
    apply Z.mul_le_mono_nonneg; lia.
  - contradiction.
  - destruct Hr as (-> & He2 & <-).
    rewrite sf_lt_int_finite by assumption. by apply Z.ltb_lt.
Qed.

Lemma result_units_above (r : spec_float) (V w : Z) :
  result_units r false V -> 1 <= w -> sf_lt_int r w = true ->
  V < w * 2 ^ 1074.
Proof.
  intros Hr Hw Hlt.
  assert (HP : 0 < 2 ^ 1074) by (apply pow2_pos; lia).
  destruct r as [s|s| |s m2 e2]; cbn [result_units] in Hr.
  - nia.
  - destruct Hr as [-> _]. discriminate.
  - contradiction.
  - destruct Hr as (-> & He2 & <-).
    rewrite sf_lt_int_finite in Hlt by assumption. by apply Z.ltb_lt in Hlt.
Qed.

Lemma binary_round_neg (m : positive) (e w : Z) :
  -1074 <= e -> 1 <= w ->
  sf_lt_int (binary_round prec emax true m e) w = true.
Proof.
  intros He Hw. pose proof (binary_round_value true m e He) as Hr.
  destruct (binary_round prec emax true m e) as [s|s| |s m2 e2];
    cbn [result_units] in Hr.
  - cbn [sf_lt_int]. apply Z.ltb_lt. lia.
  - by destruct Hr as [-> _].
  - contradiction.
  - destruct Hr as (-> & _). by apply sf_lt_int_negative.
Qed.

(** *** The subtraction *)

Lemma cond_Zopp_units (s : bool) (m : positive) (e ez : Z) :
  -1074 <= ez <= e ->
  cond_Zopp s (Z.pos m * 2 ^ (e - ez)) * 2 ^ (ez + 1074)
  = (if s then Z.neg m else Z.pos m) * 2 ^ (e + 1074).
Proof.
  intros H. replace (e + 1074) with ((e - ez) + (ez + 1074)) by lia.
  rewrite (pow2_split (e - ez) (ez + 1074)) by lia.
  destruct s; cbn [cond_Zopp]; [rewrite <- Pos2Z.opp_pos|]; ring.
Qed.

Lemma SFsub_units (x y : spec_float) (ux uy : Z) :
  sf_units x = Some ux -> sf_units y = Some uy -> sf_ok x -> sf_ok y ->
  match x, y with
  | S754_finite sx mx ex, S754_finite sy my ey =>
      exists D : Z,
        SFsub prec emax x y = binary_normalize prec emax D (Z.min ex ey) false
        /\ D * 2 ^ (Z.min ex ey + 1074) = ux - uy
  | _, _ =>
      exists r : spec_float,
        SFsub prec emax x y = r /\ sf_ok r /\ sf_units r = Some (ux - uy)
  end.
Proof.
  intros Hx Hy Hox Hoy.
  destruct x as [sx|sx| |sx mx ex]; try discriminate;
    destruct y as [sy|sy| |sy my ey]; try discriminate;
    cbn [sf_units] in Hx, Hy; injection Hx as <-; injection Hy as <-.
  - exists (S754_zero (if sx then negb sy && sx else sx && sy)).
    destruct sx, sy; cbn; auto.
  - exists (S754_finite (negb sy) my ey). cbn [SFsub sf_ok sf_units].
    repeat split; [exact Hoy|]. f_equal. destruct sy; cbn [negb]; lia.
  - exists (S754_finite sx mx ex). cbn [SFsub sf_ok sf_units].
    repeat split; [exact Hox|]. f_equal. lia.
  - cbn [sf_ok] in Hox, Hoy. cbn [SFsub].
    set (ez := Z.min ex ey).
    destruct (shl_align_spec mx ex ez) as [Hmx _]; [unfold ez; lia|].
    destruct (shl_align_spec my ey ez) as [Hmy _]; [unfold ez; lia|].
    eexists. split; [reflexivity|]. cbv zeta. fold ez.
    rewrite Hmx, Hmy, Z.mul_sub_distr_r.
    rewrite !cond_Zopp_units by (unfold ez; lia). reflexivity.
Qed.

(** The result of the subtraction of two finite binary64: below every
    positive integer when the exact difference is zero or negative, and the
    rounding of the exact difference when it is positive. *)
Lemma SFsub_descr (x y : spec_float) (ux uy : Z) :
  sf_units x = Some ux -> sf_units y = Some uy ->
  sf_ok x -> sf_ok y -> sf_canonical x -> sf_canonical y ->
  (ux - uy <= 0 -> forall w, 1 <= w -> sf_lt_int (SFsub prec emax x y) w = true)
  /\ (0 < ux - uy ->
      exists (m : positive) (e : Z),
        -1074 <= e /\ Z.pos m * 2 ^ (e + 1074) = ux - uy
        /\ result_units (SFsub prec emax x y) false (rounded_units m e)).
Proof.
  intros Hx Hy Hox Hoy Hcx Hcy.
  pose proof (SFsub_units x y ux uy Hx Hy Hox Hoy) as H.
  destruct x as [sx|sx| |sx mx ex]; try discriminate;
    destruct y as [sy|sy| |sy my ey]; try discriminate;
    cbn [sf_units] in Hx, Hy; injection Hx as <-; injection Hy as <-;
    cbn [sf_ok sf_canonical] in *.
  - split; [|lia]. intros _ w Hw.
    destruct sx, sy; cbn; apply Z.ltb_lt; lia.
  - assert (0 < 2 ^ (ey + 1074)) by (apply pow2_pos; lia).
    cbn [SFsub]. destruct sy; cbn [negb]; split; try (intros; nia).
    + intros _. exists my, ey. split; [done|]. split; [lia|].
      rewrite rounded_units_canonical by done. cbn [result_units]. done.
    + intros _ w Hw. by apply sf_lt_int_negative.
  - assert (0 < 2 ^ (ex + 1074)) by (apply pow2_pos; lia).
    cbn [SFsub]. destruct sx; split; try (intros; nia).
    + intros _ w Hw. by apply sf_lt_int_negative.
    + intros _. exists mx, ex. split; [done|]. split; [lia|].
      rewrite rounded_units_canonical by done. cbn [result_units]. done.
  - destruct H as (D & -> & HD).
    assert (He : -1074 <= Z.min ex ey) by lia.
    assert (0 < 2 ^ (Z.min ex ey + 1074)) by (apply pow2_pos; lia).
    destruct D as [|p|p]; cbn [binary_normalize].
    + split; [|lia]. intros _ w Hw. cbn. apply Z.ltb_lt. lia.
    + split; [intros; nia|]. intros _. exists p, (Z.min ex ey).
      split; [done|]. split; [done|]. by apply binary_round_value.
    + split; [|intros; nia]. intros _ w Hw. by apply binary_round_neg.
Qed.

(** The two bounds the window test needs: when the exact difference is
    [w] or more in an integer [w] from 1 to [2 ^ 53], the result is not
    below [w]; when it is [w - 1] or less, the result is below [w]. *)
Lemma SFsub_ge (x y : spec_float) (ux uy w : Z) :
  sf_units x = Some ux -> sf_units y = Some uy ->
  sf_ok x -> sf_ok y -> sf_canonical x -> sf_canonical y ->
  1 <= w <= 2 ^ 53 -> w * 2 ^ 1074 <= ux - uy ->
  sf_lt_int (SFsub prec emax x y) w = false.
Proof.
  intros Hx Hy Hox Hoy Hcx Hcy Hw Hge.
  assert (HP : 0 < 2 ^ 1074) by (apply pow2_pos; lia).
  destruct (SFsub_descr x y ux uy Hx Hy Hox Hoy Hcx Hcy) as [_ Hpos].
  destruct Hpos as (m & e & He & Hval & Hr); [nia|].
  apply (result_units_ge _ _ w Hr); [lia|].
  rewrite <- (rounded_units_integer w Hw).
  apply rounded_units_mono; [lia|done|].
  rewrite Z2Pos.id, Z.add_0_l by lia. lia.
Qed.

Lemma SFsub_le (x y : spec_float) (ux uy w : Z) :
  sf_units x = Some ux -> sf_units y = Some uy ->
  sf_ok x -> sf_ok y -> sf_canonical x -> sf_canonical y ->
  1 <= w <= 2 ^ 53 -> ux - uy <= (w - 1) * 2 ^ 1074 ->
  sf_lt_int (SFsub prec emax x y) w = true.
Proof.
  intros Hx Hy Hox Hoy Hcx Hcy Hw Hle.
  assert (HP : 0 < 2 ^ 1074) by (apply pow2_pos; lia).
  destruct (SFsub_descr x y ux uy Hx Hy Hox Hoy Hcx Hcy) as [Hneg Hpos].
  destruct (Z.le_gt_cases (ux - uy) 0) as [Hd|Hd]; [apply Hneg; lia|].
  destruct (Hpos Hd) as (m & e & He & Hval & Hr).
  assert (Hw1 : 1 <= w - 1 <= 2 ^ 53) by nia.
  apply (result_units_below _ _ w Hr Hw).
  assert (rounded_units m e <= (w - 1) * 2 ^ 1074); [|lia].
  rewrite <- (rounded_units_integer (w - 1) Hw1).
  apply rounded_units_mono; [done|lia|].
  rewrite Z2Pos.id, Z.add_0_l by lia. lia.
Qed.

Lemma SFsub_lt_mono (x x' y : spec_float) (ux ux' uy w : Z) :
  sf_units x = Some ux -> sf_units x' = Some ux' -> sf_units y = Some uy ->
  sf_ok x -> sf_ok x' -> sf_ok y ->
  sf_canonical x -> sf_canonical x' -> sf_canonical y ->
  ux <= ux' -> 1 <= w <= 2 ^ 53 ->
  sf_lt_int (SFsub prec emax x' y) w = true ->
  sf_lt_int (SFsub prec emax x y) w = true.
Proof.
  intros Hx Hx' Hy Hox Hox' Hoy Hcx Hcx' Hcy Hle Hw Hlt.
  destruct (SFsub_descr x y ux uy Hx Hy Hox Hoy Hcx Hcy) as [Hneg Hpos].
  destruct (SFsub_descr x' y ux' uy Hx' Hy Hox' Hoy Hcx' Hcy) as [_ Hpos'].
  destruct (Z.le_gt_cases (ux - uy) 0) as [Hd|Hd]; [apply Hneg; lia|].
  destruct (Hpos Hd) as (m & e & He & Hval & Hr).
  destruct Hpos' as (m' & e' & He' & Hval' & Hr'); [lia|].
  apply (result_units_below _ _ w Hr Hw).
  pose proof (result_units_above _ _ w Hr' (proj1 Hw) Hlt).
  assert (rounded_units m e <= rounded_units m' e'); [|lia].
  apply rounded_units_mono; [done|done|lia].
Qed.

(** *** On primitive floats *)

Lemma Prim2SF_canonical (x : float) : sf_canonical (Prim2SF x).
Proof.
  pose proof (Prim2SF_valid x) as Hv.
  destruct (Prim2SF x) as [s|s| |s m e]; cbn [sf_canonical]; try exact I.
  cbn [SpecFloat.valid_binary] in Hv. unfold bounded, canonical_mantissa in Hv.
  apply andb_prop in Hv. destruct Hv as [Hc _]. by apply Z.eqb_eq in Hc.
Qed.

Lemma float_value_units (x : float) :
  finite_reading x = true ->
  exists u : Z,
    sf_units (Prim2SF x) = Some u /\ sf_ok (Prim2SF x)
    /\ sf_canonical (Prim2SF x)
    /\ (float_value x * inject_Z (2 ^ 1074) == inject_Z u)%Q.
Proof.
  unfold finite_reading, float_value. pose proof (Prim2SF_canonical x) as Hc.
  destruct (Prim2SF x) as [s|s| |s m e]; try discriminate; intros _.
  - exists 0. cbn [sf_units sf_ok]. split; [reflexivity|]. split; [exact I|].
    split; [exact I|]. apply Qmult_0_l.
  - cbn [sf_canonical] in Hc. pose proof Hc as Hc'. rewrite fexp_eq in Hc'.
    assert (He : -1074 <= e) by lia.
    eexists. cbn [sf_units sf_ok]. split; [reflexivity|]. split; [exact He|].
    split; [exact Hc|].
    rewrite inject_Z_mult.
    rewrite (Zpower_Qpower 2 (e + 1074)) by lia.
    rewrite (Zpower_Qpower 2 1074) by lia.
    rewrite Qpower_plus by discriminate.
    change (inject_Z 2) with 2%Q. rewrite Qmult_assoc. reflexivity.
Qed.

Lemma float_lt_int_decoded (x : float) (w : Z) :
  float_lt_int x w = sf_lt_int (Prim2SF x) w.
Proof. reflexivity. Qed.

(** The three facts about the code's subtraction that the limiter needs,
    for finite readings and an integer [w] from 1 to [2 ^ 53].  When the
    exact difference of the readings is [w] or more, the binary64
    difference is not below [w]; when the exact difference is [w - 1] or
    less, the binary64 difference is below [w]; and what is below [w] seen
    from a reading is below [w] seen from any earlier one. *)
Lemma float_sub_old (now ts : float) (w : Z) :
  finite_reading now = true -> finite_reading ts = true ->
  1 <= w <= 2 ^ 53 ->
  (inject_Z w <= float_value now - float_value ts)%Q ->
  float_lt_int (now - ts) w = false.
Proof.
  intros Hn Ht Hw Hage.
  destruct (float_value_units now Hn) as (un & Hun & Hon & Hcn & Hvn).
  destruct (float_value_units ts Ht) as (ut & Hut & Hot & Hct & Hvt).
  rewrite float_lt_int_decoded, sub_spec.
  apply SFsub_ge with (ux := un) (uy := ut); try assumption.
  assert (HP : 0 < 2 ^ 1074) by (apply pow2_pos; lia).
  set (P := 2 ^ 1074) in *.
  rewrite Zle_Qle, inject_Z_mult.
  apply Qle_trans with ((float_value now - float_value ts) * inject_Z P)%Q.
  - apply Qmult_le_compat_r; [exact Hage|].
    change 0%Q with (inject_Z 0). rewrite <- Zle_Qle. lia.
  - unfold Z.sub at 1. rewrite inject_Z_plus, inject_Z_opp, <- Hvn, <- Hvt.
    apply Qle_lteq. right. ring.
Qed.

Lemma float_sub_recent (now ts : float) (w : Z) :
  finite_reading now = true -> finite_reading ts = true ->
  1 <= w <= 2 ^ 53 ->
  (float_value now - float_value ts <= inject_Z (w - 1))%Q ->
  float_lt_int (now - ts) w = true.
Proof.
  intros Hn Ht Hw Hage.
  destruct (float_value_units now Hn) as (un & Hun & Hon & Hcn & Hvn).
  destruct (float_value_units ts Ht) as (ut & Hut & Hot & Hct & Hvt).
  rewrite float_lt_int_decoded, sub_spec.
  apply SFsub_le with (ux := un) (uy := ut); try assumption.
  assert (HP : 0 < 2 ^ 1074) by (apply pow2_pos; lia).
  set (P := 2 ^ 1074) in *.
  rewrite Zle_Qle, inject_Z_mult.
  apply Qle_trans with ((float_value now - float_value ts) * inject_Z P)%Q.
  - unfold Z.sub at 1. rewrite inject_Z_plus, inject_Z_opp, <- Hvn, <- Hvt.
    apply Qle_lteq. right. ring.
  - apply Qmult_le_compat_r; [exact Hage|].
    change 0%Q with (inject_Z 0). rewrite <- Zle_Qle. lia.
Qed.

Lemma float_sub_mono (t t' ts : float) (w : Z) :
  finite_reading t = true -> finite_reading t' = true ->
  finite_reading ts = true ->
  (float_value t <= float_value t')%Q ->
  1 <= w <= 2 ^ 53 ->
  float_lt_int (t' - ts) w = true -> float_lt_int (t - ts) w = true.
Proof.
  intros Ft Ft' Fts Hle Hw.
  destruct (float_value_units t Ft) as (u & Hu & Ho & Hc & Hv).
  destruct (float_value_units t' Ft') as (u' & Hu' & Ho' & Hc' & Hv').
  destruct (float_value_units ts Fts) as (us & Hus & Hos & Hcs & _).
  rewrite !float_lt_int_decoded, !sub_spec.
  apply (SFsub_lt_mono _ _ _ u u' us); try assumption.
  assert (HP : 0 < 2 ^ 1074) by (apply pow2_pos; lia).
  set (P := 2 ^ 1074) in *.
  rewrite Zle_Qle, <- Hv, <- Hv'.
  apply Qmult_le_compat_r; [exact Hle|].
  change 0%Q with (inject_Z 0). rewrite <- Zle_Qle. lia.
Qed.

(** Against a timestamp that is not finite, the reading does not matter. *)
Lemma float_sub_nonfinite (t t' ts : float) (w : Z) :
  finite_reading t = true -> finite_reading t' = true ->
  finite_reading ts = false ->
  float_lt_int (t - ts) w = float_lt_int (t' - ts) w.
Proof.
  rewrite !float_lt_int_decoded, !sub_spec. unfold finite_reading.
  destruct (Prim2SF t), (Prim2SF t'), (Prim2SF ts); try discriminate;
    reflexivity.
Qed.

(** ** The rate limiter on binary64 clock readings *)

(** The window test of the source, decided by the exact age of the
    timestamp: a timestamp [window] seconds old or more fails it, one that
    is at most [window - 1] seconds old passes it.  Between the two, the
    rounding of the subtraction decides. *)
Lemma in_window_old (now ts : float) (window : Z) :
  finite_reading now = true -> finite_reading ts = true ->
  1 <= window <= 2 ^ 53 ->
  (inject_Z window <= float_value now - float_value ts)%Q ->
  in_window now window ts = false.
Proof. apply float_sub_old. Qed.

Lemma in_window_recent (now ts : float) (window : Z) :
  finite_reading now = true -> finite_reading ts = true ->
  1 <= window <= 2 ^ 53 ->
  (float_value now - float_value ts <= inject_Z (window - 1))%Q ->
  in_window now window ts = true.
Proof. apply float_sub_recent. Qed.

Lemma old_at_spec (now ts : float) (window : Z) :
  old_at now window ts = true <->
  finite_reading ts = true
  /\ (inject_Z window <= float_value now - float_value ts)%Q.
Proof. unfold old_at. by rewrite andb_true_iff, Qle_bool_iff. Qed.

Lemma recent_at_spec (now ts : float) (window : Z) :
  recent_at now window ts = true <->
  finite_reading ts = true
  /\ (float_value now - float_value ts <= inject_Z (window - 1))%Q.
Proof. unfold recent_at. by rewrite andb_true_iff, Qle_bool_iff. Qed.

Lemma inject_Z_pos (w : Z) : 1 <= w -> (0 < inject_Z w)%Q.
Proof. intros Hw. change 0%Q with (inject_Z 0). rewrite <- Zlt_Qlt. lia. Qed.

Lemma filter_length_impl {A} (p q : A -> bool) (l : list A) :
  (forall x, In x l -> p x = true -> q x = true) ->
  (length (List.filter p l) <= length (List.filter q l))%nat.
Proof.
  induction l as [|x l IH]; intros Himp; [done|]. simpl.
  assert (IH' := IH (fun y Hy => Himp y (or_intror Hy))).
  destruct (p x) eqn:Ep.
  - rewrite (Himp x (or_introl eq_refl) Ep). simpl. lia.
  - destruct (q x); simpl; lia.
Qed.

(** A timestamp that is [window] seconds old or more is pruned. *)
Lemma prune_drops_old (now ts : float) (window : Z) (l : list float) :
  finite_reading now = true -> finite_reading ts = true ->
  1 <= window <= 2 ^ 53 ->
  (inject_Z window <= float_value now - float_value ts)%Q ->
  ~ In ts (prune now window l).
Proof.
  intros Hn Ht Hw Hold. rewrite prune_in_window. intros [_ Hin].
  rewrite (in_window_old now ts window) in Hin by assumption. discriminate.
Qed.

(** C6: an admission leaves at most [limit] timestamps stored for the
    identity.  And on every check at a finite reading, with a window from 1
    to [2 ^ 53] seconds: a stored timestamp whose exact age is
    [time_window] seconds or more is not in the list whose length is
    compared with the limit, and is not stored afterwards; the result is
    that comparison; so the call is admitted whenever fewer than [limit] of
    the stored timestamps are younger than [time_window]. *)
Theorem check_rate_limit_invariant (now : float) (uid limit window : Z)
  (st st' : gmap Z (list float)) :
  check_rate_limit now uid limit window st = (true, st') ->
  py_len (stored uid st') <= limit
  /\ (forall (now2 : float) (limit2 window2 : Z) (st2 : gmap Z (list float)),
        finite_reading now2 = true -> 1 <= window2 <= 2 ^ 53 ->
        (forall ts : float,
            finite_reading ts = true ->
            (inject_Z window2 <= float_value now2 - float_value ts)%Q ->
            ~ In ts (prune now2 window2 (stored uid st2))
            /\ ~ In ts (stored uid
                          (snd (check_rate_limit now2 uid limit2 window2 st2))))
        /\ fst (check_rate_limit now2 uid limit2 window2 st2)
           = (py_len (prune now2 window2 (stored uid st2)) <? limit2)
        /\ (py_len (List.filter (fun ts => negb (old_at now2 window2 ts))
                      (stored uid st2)) < limit2 ->
            fst (check_rate_limit now2 uid limit2 window2 st2) = true)).
Proof.
  intros Hc. split; [by apply (check_rate_limit_admit_bound now uid limit window st)|].
  intros now2 limit2 window2 st2 Hn Hw.
  assert (Hres : fst (check_rate_limit now2 uid limit2 window2 st2)
                 = (py_len (prune now2 window2 (stored uid st2)) <? limit2)).
  { rewrite check_rate_limit_unfold. cbv zeta.
    destruct (_ >=? _) eqn:E; cbn [fst]; lia. }
  split; [|split; [exact Hres|]].
  - intros ts Ht Hold.
    pose proof (prune_drops_old now2 ts window2 (stored uid st2) Hn Ht Hw Hold)
      as Hdrop.
    split; [exact Hdrop|].
    rewrite check_rate_limit_unfold. cbv zeta.
    destruct (_ >=? _); cbn [snd]; rewrite stored_insert; [exact Hdrop|].
    rewrite in_app_iff. intros [Hin|[Heq|[]]]; [by apply Hdrop|].
    subst ts. pose proof (inject_Z_pos window2 (proj1 Hw)). lra.
  - intros Hfew. rewrite Hres. apply Z.ltb_lt.
    assert (py_len (prune now2 window2 (stored uid st2))
            <= py_len (List.filter (fun ts => negb (old_at now2 window2 ts))
                         (stored uid st2))); [|lia].
    unfold py_len, prune. apply inj_le. apply filter_length_impl.
    intros ts _ Hin. apply negb_true_iff, not_true_iff_false.
    intros [Ht Hold]%old_at_spec.
    rewrite (in_window_old now2 ts window2) in Hin by assumption. discriminate.
Qed.

Lemma window_60 : 1 <= 60 <= 2 ^ 53.
Proof. split; discriminate. Qed.

(** C3: with limit 3 and a window of 60 seconds, four checks of a fresh
    identity in quick succession (at finite, non-decreasing readings, the
    fourth at most 59 seconds after the first) give true, true, true,
    false; a fifth check at a reading 60 seconds or more after the fourth,
    so also 61 seconds after it, gives true. *)
Theorem sliding_window_burst (st : gmap Z (list float)) (uid : Z)
  (t1 t2 t3 t4 t5 : float) :
  st !! uid = None ->
  Forall (fun t => finite_reading t = true) [t1; t2; t3; t4; t5] ->
  (float_value t1 <= float_value t2)%Q ->
  (float_value t2 <= float_value t3)%Q ->
  (float_value t3 <= float_value t4)%Q ->
  (float_value t4 - float_value t1 <= 59)%Q ->
  (60 <= float_value t5 - float_value t4)%Q ->
  fst (check_all [t1; t2; t3; t4; t5] uid 3 60 st)
  = [true; true; true; false; true].
Proof.
  intros Hfresh Hfin H12 H23 H34 H41 H54.
  apply Forall_cons_iff in Hfin as [F1 Hfin].
  apply Forall_cons_iff in Hfin as [F2 Hfin].
  apply Forall_cons_iff in Hfin as [F3 Hfin].
  apply Forall_cons_iff in Hfin as [F4 Hfin].
  apply Forall_cons_iff in Hfin as [F5 _].
  pose proof window_60 as Hw.
  assert (Hrecent : forall now ts,
             finite_reading now = true -> finite_reading ts = true ->
             (float_value now - float_value ts <= 59)%Q ->
             in_window now 60 ts = true).
  { intros now ts Hn Ht Hage. by apply in_window_recent. }
  assert (Hold : forall ts,
             finite_reading ts = true ->
             (60 <= float_value t5 - float_value ts)%Q ->
             in_window t5 60 ts = false).
  { intros ts Ht Hage. by apply in_window_old. }
  assert (E1 : check_rate_limit t1 uid 3 60 st = (true, <[uid := [t1]]> st)).
  { rewrite (check_rate_limit_on t1 uid 3 60 st [] []); [reflexivity| |reflexivity].
    unfold stored. by rewrite Hfresh. }
  set (s1 := <[uid := [t1]]> st) in *.
  assert (E2 : check_rate_limit t2 uid 3 60 s1 = (true, <[uid := [t1; t2]]> s1)).
  { rewrite (check_rate_limit_on t2 uid 3 60 s1 [t1] [t1]);
      [reflexivity | apply stored_insert |].
    rewrite !prune_cons, Hrecent by (done || lra). done. }
  set (s2 := <[uid := [t1; t2]]> s1) in *.
  assert (E3 : check_rate_limit t3 uid 3 60 s2 = (true, <[uid := [t1; t2; t3]]> s2)).
  { rewrite (check_rate_limit_on t3 uid 3 60 s2 [t1; t2] [t1; t2]);
      [reflexivity | apply stored_insert |].
    rewrite !prune_cons, !Hrecent by (done || lra). done. }
  set (s3 := <[uid := [t1; t2; t3]]> s2) in *.
  assert (E4 : check_rate_limit t4 uid 3 60 s3 = (false, <[uid := [t1; t2; t3]]> s3)).
  { rewrite (check_rate_limit_on t4 uid 3 60 s3 [t1; t2; t3] [t1; t2; t3]);
      [reflexivity | apply stored_insert |].
    rewrite !prune_cons, !Hrecent by (done || lra). done. }
  set (s4 := <[uid := [t1; t2; t3]]> s3) in *.
  assert (E5 : check_rate_limit t5 uid 3 60 s4 = (true, <[uid := [t5]]> s4)).
  { rewrite (check_rate_limit_on t5 uid 3 60 s4 [t1; t2; t3] []);
      [reflexivity | apply stored_insert |].
    rewrite !prune_cons, !Hold by (done || lra). done. }
  cbn [check_all]. rewrite E1, E2, E3, E4, E5. reflexivity.
Qed.

(** Four checks within two seconds at an epoch time, and one 61 seconds
    after the fourth. *)
Lemma sliding_window_burst_witness :
  fst (check_all [1762200000.25; 1762200000.25; 1762200001.5; 1762200002.125;
                  (1762200002.125 + 61)]%float 7 3 60 ∅)
  = [true; true; true; false; true].
Proof.
  apply sliding_window_burst.
  - reflexivity.
  - repeat constructor; vm_compute; reflexivity.
  - apply Qle_bool_iff. vm_compute. reflexivity.
  - apply Qle_bool_iff. vm_compute. reflexivity.
  - apply Qle_bool_iff. vm_compute. reflexivity.
  - apply Qle_bool_iff. vm_compute. reflexivity.
  - apply Qle_bool_iff. vm_compute. reflexivity.
Defined.

(** An admission that prunes: of the two stored timestamps, the one that
    is 120.125 seconds old is dropped and the one that is 20.25 seconds old is
    kept. *)
Lemma check_rate_limit_invariant_witness :
  let st := {[ 7 := [0.375; 100.25]%float ]} in
  let st' := snd (check_rate_limit 120.5%float 7 3 60 st) in
  check_rate_limit 120.5%float 7 3 60 st = (true, st')
  /\ py_len (stored 7 st') <= 3
  /\ ~ In 0.375%float (stored 7 st')
  /\ In 100.25%float (stored 7 st').
Proof.
  cbv zeta.
  assert (Hc : check_rate_limit 120.5%float 7 3 60 {[ 7 := [0.375; 100.25]%float ]}
               = (true, snd (check_rate_limit 120.5%float 7 3 60
                               {[ 7 := [0.375; 100.25]%float ]})))
    by (vm_compute; reflexivity).
  destruct (check_rate_limit_invariant 120.5%float 7 3 60
              {[ 7 := [0.375; 100.25]%float ]} _ Hc) as [Hlen Hchecks].
  split; [exact Hc|]. split; [exact Hlen|]. split.
  - apply (Hchecks 120.5%float 3 60 {[ 7 := [0.375; 100.25]%float ]}).
    + vm_compute. reflexivity.
    + exact window_60.
    + vm_compute. reflexivity.
    + apply Qle_bool_iff. vm_compute. reflexivity.
  - vm_compute. auto.
Defined.

Lemma check_rate_limit_reject_witness :
  fst (check_rate_limit 10.5%float 7 3 60 {[ 7 := [1; 2.25; 3.5]%float ]}) = false.
Proof.
  apply (check_rate_limit_reject 10.5%float 7 3 60 {[ 7 := [1; 2.25; 3.5]%float ]}).
  vm_compute. discriminate.
Defined.

Lemma check_rate_limit_nonpositive_witness :
  fst (check_rate_limit 10.5%float 7 0 60 {[ 7 := [1; 2.25; 3.5]%float ]}) = false.
Proof. apply check_rate_limit_nonpositive. lia. Defined.

(** ** Delivery formatter *)

(** Substituting the empty string for a class removes its characters. *)
Lemma re_sub_class_remove (class text : str) :
  re_sub_class class [] text
  = List.filter (fun c => negb (in_class class c)) text.
Proof.
  induction text as [|c rest IH]; simpl; [done|].
  destruct (in_class class c); simpl; by rewrite IH.
Qed.

Lemma re_sub_class_clean (class text : str) (c : ascii) :
  In c (re_sub_class class [] text) -> in_class class c = false.
Proof.
  rewrite re_sub_class_remove, filter_In, negb_true_iff. tauto.
Qed.

Section DeliveryFacts.
Context {M : Type}.
Implicit Types (respond : list (send_call M) -> send_call M -> result unit)
  (chat : Z) (txt : str) (markup : option M).

Lemma send_first_ok respond chat txt markup :
  respond [] (attempt1 chat txt markup) = Ok tt ->
  send_markdown respond chat txt markup
  = (Ok true, [attempt1 chat txt markup]).
Proof.
  intros H1. unfold send_markdown, safe_send_message, stub.
  fold (attempt1 chat txt markup). by rewrite H1.
Qed.

Lemma send_second_ok respond chat txt markup :
  respond [] (attempt1 chat txt markup) = Raise BadRequest ->
  respond [attempt1 chat txt markup] (attempt2 chat txt markup) = Ok tt ->
  send_markdown respond chat txt markup
  = (Ok true, [attempt1 chat txt markup; attempt2 chat txt markup]).
Proof.
  intros H1 H2. unfold send_markdown, safe_send_message, stub.
  fold (attempt1 chat txt markup). rewrite H1.
  change (is_markdown markdown) with true. cbv beta iota zeta.
  change ([] ++ [attempt1 chat txt markup]) with [attempt1 chat txt markup].
  fold (attempt2 chat txt markup). by rewrite H2.
Qed.

Lemma send_third respond chat txt markup (o : result unit) :
  respond [] (attempt1 chat txt markup) = Raise BadRequest ->
  respond [attempt1 chat txt markup] (attempt2 chat txt markup)
    = Raise BadRequest ->
  respond [attempt1 chat txt markup; attempt2 chat txt markup]
          (attempt3 chat txt markup) = o ->
  send_markdown respond chat txt markup
  = (Ok (match o with Ok _ => true | Raise _ => false end),
     [attempt1 chat txt markup; attempt2 chat txt markup;
      attempt3 chat txt markup]).
Proof.
  intros H1 H2 H3. unfold send_markdown, safe_send_message, stub.
  fold (attempt1 chat txt markup). rewrite H1.
  change (is_markdown markdown) with true. cbv beta iota zeta.
  change ([] ++ [attempt1 chat txt markup]) with [attempt1 chat txt markup].
  fold (attempt2 chat txt markup). rewrite H2.
  unfold send_plain. rewrite re_sub_class_remove.
  change (Build_send_call chat _ Omitted markup)
    with (attempt3 chat txt markup).
  change ([attempt1 chat txt markup] ++ [attempt2 chat txt markup])
    with [attempt1 chat txt markup; attempt2 chat txt markup].
  rewrite H3. by destruct o as [[]|e].
Qed.

(** C4: when the transport rejects the first two attempts as badly
    formatted and accepts the third, a Markdown message is delivered in
    exactly three calls: the text as given in Markdown, the sanitized text
    in MarkdownV2, and last, without any parse mode, the text with the
    characters [* _ ` [ ] ( )] removed. *)
Theorem safe_send_message_fallback respond chat txt markup :
  (forall c, respond [] c = Raise BadRequest) ->
  (forall c1 c, respond [c1] c = Raise BadRequest) ->
  (forall c1 c2 c, respond [c1; c2] c = Ok tt) ->
  send_markdown respond chat txt markup
  = (Ok true,
     [ {| chat_id := chat; text := txt;
          parse_mode := Passed (Some (lit "Markdown"));
          reply_markup := markup |};
       {| chat_id := chat; text := sanitize_markdown txt;
          parse_mode := Passed (Some (lit "MarkdownV2"));
          reply_markup := markup |};
       {| chat_id := chat;
          text := List.filter
                    (fun c => negb (existsb (Ascii.eqb c)
                       ["*"; "_"; "`"; "["; "]"; "("; ")"]%char)) txt;
          parse_mode := Omitted;
          reply_markup := markup |} ]).
Proof.
  intros H1 H2 H3.
  rewrite (send_third respond chat txt markup (Ok tt)); auto.
Qed.

(** C5: for a Markdown message, if the transport rejects the first two
    attempts as badly formatted and fails the plain attempt in any way,
    the result is false after exactly three calls; and the result is true,
    with no further call, as soon as an attempt succeeds, be it the first,
    the second or the third. *)
Theorem safe_send_message_outcome respond chat txt markup :
  let run := send_markdown respond chat txt markup in
  ((forall c, respond [] c = Raise BadRequest) ->
   (forall c1 c, respond [c1] c = Raise BadRequest) ->
   (forall c1 c2 c, exists e, respond [c1; c2] c = Raise e) ->
   fst run = Ok false /\ length (snd run) = 3%nat)
  /\ ((forall c, respond [] c = Ok tt) ->
      fst run = Ok true /\ length (snd run) = 1%nat)
  /\ ((forall c, respond [] c = Raise BadRequest) ->
      (forall c1 c, respond [c1] c = Ok tt) ->
      fst run = Ok true /\ length (snd run) = 2%nat)
  /\ ((forall c, respond [] c = Raise BadRequest) ->
      (forall c1 c, respond [c1] c = Raise BadRequest) ->
      (forall c1 c2 c, respond [c1; c2] c = Ok tt) ->
      fst run = Ok true /\ length (snd run) = 3%nat).
Proof.
  cbv zeta. repeat split.
  - destruct (H1 (attempt1 chat txt markup) (attempt2 chat txt markup)
                 (attempt3 chat txt markup)) as [e He].
    by rewrite (send_third respond chat txt markup (Raise e)).
  - destruct (H1 (attempt1 chat txt markup) (attempt2 chat txt markup)
                 (attempt3 chat txt markup)) as [e He].
    by rewrite (send_third respond chat txt markup (Raise e)).
  - by rewrite send_first_ok.
  - by rewrite send_first_ok.
  - by rewrite send_second_ok.
  - by rewrite send_second_ok.
  - by rewrite (send_third respond chat txt markup (Ok tt)).
  - by rewrite (send_third respond chat txt markup (Ok tt)).
Qed.
End DeliveryFacts.

Lemma safe_send_message_fallback_witness :
  send_markdown (M := unit)
    (scripted [Raise BadRequest; Raise BadRequest; Ok tt])
    5 (lit "a*b_c (d) [e] `f`") None
  = (Ok true,
     [ Build_send_call 5 (lit "a*b_c (d) [e] `f`")
         (Passed (Some (lit "Markdown"))) None;
       Build_send_call 5 (lit "a\*b\_c \(d\) \[e\] \`f\`")
         (Passed (Some (lit "MarkdownV2"))) None;
       Build_send_call 5 (lit "abc d e f") Omitted None ]).
Proof.
  apply (safe_send_message_fallback (M := unit)
           (scripted [Raise BadRequest; Raise BadRequest; Ok tt])
           5 (lit "a*b_c (d) [e] `f`") None).
  - intros c. reflexivity.
  - intros c1 c. reflexivity.
  - intros c1 c2 c. reflexivity.
Defined.

Lemma safe_send_message_outcome_witness :
  (fst (send_markdown (M := unit)
          (scripted [Raise BadRequest; Raise BadRequest; Raise OtherError])
          5 (lit "*hi*") None) = Ok false
   /\ length (snd (send_markdown (M := unit)
          (scripted [Raise BadRequest; Raise BadRequest; Raise OtherError])
          5 (lit "*hi*") None)) = 3%nat)
  /\ (fst (send_markdown (M := unit) (scripted [Ok tt]) 5 (lit "*hi*") None)
      = Ok true
      /\ length (snd (send_markdown (M := unit) (scripted [Ok tt])
                        5 (lit "*hi*") None)) = 1%nat)
  /\ (fst (send_markdown (M := unit) (scripted [Raise BadRequest; Ok tt])
             5 (lit "*hi*") None) = Ok true
      /\ length (snd (send_markdown (M := unit)
                        (scripted [Raise BadRequest; Ok tt])
                        5 (lit "*hi*") None)) = 2%nat)
  /\ (fst (send_markdown (M := unit)
             (scripted [Raise BadRequest; Raise BadRequest; Ok tt])
             5 (lit "*hi*") None) = Ok true
      /\ length (snd (send_markdown (M := unit)
                        (scripted [Raise BadRequest; Raise BadRequest; Ok tt])
                        5 (lit "*hi*") None)) = 3%nat).
Proof.
  split; [|split; [|split]].
  - apply (safe_send_message_outcome (M := unit)
             (scripted [Raise BadRequest; Raise BadRequest; Raise OtherError])
             5 (lit "*hi*") None).
    + intros c. reflexivity.
    + intros c1 c. reflexivity.
    + intros c1 c2 c. exists OtherError. reflexivity.
  - apply (safe_send_message_outcome (M := unit) (scripted [Ok tt])
             5 (lit "*hi*") None).
    intros c. reflexivity.
  - apply (safe_send_message_outcome (M := unit)
             (scripted [Raise BadRequest; Ok tt]) 5 (lit "*hi*") None).
    + intros c. reflexivity.
    + intros c1 c. reflexivity.
  - apply (safe_send_message_outcome (M := unit)
             (scripted [Raise BadRequest; Raise BadRequest; Ok tt])
             5 (lit "*hi*") None).
    + intros c. reflexivity.
    + intros c1 c. reflexivity.
    + intros c1 c2 c. reflexivity.
Defined.

(** ** Text segmenter *)

(** C10: the empty text is returned as the single chunk [""]. *)
Theorem split_message_empty (max_length : Z) :
  1 <= max_length -> split_message [] max_length = Ok [[]].
Proof.
  intros Hpos. unfold split_message.
  change (py_len []) with 0.
  destruct (0 <=? max_length) eqn:E; [reflexivity | lia].
Qed.

Lemma split_message_empty_witness : split_message [] 4000 = Ok [[]].
Proof. apply split_message_empty. lia. Defined.

(** C9: ten thousand ['a'] with [max_length = 4000] come back as three raw
    slices of 4000, 4000 and 2000 characters. *)
Theorem split_message_raw_slices :
  split_message (py_repeat "a" 10000) 4000
  = Ok [py_repeat "a" 4000; py_repeat "a" 4000; py_repeat "a" 2000]
  /\ map py_len [py_repeat "a" 4000; py_repeat "a" 4000; py_repeat "a" 2000]
     = [4000; 4000; 2000].
Proof. split; vm_compute; reflexivity. Qed.

(** C1, at a failing input: the text ["a\n\nbbbbbbbbbb"] with
    [max_length = 5] comes back with the ten-character paragraph as one
    chunk.  A paragraph that closes a non-empty chunk becomes the new
    current chunk without its length being looked at. *)
Theorem split_message_oversized_chunk :
  split_message (lit "a" ++ [newline; newline] ++ lit "bbbbbbbbbb") 5
  = Ok [lit "a"; lit "bbbbbbbbbb"]
  /\ ~ Forall (fun chunk => py_len chunk <= 5) [lit "a"; lit "bbbbbbbbbb"].
Proof.
  split; [reflexivity|].
  intros Hall. apply Forall_cons_iff in Hall as [_ Hall].
  apply Forall_cons_iff in Hall as [Hlen _].
  vm_compute in Hlen. by apply Hlen.
Qed.

(** *** [split] and [join] are inverse *)

Lemma skipn_nil_any {A} (n : nat) : skipn n (@nil A) = [].
Proof. by destruct n. Qed.

(** Passing over [skip] pending characters is dropping them. *)
Lemma split_scan_skip (sep : str) (skip : nat) (s : str) :
  split_scan sep skip s = split_scan sep O (skipn skip s).
Proof.
  revert skip. induction s as [|c s IH]; intros skip.
  - by rewrite skipn_nil_any.
  - destruct skip as [|k]; [done|]. simpl. apply IH.
Qed.

Lemma starts_with_app (sep s : str) :
  starts_with sep s = true -> s = sep ++ skipn (length sep) s.
Proof.
  revert s. induction sep as [|a sep IH]; intros s Hs; [done|].
  destruct s as [|b s]; [done|]. simpl in Hs.
  apply andb_true_iff in Hs as [Hab Hrest].
  apply Ascii.eqb_eq in Hab as ->. simpl. f_equal. by apply IH.
Qed.

(** The scan, one step at a time. *)
Lemma split_cons (sep : str) (c : ascii) (s : str) :
  sep <> [] ->
  split (c :: s) sep =
    if starts_with sep (c :: s)
    then [] :: split (skipn (length sep) (c :: s)) sep
    else push_front c (split s sep).
Proof.
  intros Hsep. unfold split. simpl.
  destruct sep as [|a sep]; [done|].
  destruct (starts_with (a :: sep) (c :: s)); [|done].
  simpl. f_equal. apply split_scan_skip.
Qed.

Lemma split_scan_nonempty (sep : str) (skip : nat) (s : str) :
  split_scan sep skip s <> [].
Proof.
  revert skip. induction s as [|c s IH]; intros skip; simpl; [done|].
  destruct skip; [|apply IH].
  destruct (starts_with sep (c :: s)); [done|].
  specialize (IH O). by destruct (split_scan sep O s).
Qed.

Lemma split_nonempty (s sep : str) : split s sep <> [].
Proof. apply split_scan_nonempty. Qed.

Lemma join_cons (sep p : str) (parts : list str) :
  parts <> [] -> join sep (p :: parts) = p ++ sep ++ join sep parts.
Proof. by destruct parts. Qed.

Lemma join_push_front (sep : str) (c : ascii) (parts : list str) :
  parts <> [] -> join sep (push_front c parts) = c :: join sep parts.
Proof. destruct parts as [|p [|q parts]]; done. Qed.

Lemma join_split_len (sep : str) (n : nat) :
  sep <> [] -> forall s, (length s <= n)%nat -> join sep (split s sep) = s.
Proof.
  intros Hsep. induction n as [|n IH]; intros s Hlen.
  - destruct s; [done | simpl in Hlen; lia].
  - destruct s as [|c s]; [done|].
    rewrite split_cons by done.
    destruct (starts_with sep (c :: s)) eqn:E.
    + rewrite join_cons by apply split_nonempty.
      rewrite IH.
      * symmetry. by apply starts_with_app.
      * destruct sep as [|a sep]; [done|]. simpl in *.
        rewrite length_skipn. lia.
    + rewrite join_push_front by apply split_nonempty.
      f_equal. apply IH. simpl in Hlen. lia.
Qed.

(** [sep.join(s.split(sep)) == s]. *)
Lemma join_split (s sep : str) : sep <> [] -> join sep (split s sep) = s.
Proof. intros Hsep. by apply (join_split_len sep (length s)). Qed.

(** Gluing two neighbours with the separator does not change the join. *)
Lemma join_glue (sep a b : str) (l r : list str) :
  join sep (l ++ (a ++ sep ++ b) :: r) = join sep (l ++ a :: b :: r).
Proof.
  induction l as [|y l IH].
  - simpl. destruct r as [|x r]; [done|].
    by rewrite <- !app_assoc.
  - rewrite <- !app_comm_cons.
    rewrite !join_cons by (by destruct l). by rewrite IH.
Qed.

(** *** The paragraph tier *)

Lemma truthy_true (s : str) : s <> [] -> truthy s = true.
Proof. by destruct s. Qed.

(** Once the current chunk is not empty, non-empty paragraphs are only
    ever glued to it or made the next chunk: the loop ends with a non-empty
    current chunk, and the chunks joined by the separator are the old ones
    followed by the paragraphs, joined the same way. *)
Lemma paragraph_loop_join (max_length : Z) (paragraphs : list str) :
  Forall (fun p => p <> []) paragraphs ->
  forall (chunks : list str) (current_chunk : str),
    current_chunk <> [] ->
    exists chunks' current_chunk',
      for_each (paragraph_body max_length) paragraphs (chunks, current_chunk)
        = Ok (chunks', current_chunk')
      /\ current_chunk' <> []
      /\ join paragraph_sep (chunks' ++ [current_chunk'])
         = join paragraph_sep (chunks ++ current_chunk :: paragraphs).
Proof.
  induction 1 as [|p ps Hp Hps IH]; intros chunks cur Hcur.
  - exists chunks, cur. by simpl.
  - simpl. rewrite (truthy_true cur Hcur).
    destruct (_ >? _).
    + simpl. destruct (IH (chunks ++ [cur]) p Hp) as (cs & c & Hrun & Hc & Hjoin).
      exists cs, c. split; [done|]. split; [done|].
      by rewrite Hjoin, <- app_assoc.
    + simpl.
      assert (Hglued : cur ++ paragraph_sep ++ p <> []) by (by destruct cur).
      destruct (IH chunks _ Hglued) as (cs & c & Hrun & Hc & Hjoin).
      exists cs, c. split; [done|]. split; [done|].
      by rewrite Hjoin, join_glue.
Qed.

Lemma paragraph_body_first (max_length : Z) (p : str) :
  py_len p + 2 <= max_length ->
  paragraph_body max_length ([], []) p = Ok ([], p).
Proof.
  intros Hfit. unfold paragraph_body.
  change (py_len (@nil ascii)) with 0.
  destruct (0 + py_len p + 2 >? max_length) eqn:E; [lia | done].
Qed.

(** Texts that the paragraph tier alone handles: no paragraph is empty and
    the first one leaves room for a separator. *)
Lemma split_message_paragraph_tier (text : str) (max_length : Z) :
  Forall (fun p => p <> []) (split text paragraph_sep) ->
  (forall p rest, split text paragraph_sep = p :: rest ->
                  py_len p + 2 <= max_length) ->
  exists chunks,
    split_message text max_length = Ok chunks
    /\ join paragraph_sep chunks = text.
Proof.
  intros Hne Hfit. unfold split_message.
  destruct (py_len text <=? max_length); [by exists [text]|].
  cbv zeta.
  pose proof (join_split text paragraph_sep) as Hjs.
  destruct (split text paragraph_sep) as [|p ps] eqn:Hsplit.
  { by destruct (split_nonempty text paragraph_sep). }
  specialize (Hfit p ps eq_refl).
  apply Forall_cons_iff in Hne as [Hp Hps].
  cbn [for_each]. rewrite (paragraph_body_first max_length p Hfit).
  cbn [bind].
  destruct (paragraph_loop_join max_length ps Hps [] p Hp)
    as (cs & c & Hrun & Hc & Hjoin).
  rewrite Hrun. cbn [bind]. rewrite (truthy_true c Hc).
  exists (cs ++ [c]). split; [done|].
  rewrite Hjoin. simpl app. by apply Hjs.
Qed.

(** C2, amended: when the text fits in [max_length], or when every
    paragraph of the text (the pieces between blank lines) is non-empty and
    at most [max_length - 2] characters long, the chunks joined by a blank
    line are the text. *)
Theorem split_message_roundtrip (text : str) (max_length : Z) :
  py_len text <= max_length
  \/ Forall (fun p => p <> [] /\ py_len p + 2 <= max_length)
            (split text [newline; newline]) ->
  exists chunks,
    split_message text max_length = Ok chunks
    /\ join [newline; newline] chunks = text.
Proof.
  intros [Hshort | Hall].
  - exists [text]. unfold split_message.
    destruct (py_len text <=? max_length) eqn:E; [done | lia].
  - apply split_message_paragraph_tier.
    + eapply Forall_impl; [exact Hall|]. by intros p [Hp _].
    + intros p rest Hsplit. fold paragraph_sep in Hall. rewrite Hsplit in Hall.
      by apply Forall_cons_iff in Hall as [[_ Hfit] _].
Qed.

Lemma split_message_roundtrip_witness :
  exists chunks,
    split_message (lit "one" ++ [newline; newline] ++ lit "two"
                   ++ [newline; newline] ++ lit "three") 10 = Ok chunks
    /\ join [newline; newline] chunks
       = lit "one" ++ [newline; newline] ++ lit "two"
         ++ [newline; newline] ++ lit "three".
Proof.
  apply split_message_roundtrip. right.
  repeat constructor; try discriminate; vm_compute; discriminate.
Defined.

Lemma join_with_length (chunks : list str) (seps : list str) :
  (length (concat chunks) <= length (join_with seps chunks))%nat.
Proof.
  revert seps. induction chunks as [|c [|d rest] IH]; intros seps.
  - done.
  - simpl. rewrite app_nil_r. lia.
  - change (concat (c :: d :: rest)) with (c ++ concat (d :: rest)).
    destruct seps as [|s seps'].
    + change (join_with [] (c :: d :: rest)) with (c ++ join_with [] (d :: rest)).
      rewrite !length_app. specialize (IH []). lia.
    + change (join_with (s :: seps') (c :: d :: rest))
        with (c ++ s ++ join_with seps' (d :: rest)).
      rewrite !length_app. specialize (IH seps'). lia.
Qed.

(** C2 as stated fails in the sentence tier: the one-paragraph text
    ["aaa. bbb. ccc"], three short sentences, with [max_length = 6] gives
    the chunks ["aaa. "], ["bbb. "], ["ccc. "].  The last sentence has been
    given a separator the text does not have, so the chunks are longer
    than the text and no choice of separators between them gives it back. *)
Lemma split_message_sentence_tier_lossy :
  split_message (lit "aaa. bbb. ccc") 6
  = Ok [lit "aaa. "; lit "bbb. "; lit "ccc. "]
  /\ Forall (fun s => py_len s + 2 <= 6) (split (lit "aaa. bbb. ccc") (lit ". "))
  /\ forall seps,
       join_with seps [lit "aaa. "; lit "bbb. "; lit "ccc. "]
       <> lit "aaa. bbb. ccc".
Proof.
  split; [reflexivity|]. split.
  - repeat constructor; vm_compute; discriminate.
  - intros seps Heq.
    pose proof (join_with_length [lit "aaa. "; lit "bbb. "; lit "ccc. "] seps) as Hlen.
    rewrite Heq in Hlen. vm_compute in Hlen. lia.
Qed.

(** An empty paragraph is lost when the current chunk is empty: the blank
    line that opens ["\n\nabc\n\ndef"] is not in the chunks. *)
Example split_message_drops_leading_blank :
  split_message ([newline; newline] ++ lit "abc" ++ [newline; newline]
                 ++ lit "def") 6
  = Ok [lit "abc"; lit "def"].
Proof. reflexivity. Qed.

(** *** The sentence tier *)

Lemma py_len_sentence_sep : py_len sentence_sep = 2.
Proof. reflexivity. Qed.

(** With sentences that fit, the inner loop never reaches the raw split:
    it only closes chunks and extends the current one, every sentence
    getting the separator behind it. *)
Lemma sentence_loop_concat (paragraph : str) (max_length : Z)
  (sentences : list str) :
  Forall (fun s => py_len s + 2 <= max_length) sentences ->
  forall (chunks : list str) (current_chunk : str),
    Forall (bounded max_length) (chunks ++ [current_chunk]) ->
    exists chunks' current_chunk',
      for_each (sentence_body paragraph max_length) sentences
               (chunks, current_chunk) = Ok (chunks', current_chunk')
      /\ concat (chunks' ++ [current_chunk'])
         = concat (chunks ++ [current_chunk])
           ++ concat (map (fun s => s ++ sentence_sep) sentences)
      /\ Forall (bounded max_length) (chunks' ++ [current_chunk'])
      /\ (sentences <> [] -> current_chunk' <> []).
Proof.
  induction 1 as [|s ss Hs Hss IH]; intros chunks cur Hb.
  - exists chunks, cur. simpl. by rewrite app_nil_r.
  - cbn [for_each]. unfold sentence_body at 1.
    assert (Hnew : bounded max_length (s ++ sentence_sep)).
    { unfold bounded. rewrite py_len_app, py_len_sentence_sep. lia. }
    destruct (py_len cur + py_len s + 2 >? max_length) eqn:E.
    + destruct cur as [|c cur].
      { change (py_len (@nil ascii)) with 0 in E. lia. }
      cbn [truthy bind].
      destruct (IH (chunks ++ [c :: cur]) (s ++ sentence_sep))
        as (cs & c' & Hrun & Hcat & Hbd & Hne).
      { apply Forall_app. split; [done | by constructor]. }
      exists cs, c'. split; [done|]. split; [|split; [done|]].
      * rewrite Hcat. cbn [map concat]. rewrite !concat_app. simpl.
        rewrite !app_nil_r. by rewrite <- !app_assoc.
      * intros _. destruct ss as [|s' ss'].
        -- simpl in Hrun. injection Hrun as <- <-. by destruct s.
        -- by apply Hne.
    + cbn [bind].
      destruct (IH chunks (cur ++ s ++ sentence_sep))
        as (cs & c' & Hrun & Hcat & Hbd & Hne).
      { apply Forall_app in Hb as [Hb1 Hb2]. apply Forall_app. split; [done|].
        constructor; [|done]. unfold bounded.
        rewrite !py_len_app, py_len_sentence_sep. lia. }
      exists cs, c'. split; [done|]. split; [|split; [done|]].
      * rewrite Hcat. cbn [map concat]. rewrite !concat_app. simpl.
        rewrite !app_nil_r. by rewrite <- !app_assoc.
      * intros _. destruct ss as [|s' ss'].
        -- simpl in Hrun. injection Hrun as <- <-.
           destruct cur; [by destruct s | done].
        -- by apply Hne.
Qed.

Lemma concat_suffixed (sep : str) (parts : list str) :
  parts <> [] ->
  concat (map (fun s => s ++ sep) parts) = join sep parts ++ sep.
Proof.
  induction parts as [|p parts IH]; [done|]. intros _.
  destruct parts as [|q parts]; simpl.
  - by rewrite app_nil_r.
  - simpl in IH. rewrite IH by done. by rewrite <- !app_assoc.
Qed.

(** X13: what the sentence tier returns: for a text of one paragraph that is
    longer than [max_length] and whose sentences all fit, every chunk is
    within [max_length], and the chunks laid end to end are the text with
    one more [". "] behind it. *)
Lemma split_message_sentence_tier (text : str) (max_length : Z) :
  max_length < py_len text ->
  split text paragraph_sep = [text] ->
  Forall (fun s => py_len s + 2 <= max_length) (split text sentence_sep) ->
  exists chunks,
    split_message text max_length = Ok chunks
    /\ concat chunks = text ++ sentence_sep
    /\ Forall (bounded max_length) chunks.
Proof.
  intros Hlong Hone Hfit. unfold split_message.
  destruct (py_len text <=? max_length) eqn:E; [lia|].
  cbv zeta. rewrite Hone. cbn [for_each]. unfold paragraph_body.
  change (py_len (@nil ascii)) with 0.
  destruct (0 + py_len text + 2 >? max_length) eqn:E2; [|lia].
  cbn [truthy].
  assert (Hfirst : Forall (bounded max_length) ([] ++ [@nil ascii])).
  { repeat constructor. unfold bounded. change (py_len (@nil ascii)) with 0.
    pose proof (split_nonempty text sentence_sep) as Hne.
    destruct (split text sentence_sep) as [|s ss]; [done|].
    apply Forall_cons_iff in Hfit as [Hs _].
    pose proof (py_len_nonneg s). lia. }
  destruct (sentence_loop_concat text max_length _ Hfit [] [] Hfirst)
    as (cs & c & Hrun & Hcat & Hbd & Hne).
  rewrite Hrun. cbn [bind].
  rewrite (truthy_true c (Hne (split_nonempty text sentence_sep))).
  exists (cs ++ [c]). split; [done|]. split; [|done].
  rewrite Hcat. simpl.
  rewrite concat_suffixed by apply split_nonempty.
  rewrite join_split; [done | discriminate].
Qed.

(** * Further properties of the modelled code *)

(** ** [safe_send_message] on every path *)

Lemma str_eqb_eq (a b : str) : str_eqb a b = true <-> a = b.
Proof.
  revert b. induction a as [|x a IH]; intros [|y b]; simpl; try done.
  rewrite andb_true_iff, Ascii.eqb_eq, IH. split.
  - by intros [-> ->].
  - intros [= -> ->]. done.
Qed.

Lemma is_markdown_true (mode : option str) :
  is_markdown mode = true <-> mode = Some (lit "Markdown").
Proof.
  destruct mode as [m|]; simpl; [|done].
  rewrite str_eqb_eq. split; [by intros -> | by intros [= ->]].
Qed.

(** Case analysis on the answers of the stub met in the goal. *)
Ltac answer_cases :=
  repeat match goal with
    | |- context [match ?respond ?l ?c with Ok _ => _ | Raise _ => _ end] =>
        let E := fresh "Hans" in
        destruct (respond l c) as [[]|[]] eqn:E; cbn beta iota
    end.

Ltac use_answers :=
  repeat match goal with
    | H : ?respond ?l ?c = _ |- context [?respond ?l ?c] => rewrite H
    end.

Section SendPaths.
Context {M : Type}.
Implicit Types (respond : list (send_call M) -> send_call M -> result unit)
  (chat : Z) (txt : str) (mode : option str) (markup : option M).

(** X1: every run makes at most three calls; each call but the last was
    answered with [BadRequest]; and the result is true exactly when the
    last call was accepted.  So a successful run has one accepted call, its
    last, and no call follows an answer other than [BadRequest]. *)
Theorem run_send_shape respond (effective_chat : option Z) txt mode markup :
  let run := run_send respond effective_chat txt mode markup in
  (length (snd run) <= 3)%nat
  /\ removelast (responses respond (snd run))
     = repeat (Raise BadRequest) (Nat.pred (length (snd run)))
  /\ (fst run = Ok true
      <-> last (responses respond (snd run)) = Some (Ok tt)).
Proof.
  cbv zeta. unfold run_send, safe_send_message, send_plain, stub, responses.
  destruct effective_chat as [chat|];
    [|simpl; repeat split; (lia || done)].
  destruct (is_markdown mode); answer_cases; simpl in *; use_answers; simpl;
    repeat split; try (lia || done).
Qed.

(** X2: without an effective chat nothing is sent and the result is false.
    With one, the first call carries the text and the parse mode as given,
    and every call goes to that chat with the reply markup as given. *)
Theorem run_send_destination respond (effective_chat : option Z) txt mode markup :
  match effective_chat with
  | None => run_send respond None txt mode markup = (Ok false, [])
  | Some chat =>
      exists rest,
        snd (run_send respond (Some chat) txt mode markup)
        = {| chat_id := chat; text := txt; parse_mode := Passed mode;
             reply_markup := markup |} :: rest
        /\ Forall (fun c => chat_id c = chat /\ reply_markup c = markup) rest
  end.
Proof.
  destruct effective_chat as [chat|]; [|done].
  unfold run_send, safe_send_message, send_plain, stub.
  destruct (is_markdown mode); answer_cases; simpl;
    eexists; (split; [reflexivity|]); repeat constructor.
Qed.

(** X3: with a parse mode other than ["Markdown"] (or none) the sanitized
    MarkdownV2 attempt is left out: after a [BadRequest] on the first call
    the plain attempt follows at once, and the run has two calls. *)
Theorem run_send_not_markdown respond chat txt mode markup :
  mode <> Some (lit "Markdown") ->
  let first := {| chat_id := chat; text := txt; parse_mode := Passed mode;
                  reply_markup := markup |} in
  let plain := {| chat_id := chat; text := re_sub_class markup_class [] txt;
                  parse_mode := Omitted; reply_markup := markup |} in
  respond [] first = Raise BadRequest ->
  run_send respond (Some chat) txt mode markup
  = (Ok (match respond [first] plain with Ok _ => true | Raise _ => false end),
     [first; plain]).
Proof.
  intros Hmode first plain Hfirst.
  assert (Hm : is_markdown mode = false).
  { destruct (is_markdown mode) eqn:E; [|done].
    by apply is_markdown_true in E. }
  unfold run_send, safe_send_message, send_plain, stub.
  fold first. rewrite Hfirst, Hm. cbn beta iota zeta.
  change ([] ++ [first]) with [first]. fold plain.
  by destruct (respond [first] plain) as [[]|e].
Qed.

(** X4: an exception leaves [safe_send_message] only when the transport raised
    it, on the last call made; it is never [BadRequest], and that call was
    the first or the second attempt, never the plain one. *)
Theorem run_send_raises respond (effective_chat : option Z) txt mode markup e :
  fst (run_send respond effective_chat txt mode markup) = Raise e ->
  e <> BadRequest
  /\ last (responses respond
             (snd (run_send respond effective_chat txt mode markup)))
     = Some (Raise e)
  /\ (length (snd (run_send respond effective_chat txt mode markup)) <= 2)%nat
  /\ Forall (fun c => parse_mode c <> Omitted)
            (snd (run_send respond effective_chat txt mode markup)).
Proof.
  unfold run_send, safe_send_message, send_plain, stub, responses.
  destruct effective_chat as [chat|]; [|done].
  destruct (is_markdown mode); answer_cases; simpl in *; try done;
    use_answers; intros [= <-]; simpl;
    (split; [done|]); (split; [done|]); (split; [lia|]);
    repeat constructor; done.
Qed.
End SendPaths.

Lemma run_send_not_markdown_witness :
  run_send (M := unit) (scripted [Raise BadRequest; Ok tt])
           (Some 5) (lit "<b>hi_there</b>") (Some (lit "HTML")) None
  = (Ok true,
     [ Build_send_call 5 (lit "<b>hi_there</b>") (Passed (Some (lit "HTML"))) None;
       Build_send_call 5 (lit "<b>hithere</b>") Omitted None ]).
Proof.
  apply (run_send_not_markdown (M := unit) (scripted [Raise BadRequest; Ok tt])
           5 (lit "<b>hi_there</b>") (Some (lit "HTML")) None).
  - discriminate.
  - reflexivity.
Defined.

Lemma run_send_raises_witness :
  OtherError <> BadRequest
  /\ last (responses (M := unit) (scripted [Raise BadRequest; Raise OtherError])
             (snd (run_send (scripted [Raise BadRequest; Raise OtherError])
                            (Some 5%Z) (lit "*hi*") (Some (lit "Markdown")) None)))
     = Some (Raise OtherError)
  /\ (length (snd (run_send (M := unit)
                     (scripted [Raise BadRequest; Raise OtherError])
                     (Some 5%Z) (lit "*hi*") (Some (lit "Markdown")) None)) <= 2)%nat
  /\ Forall (fun c => parse_mode c <> Omitted)
            (snd (run_send (M := unit)
                     (scripted [Raise BadRequest; Raise OtherError])
                     (Some 5%Z) (lit "*hi*") (Some (lit "Markdown")) None)).
Proof.
  apply (run_send_raises (M := unit) (scripted [Raise BadRequest; Raise OtherError])
           (Some 5%Z) (lit "*hi*") (Some (lit "Markdown")) None OtherError).
  reflexivity.
Defined.

(** ** [sanitize_markdown] *)

Lemma in_class_app (r1 r2 : str) (c : ascii) :
  in_class (r1 ++ r2) c = in_class r1 c || in_class r2 c.
Proof. unfold in_class. apply existsb_app. Qed.

Lemma in_class_In (r : str) (c : ascii) : in_class r c = true <-> In c r.
Proof.
  unfold in_class. rewrite existsb_exists. split.
  - intros (x & Hx & Heq). apply Ascii.eqb_eq in Heq. by subst.
  - intros Hin. exists c. split; [done | apply Ascii.eqb_refl].
Qed.

Lemma replace_char_app (t1 t2 : str) (old : ascii) (new : str) :
  replace_char (t1 ++ t2) old new
  = replace_char t1 old new ++ replace_char t2 old new.
Proof. unfold replace_char. apply flat_map_app. Qed.

(** One more [replace] on a text escaped for [done] escapes it for
    [done ++ [ch]]: the backslashes written so far are not touched. *)
Lemma replace_after_escape (done : str) (ch : ascii) (text : str) :
  in_class done ch = false -> ch <> backslash ->
  replace_char (flat_map (escape_one done) text) ch [backslash; ch]
  = flat_map (escape_one (done ++ [ch])) text.
Proof.
  intros Hnew Hbs. induction text as [|c text IH]; [done|].
  cbn [flat_map]. rewrite replace_char_app, IH. f_equal.
  unfold escape_one. rewrite in_class_app.
  destruct (in_class done c) eqn:Hc; unfold replace_char;
    cbn [flat_map app orb in_class existsb].
  - destruct (Ascii.eqb_spec backslash ch) as [Heq|_]; [by subst|].
    destruct (Ascii.eqb_spec c ch) as [Heq|_]; [|done].
    subst. congruence.
  - rewrite orb_false_r, app_nil_r.
    by destruct (Ascii.eqb_spec c ch) as [->|_].
Qed.

Lemma replace_loop_escape (todo done text : str) :
  NoDup (done ++ todo) -> ~ In backslash todo ->
  fold_left (fun text char => replace_char text char [backslash; char])
            todo (flat_map (escape_one done) text)
  = flat_map (escape_one (done ++ todo)) text.
Proof.
  revert done. induction todo as [|ch todo IH]; intros done Hnd Hbs.
  - by rewrite app_nil_r.
  - cbn [fold_left]. rewrite replace_after_escape.
    + rewrite IH.
      * by rewrite <- app_assoc.
      * by rewrite <- app_assoc.
      * intros Hin. apply Hbs. by right.
    + apply NoDup_app in Hnd as (_ & Hdisj & _).
      destruct (in_class done ch) eqn:E; [|done].
      apply in_class_In in E. exfalso.
      apply (Hdisj ch); [by apply list_elem_of_In | left].
    + intros ->. apply Hbs. by left.
Qed.

Lemma escape_chars_distinct : NoDup escape_chars.
Proof.
  apply NoDup_ListNoDup. apply (NoDup_count_occ' ascii_dec).
  intros x Hin. vm_compute in Hin.
  repeat (destruct Hin as [<-|Hin]; [by vm_compute|]). done.
Qed.

Lemma escape_chars_no_backslash : ~ In backslash escape_chars.
Proof. vm_compute. intuition discriminate. Qed.

Lemma sanitize_markdown_flat_map (text : str) :
  sanitize_markdown text = flat_map (escape_one escape_chars) text.
Proof.
  unfold sanitize_markdown. destruct text as [|c text]; [done|].
  cbn [truthy].
  pose proof (replace_loop_escape escape_chars [] (c :: text)) as Hloop.
  assert (Hid : flat_map (escape_one []) (c :: text) = c :: text).
  { generalize (c :: text). intros l. induction l as [|x l IH]; [done|].
    cbn [flat_map]. by rewrite IH. }
  rewrite Hid in Hloop. rewrite Hloop.
  - reflexivity.
  - apply escape_chars_distinct.
  - apply escape_chars_no_backslash.
Qed.

(** X5: the eighteen successive replacements amount to one pass over the text
    in which every reserved character gets one backslash in front of it
    and every other character, a backslash included, is copied. *)
Theorem sanitize_markdown_one_pass (text : str) :
  sanitize_markdown text
  = flat_map (fun c => if in_class (lit "_*[]()~`>#+-=|{}.!") c
                       then ["\"%char; c] else [c]) text.
Proof. apply sanitize_markdown_flat_map. Qed.

(** X6: the sanitized text is longer than the text by the number of reserved
    characters in it. *)
Theorem sanitize_markdown_length (text : str) :
  py_len (sanitize_markdown text)
  = py_len text + py_len (List.filter (in_class escape_chars) text).
Proof.
  rewrite sanitize_markdown_flat_map. unfold escape_one.
  induction text as [|c text IH]; [done|].
  cbn [flat_map List.filter]. rewrite py_len_app.
  destruct (in_class escape_chars c); unfold py_len in *; simpl length in *; lia.
Qed.

(** X7: in the sanitized text every reserved character stands directly behind
    a backslash. *)
Theorem sanitize_markdown_escaped (text pre post : str) (c : ascii) :
  sanitize_markdown text = pre ++ c :: post ->
  in_class escape_chars c = true ->
  exists pre', pre = pre' ++ ["\"%char].
Proof.
  rewrite sanitize_markdown_flat_map. unfold escape_one.
  revert pre. induction text as [|a text IH]; intros pre Heq Hc.
  - by destruct pre.
  - cbn [flat_map] in Heq. destruct (in_class escape_chars a) eqn:Ha.
    + destruct pre as [|p1 [|p2 pre]]; simpl in Heq.
      * injection Heq as <- _. by vm_compute in Hc.
      * exists []. by injection Heq as <- _ _.
      * injection Heq as <- <- Heq.
        destruct (IH pre Heq Hc) as [pre' ->]. by exists ("\"%char :: a :: pre').
    + destruct pre as [|p1 pre]; simpl in Heq.
      * injection Heq as <- _. congruence.
      * injection Heq as <- Heq.
        destruct (IH pre Heq Hc) as [pre' ->]. by exists (a :: pre').
Qed.

Lemma sanitize_markdown_escaped_witness :
  exists pre', lit "a\" = pre' ++ ["\"%char].
Proof.
  apply (sanitize_markdown_escaped (lit "a_b") (lit "a\") (lit "b") "_"%char).
  - reflexivity.
  - reflexivity.
Defined.

(** ** Raw slices *)

Lemma pieces_succ (width count : nat) (s : str) :
  pieces width (S count) s = firstn width s :: pieces width count (skipn width s).
Proof.
  unfold pieces. cbn [seq map]. f_equal.
  rewrite <- seq_shift, map_map. apply map_ext. intros k.
  by rewrite skipn_skipn, Nat.mul_succ_l.
Qed.

Lemma pieces_concat (width count : nat) (s : str) :
  (length s <= count * width)%nat -> concat (pieces width count s) = s.
Proof.
  revert s. induction count as [|count IH]; intros s Hlen.
  - destruct s; [done | simpl in Hlen; lia].
  - rewrite pieces_succ. cbn [concat]. rewrite IH.
    + apply firstn_skipn.
    + rewrite length_skipn. lia.
Qed.

Lemma pieces_sizes (width count : nat) (s : str) :
  (0 < width)%nat -> (length s <= count * width)%nat ->
  (count * width < length s + width)%nat ->
  Forall (fun p => 0 < length p <= width)%nat (pieces width count s)
  /\ length (pieces width count s) = count.
Proof.
  intros Hw. revert s. induction count as [|count IH]; intros s Hup Hlow.
  - split; [constructor | done].
  - rewrite pieces_succ.
    destruct (IH (skipn width s)) as [Hall Hcount].
    + rewrite length_skipn. lia.
    + rewrite length_skipn. lia.
    + split; [|simpl; by rewrite Hcount].
      constructor; [|done]. rewrite length_firstn. lia.
Qed.

(** For a positive width the comprehension gives the pieces, as many as
    [len(s)] divided by the width, rounded up. *)
Lemma raw_slices_pieces (s : str) (n : Z) :
  0 < n ->
  raw_slices s n
  = Ok (pieces (Z.to_nat n) (Z.to_nat ((py_len s + n - 1) / n)) s).
Proof.
  intros Hn. unfold raw_slices, range_from_zero.
  destruct (n =? 0) eqn:E0; [lia|]. destruct (n <? 0) eqn:E1; [lia|].
  cbn [bind]. f_equal. unfold pieces. rewrite map_map. apply map_ext.
  intros k. unfold slice.
  replace (Z.to_nat (Z.of_nat k * n)) with (k * Z.to_nat n)%nat
    by (rewrite Z2Nat.inj_mul, Nat2Z.id by lia; done).
  f_equal. f_equal. lia.
Qed.

Lemma ceil_div_bounds (len n : Z) :
  0 <= len -> 0 < n ->
  let q := (len + n - 1) / n in
  0 <= q /\ len <= q * n /\ q * n < len + n.
Proof.
  intros Hlen Hn q.
  pose proof (Z.div_mod (len + n - 1) n ltac:(lia)) as Hdm.
  pose proof (Z.mod_pos_bound (len + n - 1) n Hn) as Hmod.
  fold q in Hdm. nia.
Qed.

(** The raw slices of a text: laid end to end they are the text, no slice
    is empty, none is longer than the width, and there are
    [ceil(len / width)] of them. *)
Lemma raw_slices_partition (s : str) (n : Z) :
  1 <= n ->
  exists parts,
    raw_slices s n = Ok parts
    /\ concat parts = s
    /\ Forall (fun p => 1 <= py_len p <= n) parts
    /\ py_len parts = (py_len s + n - 1) / n.
Proof.
  intros Hn. rewrite raw_slices_pieces by lia.
  destruct (ceil_div_bounds (py_len s) n (py_len_nonneg s) ltac:(lia))
    as (Hq & Hup & Hlow).
  set (q := (py_len s + n - 1) / n) in *.
  assert (Hup' : (length s <= Z.to_nat q * Z.to_nat n)%nat)
    by (unfold py_len in *; nia).
  assert (Hlow' : (Z.to_nat q * Z.to_nat n < length s + Z.to_nat n)%nat)
    by (unfold py_len in *; nia).
  destruct (pieces_sizes (Z.to_nat n) (Z.to_nat q) s ltac:(lia) Hup' Hlow')
    as [Hall Hcount].
  eexists. split; [reflexivity|]. split; [by apply pieces_concat|].
  split.
  - eapply Forall_impl; [exact Hall|]. intros p Hp. cbv beta in Hp. unfold py_len. lia.
  - unfold py_len. rewrite Hcount. lia.
Qed.

Lemma raw_slices_partition_witness :
  exists parts,
    raw_slices (lit "abcdefghij") 4 = Ok parts
    /\ concat parts = lit "abcdefghij"
    /\ Forall (fun p => 1 <= py_len p <= 4) parts
    /\ py_len parts = (py_len (lit "abcdefghij") + 4 - 1) / 4.
Proof. apply raw_slices_partition. lia. Defined.

(** ** [split_message]: errors, empty chunks, the size bound *)

(** A loop whose body returns and keeps [P] on the items it is given
    returns and keeps [P]. *)
Lemma for_each_keeps {S A} (P : S -> Prop) (Q : A -> Prop)
  (body : S -> A -> result S) (items : list A) :
  (forall s x, Q x -> P s -> exists s', body s x = Ok s' /\ P s') ->
  Forall Q items ->
  forall s, P s -> exists s', for_each body items s = Ok s' /\ P s'.
Proof.
  intros Hbody. induction 1 as [|x items Hx Hitems IH]; intros s Hs.
  - by exists s.
  - cbn [for_each]. destruct (Hbody s x Hx Hs) as (s1 & -> & Hs1).
    cbn [bind]. by apply IH.
Qed.

Lemma Forall_True {A} (l : list A) : Forall (fun _ => True) l.
Proof. by induction l; constructor. Qed.

(** The raw branch of the sentence loop is the comprehension. *)
Lemma sentence_body_raw (paragraph : str) (max_length : Z)
  (chunks : list str) (sentence : str) :
  max_length < py_len sentence + 2 ->
  sentence_body paragraph max_length (chunks, []) sentence
  = let? sub_chunks := raw_slices paragraph max_length in
    Ok (chunks ++ sub_chunks, []).
Proof.
  intros Hlong. unfold sentence_body, raw_slices.
  change (py_len (@nil ascii)) with 0.
  destruct (0 + py_len sentence + 2 >? max_length) eqn:E; [|lia].
  cbn [truthy]. by destruct (range_from_zero _ _).
Qed.

Lemma sentence_body_no_empty (paragraph : str) (max_length : Z)
  (st : seg_state) (sentence : str) :
  1 <= max_length -> no_empty_chunk st ->
  exists st', sentence_body paragraph max_length st sentence = Ok st'
              /\ no_empty_chunk st'.
Proof.
  intros Hmax Hst. destruct st as [chunks cur]. unfold no_empty_chunk in *.
  simpl in Hst.
  destruct (Z.ltb_spec max_length (py_len cur + py_len sentence + 2)) as [Hlt|Hge];
    destruct cur as [|c cur].
  - rewrite sentence_body_raw by (change (py_len (@nil ascii)) with 0 in Hlt; lia).
    destruct (raw_slices_partition paragraph max_length Hmax)
      as (parts & -> & _ & Hsizes & _).
    eexists. split; [reflexivity|]. simpl. apply Forall_app. split; [done|].
    eapply Forall_impl; [exact Hsizes|]. intros p Hp ->. simpl in Hp.
    change (py_len (@nil ascii)) with 0 in Hp. lia.
  - unfold sentence_body.
    destruct (_ >? _) eqn:E; [|lia]. cbn [truthy].
    eexists. split; [reflexivity|]. simpl. apply Forall_app.
    split; [done | by constructor].
  - unfold sentence_body. destruct (_ >? _) eqn:E; [lia|].
    eexists. by split.
  - unfold sentence_body. destruct (_ >? _) eqn:E; [lia|].
    eexists. by split.
Qed.

Lemma paragraph_body_no_empty (max_length : Z) (st : seg_state) (paragraph : str) :
  1 <= max_length -> no_empty_chunk st ->
  exists st', paragraph_body max_length st paragraph = Ok st'
              /\ no_empty_chunk st'.
Proof.
  intros Hmax Hst. destruct st as [chunks cur]. unfold paragraph_body.
  destruct (_ >? _); destruct cur as [|c cur]; cbn [truthy].
  - apply (for_each_keeps no_empty_chunk (fun _ => True)); [|apply Forall_True|done].
    intros s x _ Hs. by apply sentence_body_no_empty.
  - eexists. split; [reflexivity|]. unfold no_empty_chunk in *. simpl in *.
    apply Forall_app. split; [done | by constructor].
  - eexists. by split.
  - eexists. by split.
Qed.

(** X8: for [max_length >= 1] the function returns, it does not raise; and
    when the text is not empty no chunk is. *)
Theorem split_message_no_empty_chunk (text : str) (max_length : Z) :
  1 <= max_length ->
  exists chunks,
    split_message text max_length = Ok chunks
    /\ (text <> [] -> Forall (fun chunk => chunk <> []) chunks).
Proof.
  intros Hmax. unfold split_message.
  destruct (py_len text <=? max_length).
  { exists [text]. split; [done|]. intros Hne. by constructor. }
  cbv zeta.
  destruct (for_each_keeps no_empty_chunk (fun _ => True)
              (paragraph_body max_length) (split text paragraph_sep)
              (fun s x _ Hs => paragraph_body_no_empty max_length s x Hmax Hs)
              (Forall_True _) ([], []))
    as ([chunks cur] & -> & Hres); [by constructor|].
  cbn [bind]. unfold no_empty_chunk in Hres. simpl in Hres.
  destruct cur as [|c cur]; cbn [truthy].
  - by exists chunks.
  - eexists. split; [reflexivity|]. intros _. apply Forall_app.
    split; [done | by constructor].
Qed.

Lemma split_message_no_empty_chunk_witness :
  exists chunks,
    split_message (lit "aaa. bbb. ccc") 6 = Ok chunks
    /\ (lit "aaa. bbb. ccc" <> [] -> Forall (fun chunk => chunk <> []) chunks).
Proof. apply split_message_no_empty_chunk. lia. Defined.

(** X9: with [max_length = 0] every text but the empty one makes the function
    raise [ValueError]: the raw split asks for a [range] with step zero. *)
Theorem split_message_zero_raises (text : str) :
  text <> [] -> split_message text 0 = Raise ValueError.
Proof.
  intros Hne. unfold split_message.
  destruct (py_len text <=? 0) eqn:E.
  { destruct text as [|c t]; [done|]. apply Z.leb_le in E.
    unfold py_len in E. cbn [length] in E. lia. }
  cbv zeta.
  destruct (split text paragraph_sep) as [|p ps] eqn:Hps.
  { by destruct (split_nonempty text paragraph_sep). }
  cbn [for_each]. unfold paragraph_body at 1.
  change (py_len (@nil ascii)) with 0.
  pose proof (py_len_nonneg p).
  destruct (0 + py_len p + 2 >? 0) eqn:E1; [|lia]. cbn [truthy].
  destruct (split p sentence_sep) as [|s ss] eqn:Hss.
  { by destruct (split_nonempty p sentence_sep). }
  cbn [for_each]. pose proof (py_len_nonneg s).
  rewrite sentence_body_raw by lia.
  unfold raw_slices, range_from_zero. by simpl.
Qed.

Lemma split_message_zero_raises_witness :
  split_message (lit "a") 0 = Raise ValueError.
Proof. apply split_message_zero_raises. discriminate. Defined.

(** X10: with a negative [max_length] the result is the empty list, whatever
    the text: every sentence goes to the raw split, whose range is empty. *)
Theorem split_message_negative (text : str) (max_length : Z) :
  max_length < 0 -> split_message text max_length = Ok [].
Proof.
  intros Hneg. unfold split_message.
  pose proof (py_len_nonneg text).
  destruct (py_len text <=? max_length) eqn:E; [lia|]. cbv zeta.
  set (idle := fun st : seg_state => st = ([], [])).
  assert (Hraw : forall p, raw_slices p max_length = Ok []).
  { intros p. unfold raw_slices, range_from_zero.
    destruct (max_length =? 0) eqn:E0; [lia|].
    by destruct (max_length <? 0) eqn:E1; [|lia]. }
  destruct (for_each_keeps idle (fun _ => True)
              (paragraph_body max_length) (split text paragraph_sep))
    with (s := ([], []) : seg_state) as (st & -> & ->);
    [|apply Forall_True|done|done].
  intros s p _ ->. unfold paragraph_body.
  change (py_len (@nil ascii)) with 0. pose proof (py_len_nonneg p).
  destruct (0 + py_len p + 2 >? max_length) eqn:E1; [|lia]. cbn [truthy].
  apply (for_each_keeps idle (fun _ => True)); [|apply Forall_True|done].
  intros s x _ ->. pose proof (py_len_nonneg x).
  rewrite sentence_body_raw by lia. rewrite Hraw. by eexists.
Qed.

Lemma split_message_negative_witness :
  split_message (lit "hello") (-1) = Ok [].
Proof. apply split_message_negative. lia. Defined.

Lemma paragraph_body_bounded (max_length : Z) (st : seg_state) (paragraph : str) :
  py_len paragraph + 2 <= max_length -> all_bounded max_length st ->
  exists st', paragraph_body max_length st paragraph = Ok st'
              /\ all_bounded max_length st'.
Proof.
  intros Hfit [Hchunks Hcur]. destruct st as [chunks cur]. simpl in *.
  unfold paragraph_body, all_bounded, bounded in *.
  destruct (Z.ltb_spec max_length (py_len cur + py_len paragraph + 2)) as [Hlt|Hge].
  - destruct (_ >? _) eqn:E; [|lia].
    destruct cur as [|c cur]; cbn [truthy].
    + change (py_len (@nil ascii)) with 0 in Hlt. lia.
    + eexists. split; [reflexivity|]. simpl. split; [|lia].
      apply Forall_app. split; [done | by constructor].
  - destruct (_ >? _) eqn:E; [lia|].
    destruct cur as [|c cur]; cbn [truthy].
    + eexists. split; [reflexivity|]. simpl. split; [done | lia].
    + eexists. split; [reflexivity|]. cbn [fst snd]. split; [done|].
      rewrite py_len_app. unfold py_len in *. cbn [app length] in *. lia.
Qed.

(** X11: when every paragraph of the text is at most [max_length - 2]
    characters long, the function returns and every chunk is within
    [max_length]. *)
Theorem split_message_bound_short_paragraphs (text : str) (max_length : Z) :
  Forall (fun p => py_len p + 2 <= max_length) (split text [newline; newline]) ->
  exists chunks,
    split_message text max_length = Ok chunks
    /\ Forall (fun chunk => py_len chunk <= max_length) chunks.
Proof.
  intros Hfit. fold paragraph_sep in Hfit. unfold split_message.
  destruct (Z.leb_spec (py_len text) max_length) as [Hle|Hgt].
  { exists [text]. split; [done | by constructor]. }
  cbv zeta.
  assert (Hmax : 0 <= max_length).
  { pose proof (split_nonempty text paragraph_sep) as Hne.
    destruct (split text paragraph_sep) as [|p ps]; [done|].
    apply Forall_cons_iff in Hfit as [Hp _].
    pose proof (py_len_nonneg p). lia. }
  destruct (for_each_keeps (all_bounded max_length)
              (fun p => py_len p + 2 <= max_length)
              (paragraph_body max_length) (split text paragraph_sep)
              (paragraph_body_bounded max_length) Hfit ([], []))
    as ([chunks cur] & -> & Hchunks & Hcur).
  { split; [constructor | exact Hmax]. }
  cbn [bind]. simpl in Hchunks, Hcur.
  destruct cur as [|c cur]; cbn [truthy].
  - by exists chunks.
  - eexists. split; [reflexivity|]. apply Forall_app.
    split; [done | by constructor].
Qed.

Lemma split_message_bound_short_paragraphs_witness :
  exists chunks,
    split_message (lit "one" ++ [newline; newline] ++ lit "two"
                   ++ [newline; newline] ++ lit "three") 10 = Ok chunks
    /\ Forall (fun chunk => py_len chunk <= 10) chunks.
Proof.
  apply split_message_bound_short_paragraphs.
  repeat constructor; vm_compute; discriminate.
Defined.

(** X12: the raw tier: a text longer than [max_length] with no blank line and
    no [". "] in it is cut into its raw slices, so the chunks laid end to
    end are the text, each has between 1 and [max_length] characters, and
    there are [ceil(len / max_length)] of them. *)
Theorem split_message_raw_tier (text : str) (max_length : Z) :
  1 <= max_length < py_len text ->
  split text [newline; newline] = [text] ->
  split text (lit ". ") = [text] ->
  exists chunks,
    split_message text max_length = Ok chunks
    /\ concat chunks = text
    /\ Forall (fun chunk => 1 <= py_len chunk <= max_length) chunks
    /\ py_len chunks = (py_len text + max_length - 1) / max_length.
Proof.
  intros [Hmax Hlong] Hpar Hsen.
  destruct (raw_slices_partition text max_length Hmax)
    as (parts & Hraw & Hcat & Hsizes & Hcount).
  exists parts. split; [|done].
  unfold split_message.
  destruct (py_len text <=? max_length) eqn:E; [lia|]. cbv zeta.
  fold paragraph_sep in Hpar. rewrite Hpar. cbn [for_each].
  unfold paragraph_body. change (py_len (@nil ascii)) with 0.
  destruct (0 + py_len text + 2 >? max_length) eqn:E1; [|lia]. cbn [truthy].
  fold sentence_sep in Hsen. rewrite Hsen. cbn [for_each].
  rewrite sentence_body_raw by lia. rewrite Hraw. by cbn.
Qed.

Lemma split_message_raw_tier_witness :
  exists chunks,
    split_message (lit "abcdefghij") 4 = Ok chunks
    /\ concat chunks = lit "abcdefghij"
    /\ Forall (fun chunk => 1 <= py_len chunk <= 4) chunks
    /\ py_len chunks = (py_len (lit "abcdefghij") + 4 - 1) / 4.
Proof.
  apply split_message_raw_tier.
  - vm_compute. split; [discriminate | reflexivity].
  - reflexivity.
  - reflexivity.
Defined.

Lemma split_message_sentence_tier_witness :
  exists chunks,
    split_message (lit "aaa. bbb. ccc") 6 = Ok chunks
    /\ concat chunks = lit "aaa. bbb. ccc" ++ sentence_sep
    /\ Forall (bounded 6) chunks.
Proof.
  apply split_message_sentence_tier.
  - vm_compute. reflexivity.
  - reflexivity.
  - repeat constructor; vm_compute; discriminate.
Defined.

(** X14: the raw split is run once per sentence: when a one-paragraph text has
    only sentences too long to be a chunk ([len(s) + 2 > max_length]), the
    result is the raw slices of the whole paragraph, repeated as many times
    as there are sentences. *)
Theorem split_message_repeats_raw_slices (text : str) (max_length : Z) :
  1 <= max_length < py_len text ->
  split text [newline; newline] = [text] ->
  Forall (fun s => max_length < py_len s + 2) (split text (lit ". ")) ->
  exists slices,
    raw_slices text max_length = Ok slices
    /\ concat slices = text
    /\ split_message text max_length
       = Ok (concat (map (fun _ => slices) (split text (lit ". ")))).
Proof.
  intros [Hmax Hlong] Hpar Hsen.
  destruct (raw_slices_partition text max_length Hmax)
    as (parts & Hraw & Hcat & _).
  exists parts. split; [done|]. split; [done|].
  unfold split_message.
  destruct (py_len text <=? max_length) eqn:E; [lia|]. cbv zeta.
  fold paragraph_sep in Hpar. rewrite Hpar. cbn [for_each].
  unfold paragraph_body. change (py_len (@nil ascii)) with 0.
  destruct (0 + py_len text + 2 >? max_length) eqn:E1; [|lia]. cbn [truthy].
  fold sentence_sep in Hsen |- *.
  assert (Hloop : forall chunks,
    for_each (sentence_body text max_length) (split text sentence_sep) (chunks, [])
    = Ok (chunks ++ concat (map (fun _ => parts) (split text sentence_sep)), [])).
  { induction Hsen as [|s ss Hs Hss IH]; intros chunks.
    - simpl. by rewrite app_nil_r.
    - cbn [for_each]. rewrite sentence_body_raw by lia. rewrite Hraw.
      cbn [bind]. rewrite IH. cbn [map concat]. by rewrite app_assoc. }
  rewrite Hloop. by cbn.
Qed.

Lemma split_message_repeats_raw_slices_witness :
  exists slices,
    raw_slices (lit "aaaaaaaa. bbbbbbbb") 5 = Ok slices
    /\ concat slices = lit "aaaaaaaa. bbbbbbbb"
    /\ split_message (lit "aaaaaaaa. bbbbbbbb") 5
       = Ok (concat (map (fun _ => slices)
                         (split (lit "aaaaaaaa. bbbbbbbb") (lit ". ")))).
Proof.
  apply split_message_repeats_raw_slices.
  - vm_compute. split; [discriminate | reflexivity].
  - reflexivity.
  - repeat constructor; vm_compute; reflexivity.
Defined.

(** ** The rate limiter over sequences of calls *)

Section RateLimiterRuns.
Context {T : Type} `{Clock T}.
Implicit Types (st : gmap Z (list T)) (now : T) (uid limit window : Z).

(** X15: a check changes the entry of its identity only, and that entry exists
    afterwards, whether the call was admitted or not. *)
Theorem check_rate_limit_frame now uid limit window st :
  is_Some (snd (check_rate_limit now uid limit window st) !! uid)
  /\ forall other, other <> uid ->
       snd (check_rate_limit now uid limit window st) !! other = st !! other.
Proof.
  rewrite check_rate_limit_unfold. cbv zeta.
  destruct (_ >=? _); cbn [snd]; (split; [by rewrite lookup_insert_eq|]);
    intros other Hne; by rewrite lookup_insert_ne.
Qed.

Lemma check_all_cons (t : T) (rest : list T) uid limit window st :
  check_all (t :: rest) uid limit window st
  = let one := check_rate_limit t uid limit window st in
    let more := check_all rest uid limit window (snd one) in
    (fst one :: fst more, snd more).
Proof.
  cbn [check_all]. destruct (check_rate_limit t uid limit window st) as [r s].
  cbn [fst snd]. by destruct (check_all rest uid limit window s).
Qed.

Lemma prune_length now window (l : list T) :
  py_len (prune now window l) <= py_len l.
Proof.
  unfold prune, py_len. pose proof (List.filter_length_le (in_window now window) l).
  lia.
Qed.

Lemma check_all_keeps_limit (readings : list T) uid limit window st :
  0 <= limit ->
  py_len (stored uid st) <= limit ->
  py_len (stored uid (snd (check_all readings uid limit window st))) <= limit.
Proof.
  intros Hlimit. revert st. induction readings as [|t rest IH]; intros st Hst.
  - done.
  - rewrite check_all_cons. cbv zeta. cbn [snd]. apply IH.
    rewrite check_rate_limit_unfold. cbv zeta.
    pose proof (prune_length t window (stored uid st)).
    destruct (_ >=? _) eqn:E; cbn [snd]; rewrite stored_insert; [lia|].
    rewrite py_len_app. change (py_len [t]) with 1. lia.
Qed.

(** X16: with one and the same non-negative limit, a stored list that is within
    the limit stays within it through any sequence of checks, admitted or
    rejected, at any clock readings. *)
Theorem check_all_within_limit (readings : list T) uid limit window st :
  0 <= limit ->
  py_len (stored uid st) <= limit ->
  py_len (stored uid (snd (check_all readings uid limit window st))) <= limit.
Proof. apply check_all_keeps_limit. Qed.
End RateLimiterRuns.

Lemma check_all_within_limit_witness :
  py_len (stored 7 (snd (check_all [1; 2.5; 3.25; 4]%float 7 2 60 ∅))) <= 2.
Proof.
  apply (check_all_within_limit [1; 2.5; 3.25; 4]%float 7 2 60 ∅).
  - lia.
  - vm_compute. discriminate.
Defined.

Lemma prune_app {T} `{Clock T} (now : T) (window : Z) (l1 l2 : list T) :
  prune now window (l1 ++ l2) = prune now window l1 ++ prune now window l2.
Proof. unfold prune. apply List.filter_app. Qed.

Lemma last_cons_default {A} (rest : list A) (t d : A) :
  List.last (t :: rest) d = List.last rest t.
Proof.
  revert t d. induction rest as [|x rest IH]; intros t d; [done|].
  change (List.last (t :: x :: rest) d) with (List.last (x :: rest) d).
  by rewrite !IH.
Qed.

Lemma admitted_cons {T} (t : T) (rest : list T) (r : bool) (rs : list bool) :
  admitted (t :: rest) (r :: rs)
  = if r then t :: admitted rest rs else admitted rest rs.
Proof. by destruct r. Qed.

Lemma filter_filter_impl {A} (p q : A -> bool) (l : list A) :
  (forall x, In x l -> p x = true -> q x = true) ->
  List.filter p (List.filter q l) = List.filter p l.
Proof.
  induction l as [|x l IH]; intros Himp; [done|]. simpl.
  assert (IH' := IH (fun y Hy => Himp y (or_intror Hy))).
  destruct (q x) eqn:Eq; simpl.
  - by rewrite IH'.
  - destruct (p x) eqn:Ep; [|done].
    rewrite (Himp x (or_introl eq_refl) Ep) in Eq. discriminate.
Qed.

(** The window test at a reading holds of the reading itself; and a
    timestamp that passes the window test at a reading passes it at every
    earlier one. *)
Lemma in_window_self (now : float) (window : Z) :
  finite_reading now = true -> 1 <= window <= 2 ^ 53 ->
  in_window now window now = true.
Proof.
  intros Fn Hw. apply in_window_recent; try done.
  assert (0 <= inject_Z (window - 1))%Q; [|lra].
  change 0%Q with (inject_Z 0). rewrite <- Zle_Qle. lia.
Qed.

Lemma in_window_later (prev now ts : float) (window : Z) :
  finite_reading prev = true -> finite_reading now = true ->
  1 <= window <= 2 ^ 53 ->
  reading_le prev now ->
  in_window now window ts = true -> in_window prev window ts = true.
Proof.
  intros Fp Fn Hw Hle. unfold in_window. cbn [time_lt_int time_sub float_clock].
  destruct (finite_reading ts) eqn:Fts.
  - by apply float_sub_mono.
  - by rewrite (float_sub_nonfinite prev now ts).
Qed.

(** Pruning at a later reading makes an earlier pruning redundant. *)
Lemma prune_later (prev now : float) (window : Z) (l : list float) :
  finite_reading prev = true -> finite_reading now = true ->
  1 <= window <= 2 ^ 53 ->
  reading_le prev now ->
  prune now window (prune prev window l) = prune now window l.
Proof.
  intros Fp Fn Hw Hle. induction l as [|x l IH]; [done|].
  rewrite (prune_cons prev). rewrite (prune_cons now).
  destruct (in_window prev window x) eqn:Eprev.
  - rewrite prune_cons. by rewrite IH.
  - destruct (in_window now window x) eqn:Enow; [|done].
    apply (in_window_later prev now) in Enow; try done. congruence.
Qed.

(** The state after a run of checks at finite, non-decreasing readings, in
    terms of the admitted readings. *)
Lemma check_all_stored (readings : list float) (uid limit window : Z) :
  1 <= window <= 2 ^ 53 ->
  forall (st : gmap Z (list float)) (adm : list float) (prev : float),
    finite_reading prev = true ->
    Forall (fun r => finite_reading r = true) readings ->
    Sorted reading_le (prev :: readings) ->
    stored uid st = prune prev window adm ->
    stored uid (snd (check_all readings uid limit window st))
    = prune (List.last readings prev) window
        (adm ++ admitted readings (fst (check_all readings uid limit window st))).
Proof.
  intros Hw. induction readings as [|t rest IH];
    intros st adm prev Fp Hfin Hsorted Hst.
  - simpl. by rewrite app_nil_r.
  - apply Forall_cons_iff in Hfin as [Ft Hfin].
    apply Sorted_inv in Hsorted as [Hrest Hhd].
    apply HdRel_inv in Hhd.
    rewrite check_all_cons. cbv zeta. cbn [fst snd].
    rewrite (last_cons_default rest t prev).
    rewrite (check_rate_limit_on t uid limit window st
               (prune prev window adm) (prune t window adm) Hst
               (prune_later prev t window adm Fp Ft Hw Hhd)).
    destruct (_ >=? _) eqn:E; cbn [fst snd]; rewrite admitted_cons.
    + rewrite (IH _ adm t Ft Hfin Hrest); [done|]. by rewrite stored_insert.
    + rewrite (IH _ (adm ++ [t]) t Ft Hfin Hrest).
      * by rewrite <- app_assoc.
      * rewrite stored_insert, prune_app. f_equal.
        rewrite prune_cons, in_window_self by done. done.
Qed.

Lemma admitted_In {T} (readings : list T) (results : list bool) (ts : T) :
  In ts (admitted readings results) -> In ts readings.
Proof.
  revert results. induction readings as [|t rest IH]; intros [|r rs]; try done.
  rewrite admitted_cons. destruct r; simpl; [intros [->|Hin]|intros Hin]; eauto.
Qed.

(** X17: the sliding-window guarantee.  For a fresh identity, a limit of zero
    or more, a window from 1 to [2 ^ 53] seconds and checks at finite,
    non-decreasing readings: at every check, the admitted readings that are
    at most [window - 1] seconds old number at most [limit]; what is stored
    after the check are admitted readings less than [window] seconds old;
    and the stored list is the list of the admitted readings that pass the
    window test of that check. *)
Theorem sliding_window_guarantee (earlier : list float) (t : float)
  (uid limit window : Z) (st : gmap Z (list float)) :
  st !! uid = None ->
  0 <= limit -> 1 <= window <= 2 ^ 53 ->
  Forall (fun r => finite_reading r = true) (earlier ++ [t]) ->
  Sorted reading_le (earlier ++ [t]) ->
  let run := check_all (earlier ++ [t]) uid limit window st in
  py_len (List.filter (recent_at t window) (admitted (earlier ++ [t]) (fst run)))
    <= limit
  /\ Forall (fun ts =>
               In ts (admitted (earlier ++ [t]) (fst run))
               /\ (float_value t - float_value ts < inject_Z window)%Q)
            (stored uid (snd run))
  /\ stored uid (snd run) = prune t window (admitted (earlier ++ [t]) (fst run)).
Proof.
  intros Hfresh Hlimit Hw Hfin Hsorted run.
  assert (Hempty : stored uid st = []) by (unfold stored; by rewrite Hfresh).
  assert (Ft : finite_reading t = true).
  { apply Forall_app in Hfin as [_ Ht]. by apply Forall_cons_iff in Ht as [Ht _]. }
  assert (Hadm : forall ts, In ts (admitted (earlier ++ [t]) (fst run)) ->
                            finite_reading ts = true).
  { intros ts Hin%admitted_In. rewrite List.Forall_forall in Hfin. by apply Hfin. }
  assert (Hstored : stored uid (snd run)
                    = prune t window (admitted (earlier ++ [t]) (fst run))).
  { set (first := hd t earlier).
    assert (Hs : Sorted reading_le (first :: earlier ++ [t])).
    { constructor; [done|]. unfold first.
      destruct earlier as [|e earlier]; simpl; constructor; apply Qle_refl. }
    assert (Ffirst : finite_reading first = true).
    { unfold first. destruct earlier as [|e earlier]; simpl in *;
        by apply Forall_cons_iff in Hfin as [Hf _]. }
    unfold run.
    rewrite (check_all_stored (earlier ++ [t]) uid limit window Hw st [] first
               Ffirst Hfin Hs); [by rewrite last_last|by rewrite Hempty]. }
  split; [|split; [|exact Hstored]].
  - assert (Hkeep : py_len (stored uid (snd run)) <= limit).
    { unfold run. apply check_all_keeps_limit; [done|].
      rewrite Hempty. change (py_len []) with 0. lia. }
    assert (Hrecent : List.filter (recent_at t window) (stored uid (snd run))
                      = List.filter (recent_at t window)
                          (admitted (earlier ++ [t]) (fst run))).
    { rewrite Hstored. apply filter_filter_impl.
      intros ts _ [Fts Hage]%recent_at_spec. by apply in_window_recent. }
    pose proof (List.filter_length_le (recent_at t window) (stored uid (snd run)))
      as Hfl.
    rewrite Hrecent in Hfl. unfold py_len in *. lia.
  - rewrite Hstored. apply List.Forall_forall.
    intros ts [Hin Hwin]%prune_in_window. split; [done|].
    apply Qnot_le_lt. intros Hold.
    rewrite (in_window_old t ts window) in Hwin by auto. discriminate.
Qed.

(** Five checks with limit 2: the two readings of the first window are
    pruned by the time of the last check. *)
Lemma sliding_window_guarantee_witness :
  let run := check_all ([1; 2.5; 30; 61.25] ++ [62.5])%float 7 2 60 ∅ in
  py_len (List.filter (recent_at 62.5%float 60)
            (admitted ([1; 2.5; 30; 61.25] ++ [62.5])%float (fst run))) <= 2
  /\ Forall (fun ts =>
               In ts (admitted ([1; 2.5; 30; 61.25] ++ [62.5])%float (fst run))
               /\ (float_value 62.5%float - float_value ts < inject_Z 60)%Q)
            (stored 7 (snd run))
  /\ stored 7 (snd run)
     = prune 62.5%float 60 (admitted ([1; 2.5; 30; 61.25] ++ [62.5])%float (fst run)).
Proof.
  apply (sliding_window_guarantee [1; 2.5; 30; 61.25]%float 62.5%float 7 2 60 ∅).
  - reflexivity.
  - lia.
  - exact window_60.
  - repeat constructor; vm_compute; reflexivity.
  - repeat constructor; apply Qle_bool_iff; vm_compute; reflexivity.
Defined.

(** X18: a rejected call leaves no trace.  After a rejection at a finite
    reading, the next check of the identity, at a finite reading that is
    the same or later and with the same window of 1 to [2 ^ 53] seconds,
    returns the result and the state it would have returned had the
    rejected call not been made. *)
Theorem rejected_call_leaves_no_trace (t t' : float)
  (uid limit limit' window : Z) (st : gmap Z (list float)) :
  fst (check_rate_limit t uid limit window st) = false ->
  finite_reading t = true -> finite_reading t' = true ->
  1 <= window <= 2 ^ 53 ->
  reading_le t t' ->
  check_rate_limit t' uid limit' window (snd (check_rate_limit t uid limit window st))
  = check_rate_limit t' uid limit' window st.
Proof.
  intros Hrej Ft Ft' Hw Hle. rewrite (check_rate_limit_unfold t) in Hrej |- *.
  cbv zeta in *. destruct (_ >=? _) eqn:E; [|done]. cbn [snd].
  rewrite (check_rate_limit_on t' uid limit' window _ _ _
             (stored_insert uid _ st)
             (prune_later t t' window _ Ft Ft' Hw Hle)).
  rewrite (check_rate_limit_unfold t' uid limit' window st). cbv zeta.
  by rewrite !insert_insert_eq.
Qed.

(** A rejection at 10.5, then a check at 65.25, when two of the stored
    timestamps have left the window. *)
Lemma rejected_call_leaves_no_trace_witness :
  check_rate_limit 65.25%float 7 5 60
    (snd (check_rate_limit 10.5%float 7 3 60 {[ 7 := [1; 2.25; 10.5]%float ]}))
  = check_rate_limit 65.25%float 7 5 60 {[ 7 := [1; 2.25; 10.5]%float ]}.
Proof.
  apply rejected_call_leaves_no_trace.
  - vm_compute. reflexivity.
  - vm_compute. reflexivity.
  - vm_compute. reflexivity.
  - exact window_60.
  - apply Qle_bool_iff. vm_compute. reflexivity.
Defined.

(** X19: after a full window without activity the identity starts afresh: when
    every stored timestamp is finite and, exactly, [window] seconds old or
    more at a finite reading, for a window from 1 to [2 ^ 53] seconds, a
    check with a limit of one or more is admitted and the stored list
    becomes that one reading. *)
Theorem check_rate_limit_after_quiet_window (now : float) (uid limit window : Z)
  (st : gmap Z (list float)) :
  1 <= limit -> 1 <= window <= 2 ^ 53 ->
  finite_reading now = true ->
  Forall (fun ts => finite_reading ts = true
                    /\ (inject_Z window <= float_value now - float_value ts)%Q)
         (stored uid st) ->
  check_rate_limit now uid limit window st = (true, <[uid := [now]]> st).
Proof.
  intros Hlimit Hw Fn Hold.
  assert (Hp : prune now window (stored uid st) = []).
  { induction Hold as [|ts l [Fts Hts] Hl IH]; [done|].
    rewrite prune_cons. by rewrite (in_window_old now ts window). }
  rewrite (check_rate_limit_on now uid limit window st _ _ eq_refl Hp).
  change (py_len []) with 0. by destruct (0 >=? limit) eqn:E; [lia|].
Qed.

(** The three stored timestamps are 60 seconds old, exactly, or more. *)
Lemma check_rate_limit_after_quiet_window_witness :
  check_rate_limit 100.5%float 7 3 60 {[ 7 := [1; 2.25; 40.5]%float ]}
  = (true, <[7 := [100.5%float]]> {[ 7 := [1; 2.25; 40.5]%float ]}).
Proof.
  apply check_rate_limit_after_quiet_window.
  - lia.
  - exact window_60.
  - vm_compute. reflexivity.
  - repeat constructor; try (vm_compute; reflexivity);
      apply Qle_bool_iff; vm_compute; reflexivity.
Defined.

(** ** The handlers' pure steps *)

(** X20: the parts [/content] sends: for a non-empty content there is a first
    part, so the subscript [message_parts[0]] is defined; the parts laid end
    to end are the content; and each has between 1 and 4000 characters. *)
Theorem content_message_parts_cover (content_text : str) :
  content_text <> [] ->
  exists first rest,
    content_message_parts content_text = Ok (first :: rest)
    /\ first ++ concat rest = content_text
    /\ Forall (fun part => 1 <= py_len part <= 4000) (first :: rest).
Proof.
  intros Hne. unfold content_message_parts, MAX_LENGTH.
  destruct (raw_slices_partition content_text 4000 ltac:(lia))
    as (parts & -> & Hcat & Hsizes & _).
  destruct parts as [|first rest].
  - simpl in Hcat. by subst.
  - by exists first, rest.
Qed.

Lemma content_message_parts_cover_witness :
  exists first rest,
    content_message_parts (lit "some content") = Ok (first :: rest)
    /\ first ++ concat rest = lit "some content"
    /\ Forall (fun part => 1 <= py_len part <= 4000) (first :: rest).
Proof. apply content_message_parts_cover. discriminate. Defined.

(** A separator that does not occur leaves the string in one piece. *)
Lemma split_no_occurrence (s sep : str) :
  sep <> [] ->
  (forall before after, s <> before ++ sep ++ after) ->
  split s sep = [s].
Proof.
  intros Hsep. induction s as [|c s IH]; intros Hnone; [done|].
  rewrite split_cons by done.
  destruct (starts_with sep (c :: s)) eqn:E.
  - apply starts_with_app in E. by destruct (Hnone [] (skipn (length sep) (c :: s))).
  - rewrite IH; [done|]. intros before after ->.
    by apply (Hnone (c :: before) after).
Qed.

Lemma starts_with_prefix (sep s : str) : starts_with sep (sep ++ s) = true.
Proof.
  induction sep as [|a sep IH]; [done|]. simpl.
  by rewrite Ascii.eqb_refl, IH.
Qed.

(** X21: the topic id of [/content] is always defined: the subscript [[1]] is
    only taken of a message that starts with [/content_], whose split has a
    second piece.  And a link [/content_ID] written by the search results
    gives [ID] back, for an id in which [/content_] does not occur. *)
Theorem content_topic_id_link (args : list str) (message_text topic_id : str) :
  (exists found, content_topic_id args message_text = Some found)
  /\ ((forall before after, topic_id <> before ++ lit "/content_" ++ after) ->
      content_topic_id [] (lit "/content_" ++ topic_id) = Some topic_id).
Proof.
  split.
  - unfold content_topic_id. cbv zeta.
    destruct (negb _ && starts_with content_link message_text) eqn:E;
      [|by eexists].
    apply andb_true_iff in E as [_ E].
    destruct message_text as [|c s]; [done|].
    rewrite split_cons by done. rewrite E.
    pose proof (split_nonempty (skipn (length content_link) (c :: s)) content_link).
    destruct (split _ content_link) as [|second more]; [done | by eexists].
  - intros Hnone. unfold content_topic_id. cbv zeta. cbn [truthy negb andb].
    fold content_link. rewrite starts_with_prefix.
    change (content_link ++ topic_id)
      with ("/"%char :: skipn 1 content_link ++ topic_id).
    rewrite split_cons by done.
    change ("/"%char :: skipn 1 content_link ++ topic_id)
      with (content_link ++ topic_id).
    rewrite starts_with_prefix, skipn_app, skipn_all, Nat.sub_diag.
    cbn [app skipn]. by rewrite split_no_occurrence.
Qed.

Lemma content_topic_id_link_witness :
  content_topic_id [] (lit "/content_" ++ lit "60a1b2c3") = Some (lit "60a1b2c3").
Proof.
  apply (content_topic_id_link [] [] (lit "60a1b2c3")).
  intros before after Heq.
  assert (Hlen : length (lit "60a1b2c3")
                 = length (before ++ lit "/content_" ++ after)) by (by rewrite <- Heq).
  rewrite !length_app in Hlen. simpl in Hlen. lia.
Defined.

Lemma split_once_no_sep (s : str) (sep : ascii) :
  ~ In sep s -> split_once s sep = [s].
Proof.
  induction s as [|c s IH]; intros Hnot; [done|]. simpl.
  destruct (Ascii.eqb_spec c sep) as [->|Hne].
  - destruct Hnot. by left.
  - rewrite IH; [done|]. intros Hin. apply Hnot. by right.
Qed.

Lemma split_once_first (action topic : str) (sep : ascii) :
  ~ In sep action -> split_once (action ++ sep :: topic) sep = [action; topic].
Proof.
  induction action as [|c action IH]; intros Hnot; simpl.
  - by rewrite Ascii.eqb_refl.
  - destruct (Ascii.eqb_spec c sep) as [->|Hne].
    + destruct Hnot. by left.
    + rewrite IH; [done|]. intros Hin. apply Hnot. by right.
Qed.

(** X22: button data round trip: what [/learn] writes into a button,
    [button_click] reads back, for an action without a colon and any topic,
    colons included; and data without any colon is refused. *)
Theorem parse_callback_roundtrip (action topic data : str) :
  (~ In ":"%char action ->
   parse_callback (callback_data action topic) = Some (action, topic))
  /\ (~ In ":"%char data -> parse_callback data = None).
Proof.
  split.
  - intros Hnot. unfold parse_callback, callback_data.
    change (lit ":" ++ topic) with (":"%char :: topic).
    by rewrite split_once_first.
  - intros Hnot. unfold parse_callback. by rewrite split_once_no_sep.
Qed.

Lemma parse_callback_roundtrip_witness :
  parse_callback (callback_data (lit "quiz") (lit "C++: the basics"))
  = Some (lit "quiz", lit "C++: the basics")
  /\ parse_callback (lit "quiz") = None.
Proof.
  split.
  - apply (parse_callback_roundtrip (lit "quiz") (lit "C++: the basics") []).
    vm_compute. intuition discriminate.
  - apply (parse_callback_roundtrip [] [] (lit "quiz")).
    vm_compute. intuition discriminate.
Defined.

(** ** [get_user_stats] *)

Lemma str_eqb_refl (a : str) : str_eqb a a = true.
Proof. by apply str_eqb_eq. Qed.

Lemma str_eqb_false (a b : str) : str_eqb a b = false <-> a <> b.
Proof. rewrite <- not_true_iff_false, str_eqb_eq. done. Qed.

Lemma dict_get_set (d : list (str * Z)) (k k' : str) (v default : Z) :
  dict_get (dict_set d k v) k' default
  = if str_eqb k k' then v else dict_get d k' default.
Proof.
  induction d as [|[k0 v0] d IH]; simpl.
  - done.
  - destruct (str_eqb k0 k) eqn:E0; simpl.
    + apply str_eqb_eq in E0 as ->. by destruct (str_eqb k k').
    + rewrite IH. destruct (str_eqb k0 k') eqn:E1; [|done].
      apply str_eqb_eq in E1 as ->. by rewrite (proj2 (str_eqb_false k k'))
        by (intros ->; by rewrite str_eqb_refl in E0).
Qed.

Lemma dict_set_keys (d : list (str * Z)) (k : str) (v : Z) :
  map fst (dict_set d k v)
  = if existsb (str_eqb k) (map fst d) then map fst d else map fst d ++ [k].
Proof.
  induction d as [|[k0 v0] d IH]; simpl; [done|].
  destruct (str_eqb k0 k) eqn:E0; simpl.
  - apply str_eqb_eq in E0 as ->. by rewrite str_eqb_refl.
  - rewrite IH.
    rewrite (proj2 (str_eqb_false k k0)) by (intros ->; by rewrite str_eqb_refl in E0).
    simpl. by destruct (existsb _ _).
Qed.

Lemma existsb_str_In (k : str) (l : list str) :
  existsb (str_eqb k) l = true <-> In k l.
Proof.
  rewrite existsb_exists. split.
  - intros (x & Hx & Heq). by apply str_eqb_eq in Heq as ->.
  - intros Hin. exists k. by rewrite str_eqb_refl.
Qed.

Lemma dict_set_keys_In (d : list (str * Z)) (k k' : str) (v : Z) :
  In k' (map fst (dict_set d k v)) <-> k' = k \/ In k' (map fst d).
Proof.
  rewrite dict_set_keys. destruct (existsb _ _) eqn:E.
  - apply existsb_str_In in E. split; [by right | by intros [->|?]].
  - rewrite in_app_iff. simpl. split; [intros [?|[->|[]]] | intros [->|?]]; auto.
Qed.

Lemma dict_set_keys_NoDup (d : list (str * Z)) (k : str) (v : Z) :
  List.NoDup (map fst d) -> List.NoDup (map fst (dict_set d k v)).
Proof.
  intros Hnd. rewrite dict_set_keys. destruct (existsb _ _) eqn:E; [done|].
  apply NoDup_ListNoDup, NoDup_app. split; [by apply NoDup_ListNoDup|].
  split; [|apply NoDup_singleton].
  intros x Hx Hk. apply list_elem_of_In in Hx.
  apply list_elem_of_singleton in Hk as ->.
  apply existsb_str_In in Hx. congruence.
Qed.

Lemma dict_get_entry (d : list (str * Z)) (k : str) (v default : Z) :
  List.NoDup (map fst d) -> In (k, v) d -> dict_get d k default = v.
Proof.
  induction d as [|[k0 v0] d IH]; simpl; [done|].
  intros Hnd [Heq|Hin].
  - injection Heq as -> ->. by rewrite str_eqb_refl.
  - apply List.NoDup_cons_iff in Hnd as [Hk0 Hnd].
    destruct (str_eqb k0 k) eqn:E; [|by apply IH].
    apply str_eqb_eq in E as ->. destruct Hk0.
    apply (in_map fst) in Hin. exact Hin.
Qed.

Lemma count_from_get (sessions : list LearningSession) (d : list (str * Z))
  (k : str) :
  dict_get (count_from d sessions) k 0
  = dict_get d k 0 + topic_sessions sessions k.
Proof.
  revert d. induction sessions as [|s sessions IH]; intros d.
  - unfold topic_sessions. simpl. change (py_len []) with 0. lia.
  - unfold count_from in *. cbn [fold_left]. rewrite IH. cbv zeta.
    rewrite dict_get_set. unfold topic_sessions. cbn [List.filter].
    destruct (str_eqb (s_topic s) k) eqn:E.
    + apply str_eqb_eq in E as <-. unfold py_len. cbn [length]. lia.
    + lia.
Qed.

Lemma count_from_keys (sessions : list LearningSession) (d : list (str * Z))
  (k : str) :
  In k (map fst (count_from d sessions))
  <-> In k (map fst d) \/ 1 <= topic_sessions sessions k.
Proof.
  revert d. induction sessions as [|s sessions IH]; intros d.
  - unfold topic_sessions. simpl. change (py_len []) with 0.
    split; [by left | intros [?|?]; [done | lia]].
  - unfold count_from in *. cbn [fold_left]. rewrite IH. cbv zeta.
    rewrite dict_set_keys_In. unfold topic_sessions. cbn [List.filter].
    pose proof (py_len_nonneg
                  (List.filter (fun s0 => str_eqb (s_topic s0) k) sessions)).
    destruct (str_eqb (s_topic s) k) eqn:E.
    + apply str_eqb_eq in E as <-. unfold py_len in *. cbn [length].
      split; [intros [[?|?]|?]; auto; right; lia | intros [?|?]; auto].
    + apply str_eqb_false in E.
      split; [intros [[?|?]|?]; auto; congruence | intros [?|?]; auto].
Qed.

Lemma count_from_NoDup (sessions : list LearningSession) (d : list (str * Z)) :
  List.NoDup (map fst d) -> List.NoDup (map fst (count_from d sessions)).
Proof.
  revert d. induction sessions as [|s sessions IH]; intros d Hnd; [done|].
  unfold count_from in *. cbn [fold_left]. apply IH. by apply dict_set_keys_NoDup.
Qed.

Lemma insert_by_count_perm (x : str * Z) (l : list (str * Z)) :
  Permutation (insert_by_count x l) (x :: l).
Proof.
  induction l as [|y l IH]; simpl; [done|].
  destruct (snd y <=? snd x); [done|].
  rewrite IH. apply perm_swap.
Qed.

Lemma sorted_by_count_perm (l : list (str * Z)) :
  Permutation (sorted_by_count l) l.
Proof.
  induction l as [|x l IH]; simpl; [done|].
  rewrite insert_by_count_perm. by constructor.
Qed.

Lemma insert_by_count_sorted (x : str * Z) (l : list (str * Z)) :
  Sorted count_ge l -> Sorted count_ge (insert_by_count x l).
Proof.
  induction 1 as [|y l Hl IH Hhd]; simpl.
  - by repeat constructor.
  - destruct (Z.leb_spec (snd y) (snd x)) as [Hle|Hgt].
    + constructor; [by constructor | by constructor].
    + constructor; [done|].
      destruct l as [|z l]; simpl.
      * constructor. unfold count_ge. lia.
      * destruct (Z.leb_spec (snd z) (snd x)).
        -- constructor. unfold count_ge. lia.
        -- constructor. by apply HdRel_inv in Hhd.
Qed.

Lemma sorted_by_count_sorted (l : list (str * Z)) :
  StronglySorted count_ge (sorted_by_count l).
Proof.
  apply Sorted_StronglySorted.
  - intros x y z Hxy Hyz. unfold count_ge in *. lia.
  - induction l as [|x l IH]; simpl; [constructor|].
    by apply insert_by_count_sorted.
Qed.

Lemma StronglySorted_app_inv {A} (R : A -> A -> Prop) (l1 l2 : list A) :
  StronglySorted R (l1 ++ l2) ->
  StronglySorted R l1 /\ forall x y, In x l1 -> In y l2 -> R x y.
Proof.
  induction l1 as [|a l1 IH]; simpl; intros Hs.
  - split; [constructor | done].
  - apply StronglySorted_inv in Hs as [Hs Hall].
    destruct (IH Hs) as [Hs1 Hcross]. split.
    + constructor; [done|]. rewrite List.Forall_forall in Hall |- *.
      intros x Hx. apply Hall, in_app_iff. by left.
    + intros x y [<-|Hx] Hy; [|by apply Hcross].
      rewrite List.Forall_forall in Hall. apply Hall, in_app_iff. by right.
Qed.

Lemma count_topics_entries (sessions : list LearningSession) :
  List.NoDup (map fst (count_topics sessions))
  /\ (forall t c, In (t, c) (count_topics sessions)
                  -> c = topic_sessions sessions t /\ 1 <= c)
  /\ (forall t, 1 <= topic_sessions sessions t
                -> In (t, topic_sessions sessions t) (count_topics sessions)).
Proof.
  change (count_topics sessions) with (count_from [] sessions).
  assert (Hnd : List.NoDup (map fst (count_from [] sessions)))
    by (apply count_from_NoDup; constructor).
  assert (Hval : forall t c, In (t, c) (count_from [] sessions)
                             -> c = topic_sessions sessions t).
  { intros t c Hin. rewrite <- (dict_get_entry _ t c 0 Hnd Hin).
    by rewrite count_from_get. }
  split; [done|]. split.
  - intros t c Hin. split; [by apply Hval|].
    rewrite (Hval t c Hin).
    assert (Hkey : In t (map fst (count_from [] sessions)))
      by (by apply (in_map fst) in Hin).
    apply count_from_keys in Hkey as [[]|Hpos]. exact Hpos.
  - intros t Hpos.
    assert (Hkey : In t (map fst (count_from [] sessions)))
      by (apply count_from_keys; by right).
    apply in_map_iff in Hkey as ([t' c] & Ht & Hin). simpl in Ht. subst t'.
    by rewrite <- (Hval t c Hin).
Qed.

(** X23: the statistics list at most five topics, each once, by decreasing
    number of sessions; the number shown with a topic is the number of the
    user's sessions on it, and is at least one; and a topic of the user that
    is not listed has no more sessions than any listed one, the list being
    full then. *)
Theorem get_user_stats_top_topics (user user_message_count : Z)
  (db : list LearningSession) :
  let top := top_topics (get_user_stats user user_message_count db) in
  let mine := objects_user db user in
  (length top <= 5)%nat
  /\ List.NoDup (map fst top)
  /\ StronglySorted (fun x y => snd y <= snd x) top
  /\ (forall t c, In (t, c) top -> c = topic_sessions mine t /\ 1 <= c)
  /\ (forall t, 1 <= topic_sessions mine t ->
        In (t, topic_sessions mine t) top
        \/ (length top = 5%nat
            /\ forall t' c', In (t', c') top -> topic_sessions mine t <= c')).
Proof.
  cbv zeta. unfold get_user_stats. cbn [top_topics].
  set (mine := objects_user db user).
  destruct (count_topics_entries mine) as (Hnd & Hval & Hall).
  set (sorted := sorted_by_count (count_topics mine)) in *.
  pose proof (sorted_by_count_perm (count_topics mine)) as Hperm.
  pose proof (sorted_by_count_sorted (count_topics mine)) as Hsorted.
  fold sorted in Hperm, Hsorted.
  pose proof (firstn_skipn 5 sorted) as Hsplit.
  rewrite <- Hsplit in Hsorted.
  apply StronglySorted_app_inv in Hsorted as [Htop Hcross].
  split; [apply firstn_le_length|]. split; [|split; [exact Htop|split]].
  - assert (Hnd' : List.NoDup (map fst sorted)).
    { eapply Permutation_NoDup; [|exact Hnd].
      apply Permutation_map. by symmetry. }
    rewrite <- Hsplit, map_app in Hnd'. by apply NoDup_app_remove_r in Hnd'.
  - intros t c Hin. apply Hval.
    eapply Permutation_in; [exact Hperm|].
    rewrite <- Hsplit. apply in_app_iff. by left.
  - intros t Hpos. specialize (Hall t Hpos).
    assert (Hin : In (t, topic_sessions mine t) sorted)
      by (eapply Permutation_in; [symmetry; exact Hperm | exact Hall]).
    rewrite <- Hsplit in Hin. apply in_app_iff in Hin as [Hin|Hin]; [by left|].
    right. split.
    + rewrite length_firstn.
      assert (length (skipn 5 sorted) <> 0)%nat by (by destruct (skipn 5 sorted)).
      rewrite length_skipn in *. lia.
    + intros t' c' Hin'. apply (Hcross (t', c') _ Hin' Hin).
Qed.

Lemma sum_counts_app (l1 l2 : list (str * Z)) :
  sum_counts (l1 ++ l2) = sum_counts l1 + sum_counts l2.
Proof. induction l1 as [|x l1 IH]; simpl; [done | rewrite IH; lia]. Qed.

Lemma sum_counts_perm (l1 l2 : list (str * Z)) :
  Permutation l1 l2 -> sum_counts l1 = sum_counts l2.
Proof. induction 1; simpl; lia. Qed.

Lemma sum_counts_incr (d : list (str * Z)) (k : str) :
  sum_counts (dict_set d k (dict_get d k 0 + 1)) = sum_counts d + 1.
Proof.
  induction d as [|[k0 v0] d IH]; simpl; [lia|].
  destruct (str_eqb k0 k); simpl; lia.
Qed.

Lemma sum_counts_count_from (sessions : list LearningSession) (d : list (str * Z)) :
  sum_counts (count_from d sessions) = sum_counts d + py_len sessions.
Proof.
  revert d. induction sessions as [|s sessions IH]; intros d.
  - simpl. change (py_len []) with 0. lia.
  - unfold count_from in *. cbn [fold_left]. rewrite IH. cbv zeta.
    rewrite sum_counts_incr. unfold py_len. cbn [length]. lia.
Qed.

(** X24: the totals: the completed sessions are among the sessions; the counts
    of the listed topics add up to no more than the number of sessions, and
    to exactly that number when the user has at most five topics. *)
Theorem get_user_stats_totals (user user_message_count : Z)
  (db : list LearningSession) :
  let stats := get_user_stats user user_message_count db in
  0 <= completed_sessions stats <= total_sessions stats
  /\ sum_counts (top_topics stats) <= total_sessions stats
  /\ ((length (count_topics (objects_user db user)) <= 5)%nat ->
      sum_counts (top_topics stats) = total_sessions stats).
Proof.
  cbv zeta. unfold get_user_stats.
  cbn [top_topics total_sessions completed_sessions].
  set (mine := objects_user db user).
  split.
  - split; [apply py_len_nonneg|]. unfold mine, objects_user_completed, objects_user.
    unfold py_len. apply inj_le. clear mine.
    induction db as [|s db IH]; simpl; [done|].
    destruct (s_user s =? user); simpl; [|done].
    destruct (s_completed s); simpl; lia.
  - set (sorted := sorted_by_count (count_topics mine)).
    assert (Hsum : sum_counts sorted = py_len mine).
    { unfold sorted. rewrite (sum_counts_perm _ _ (sorted_by_count_perm _)).
      change (count_topics mine) with (count_from [] mine).
      rewrite sum_counts_count_from. simpl. lia. }
    assert (Hrest : 0 <= sum_counts (skipn 5 sorted)).
    { assert (Hpos : Forall (fun item => 1 <= snd item) (skipn 5 sorted)).
      { apply List.Forall_forall. intros [t c] Hin.
        destruct (count_topics_entries mine) as (_ & Hval & _).
        apply (Hval t c).
        eapply Permutation_in; [apply sorted_by_count_perm|].
        fold sorted. rewrite <- (firstn_skipn 5 sorted). apply in_app_iff. by right. }
      induction Hpos as [|x l Hx Hl IH]; simpl; lia. }
    rewrite <- (firstn_skipn 5 sorted), sum_counts_app in Hsum.
    split; [lia|]. intros Hfew.
    assert (Hlen : length sorted = length (count_topics mine))
      by (apply Permutation_length, sorted_by_count_perm).
    rewrite skipn_all2 in Hsum by lia. simpl in Hsum. lia.
Qed.

Lemma get_user_stats_totals_witness :
  let db := [ Build_LearningSession 1 7 (lit "sql") 0 (Some 5) (Some 5) true 0;
              Build_LearningSession 2 7 (lit "git") 0 None None false 0;
              Build_LearningSession 3 8 (lit "sql") 0 None None false 0 ] in
  sum_counts (top_topics (get_user_stats 7 0 db))
  = total_sessions (get_user_stats 7 0 db).
Proof.
  cbv zeta.
  apply (get_user_stats_totals 7 0).
  vm_compute. lia.
Defined.

(** ** [end_learning_session] *)

Lemma timedelta_seconds_mod (delta : Z) :
  timedelta_seconds delta = (delta / 1000000) mod 86400.
Proof.
  unfold timedelta_seconds.
  change 86400000000 with (1000000 * 86400).
  rewrite Z.rem_mul_r by lia.
  rewrite (Z.mul_comm 1000000), Z.div_add by lia.
  rewrite (Z.div_small (delta mod 1000000)); [lia|].
  apply Z.mod_pos_bound. lia.
Qed.

Lemma find_map_same_id (doc : LearningSession) (db : list LearningSession) :
  List.find (fun s => s_id s =? s_id doc) db <> None ->
  List.find (fun s => s_id s =? s_id doc) (save doc db) = Some (to_mongo doc).
Proof.
  unfold save. induction db as [|s db IH]; simpl; [done|].
  destruct (s_id s =? s_id doc) eqn:E; simpl.
  - by rewrite Z.eqb_refl.
  - rewrite E. apply IH.
Qed.

Lemma end_learning_session_stores (session_id utcnow : Z)
  (db : list LearningSession) (session : LearningSession) :
  objects_id_first db session_id = Some session ->
  s_completed session = false ->
  exists ended,
    ended = {| s_id := s_id session; s_user := s_user session;
               s_topic := s_topic session;
               s_start_time := s_start_time session;
               s_end_time := Some utcnow;
               s_duration :=
                 Some (timedelta_seconds (utcnow - s_start_time session));
               s_completed := true;
               s_interactions := s_interactions session |}
    /\ end_learning_session session_id utcnow db = (true, save ended db)
    /\ objects_id_first (save ended db) session_id = Some (to_mongo ended).
Proof.
  intros Hfind Hopen. unfold end_learning_session. rewrite Hfind, Hopen.
  cbn [negb]. cbv zeta. eexists. split; [reflexivity|]. split; [reflexivity|].
  assert (Hid : s_id session = session_id).
  { unfold objects_id_first in Hfind. apply List.find_some in Hfind as [_ Heq].
    by apply Z.eqb_eq in Heq. }
  unfold objects_id_first. rewrite <- Hid.
  apply (find_map_same_id
           {| s_id := s_id session; s_user := s_user session;
              s_topic := s_topic session; s_start_time := s_start_time session;
              s_end_time := Some utcnow;
              s_duration := Some (timedelta_seconds (utcnow - s_start_time session));
              s_completed := true; s_interactions := s_interactions session |}).
  cbn [s_id]. unfold objects_id_first in Hfind. rewrite Hid, Hfind. done.
Qed.

(** X25: ending an open session returns true and stores the session as
    completed.  The collection then holds, as its end, the clock reading
    cut to the millisecond and, as its duration, the whole seconds from its
    start to the clock reading, microseconds included, taken modulo 86400:
    the duration is below one day whatever the session lasted, and is the
    elapsed time only for a session that lasted less than a day.  Its
    start, user and topic are as they were, and the other documents are
    kept. *)
Theorem end_learning_session_open (session_id utcnow : Z)
  (db : list LearningSession) (session : LearningSession) :
  objects_id_first db session_id = Some session ->
  s_completed session = false ->
  exists stored_session duration,
    fst (end_learning_session session_id utcnow db) = true
    /\ objects_id_first (snd (end_learning_session session_id utcnow db))
         session_id = Some stored_session
    /\ s_completed stored_session = true
    /\ s_end_time stored_session = Some (utcnow - utcnow mod 1000)
    /\ s_duration stored_session = Some duration
    /\ duration = ((utcnow - s_start_time session) / 1000000) mod 86400
    /\ 0 <= duration < 86400
    /\ (0 <= utcnow - s_start_time session < 86400000000 ->
        duration = (utcnow - s_start_time session) / 1000000)
    /\ s_start_time stored_session = s_start_time session
    /\ s_user stored_session = s_user session
    /\ s_topic stored_session = s_topic session
    /\ (forall other, In other db -> s_id other <> session_id ->
          In other (snd (end_learning_session session_id utcnow db))).
Proof.
  intros Hfind Hopen.
  destruct (end_learning_session_stores session_id utcnow db session Hfind Hopen)
    as (ended & Hended & -> & Hfound).
  exists (to_mongo ended), (timedelta_seconds (utcnow - s_start_time session)).
  cbn [fst snd]. split; [done|]. split; [exact Hfound|].
  subst ended. cbn [to_mongo s_completed s_end_time s_duration s_start_time
                      s_user s_topic option_map].
  split; [done|]. split; [reflexivity|]. split; [done|].
  split; [apply timedelta_seconds_mod|].
  rewrite timedelta_seconds_mod.
  split; [apply Z.mod_pos_bound; lia|]. split.
  { intros [Hlo Hhi]. apply Z.mod_small. split.
    - apply Z.div_pos; lia.
    - apply Z.div_lt_upper_bound; lia. }
  split; [done|]. split; [done|]. split; [done|].
  intros other Hin Hne. unfold save. apply in_map_iff. exists other.
  split; [|done]. cbn [s_id].
  assert (Hid : s_id session = session_id).
  { unfold objects_id_first in Hfind. apply List.find_some in Hfind as [_ Heq].
    by apply Z.eqb_eq in Heq. }
  destruct (Z.eqb_spec (s_id other) (s_id session)) as [Heq|_]; [|done].
  congruence.
Qed.

(** A session of 3.999999 seconds: the collection holds 3.999 seconds as its
    end and 3 seconds as its duration. *)
Lemma end_learning_session_open_witness :
  let open := Build_LearningSession 1 7 (lit "sql") 0 None None false 0 in
  exists stored_session duration,
    fst (end_learning_session 1 3999999 [open]) = true
    /\ objects_id_first (snd (end_learning_session 1 3999999 [open])) 1
       = Some stored_session
    /\ s_completed stored_session = true
    /\ s_end_time stored_session = Some (3999999 - 3999999 mod 1000)
    /\ s_duration stored_session = Some duration
    /\ duration = ((3999999 - s_start_time open) / 1000000) mod 86400
    /\ 0 <= duration < 86400
    /\ (0 <= 3999999 - s_start_time open < 86400000000 ->
        duration = (3999999 - s_start_time open) / 1000000)
    /\ s_start_time stored_session = s_start_time open
    /\ s_user stored_session = s_user open
    /\ s_topic stored_session = s_topic open
    /\ (forall other, In other [open] -> s_id other <> 1 ->
          In other (snd (end_learning_session 1 3999999 [open]))).
Proof.
  cbv zeta.
  apply (end_learning_session_open 1 3999999
           [Build_LearningSession 1 7 (lit "sql") 0 None None false 0]
           (Build_LearningSession 1 7 (lit "sql") 0 None None false 0)).
  - reflexivity.
  - reflexivity.
Defined.

(** X26: a session can be ended once: for an unknown id or a session that is
    already completed the result is false and nothing changes; so a second
    call for the same session, at any clock reading, returns false and keeps
    what the first one stored. *)
Theorem end_learning_session_once (session_id utcnow utcnow' : Z)
  (db : list LearningSession) :
  (objects_id_first db session_id = None ->
   end_learning_session session_id utcnow db = (false, db))
  /\ (forall session, objects_id_first db session_id = Some session ->
        s_completed session = true ->
        end_learning_session session_id utcnow db = (false, db))
  /\ end_learning_session session_id utcnow'
       (snd (end_learning_session session_id utcnow db))
     = (false, snd (end_learning_session session_id utcnow db)).
Proof.
  assert (Hnone : objects_id_first db session_id = None ->
                  end_learning_session session_id utcnow db = (false, db)).
  { intros Hf. unfold end_learning_session. by rewrite Hf. }
  assert (Hdone : forall now d session,
             objects_id_first d session_id = Some session ->
             s_completed session = true ->
             end_learning_session session_id now d = (false, d)).
  { intros now d session Hf Hc. unfold end_learning_session. by rewrite Hf, Hc. }
  split; [done|]. split; [by apply Hdone|].
  destruct (objects_id_first db session_id) as [session|] eqn:Hfind.
  - destruct (s_completed session) eqn:Hc.
    + rewrite (Hdone utcnow db session Hfind Hc). cbn [snd].
      by apply (Hdone utcnow' db session).
    + destruct (end_learning_session_stores session_id utcnow db session Hfind Hc)
        as (ended & Hended & -> & Hfound).
      cbn [snd]. apply (Hdone utcnow' _ (to_mongo ended)); [exact Hfound|].
      by subst ended.
  - rewrite (Hnone eq_refl). cbn [snd].
    unfold end_learning_session. by rewrite Hfind.
Qed.

(** ** Ending a session, seen through the statistics *)

Lemma find_split (db : list LearningSession) (session_id : Z)
  (session : LearningSession) :
  List.NoDup (map s_id db) ->
  objects_id_first db session_id = Some session ->
  exists before after,
    db = before ++ session :: after
    /\ s_id session = session_id
    /\ Forall (fun s => s_id s <> session_id) (before ++ after).
Proof.
  unfold objects_id_first. induction db as [|s db IH]; simpl; [done|].
  intros Hnd Hfind. apply List.NoDup_cons_iff in Hnd as [Hs Hnd].
  destruct (Z.eqb_spec (s_id s) session_id) as [Heq|Hne].
  - injection Hfind as ->. exists [], db. split; [done|]. split; [done|].
    simpl. apply List.Forall_forall. intros x Hx Hid.
    apply Hs. rewrite Heq, <- Hid. by apply in_map.
  - destruct (IH Hnd Hfind) as (before & after & -> & Hid & Hall).
    exists (s :: before), after. split; [done|]. split; [done|].
    simpl. by constructor.
Qed.

Lemma save_split (doc : LearningSession) (before after : list LearningSession)
  (old : LearningSession) :
  s_id old = s_id doc ->
  Forall (fun s => s_id s <> s_id doc) (before ++ after) ->
  save doc (before ++ old :: after) = before ++ to_mongo doc :: after.
Proof.
  intros Hid Hall. apply Forall_app in Hall as [Hb Ha].
  assert (Hkeep : forall l, Forall (fun s => s_id s <> s_id doc) l -> save doc l = l).
  { induction 1 as [|s l Hs Hl IH]; [done|]. unfold save in *. simpl.
    rewrite IH. by destruct (Z.eqb_spec (s_id s) (s_id doc)). }
  unfold save in *. rewrite map_app. simpl.
  rewrite (Hkeep before Hb), (Hkeep after Ha).
  by rewrite Hid, Z.eqb_refl.
Qed.

Lemma fold_add_duration (l : list LearningSession) (a : Z) :
  fold_left add_duration l a = a + fold_left add_duration l 0.
Proof.
  revert a. induction l as [|s l IH]; intros a; simpl; [lia|].
  rewrite (IH (add_duration a s)), (IH (add_duration 0 s)).
  unfold add_duration. lia.
Qed.

Lemma count_from_topics (l1 l2 : list LearningSession) (d : list (str * Z)) :
  map s_topic l1 = map s_topic l2 -> count_from d l1 = count_from d l2.
Proof.
  revert l2 d. induction l1 as [|s l1 IH]; intros [|s' l2] d Heq; try done.
  injection Heq as Hs Hl. unfold count_from in *. cbn [fold_left]. cbv zeta.
  rewrite Hs. by apply IH.
Qed.

(** X27: ending an open session, in a collection whose ids are distinct, shows
    in the statistics of its user as one more completed session and as its
    duration added to the total time; the number of sessions and the top
    topics stay as they were, and the statistics of every other user do not
    change. *)
Theorem end_learning_session_stats (session_id utcnow message_count : Z)
  (db : list LearningSession) (session : LearningSession) :
  List.NoDup (map s_id db) ->
  objects_id_first db session_id = Some session ->
  s_completed session = false ->
  let db' := snd (end_learning_session session_id utcnow db) in
  let before := get_user_stats (s_user session) message_count db in
  let after := get_user_stats (s_user session) message_count db' in
  total_sessions after = total_sessions before
  /\ completed_sessions after = completed_sessions before + 1
  /\ total_time after
     = total_time before + timedelta_seconds (utcnow - s_start_time session)
  /\ top_topics after = top_topics before
  /\ (forall other count, other <> s_user session ->
        get_user_stats other count db' = get_user_stats other count db).
Proof.
  intros Hnd Hfind Hopen.
  destruct (find_split db session_id session Hnd Hfind)
    as (l1 & l2 & -> & Hid & Hall).
  unfold end_learning_session. rewrite Hfind, Hopen. cbn [negb snd]. cbv zeta.
  set (ended0 := Build_LearningSession _ _ _ _ _ _ _ _).
  rewrite (save_split ended0 l1 l2 session);
    [|done | by unfold ended0; cbn [s_id]; rewrite Hid].
  set (ended := to_mongo ended0).
  assert (Hu : forall u, map s_topic (objects_user (l1 ++ ended :: l2) u)
                         = map s_topic (objects_user (l1 ++ session :: l2) u)).
  { intros u. unfold objects_user. rewrite !List.filter_app. cbn [List.filter].
    unfold ended, to_mongo, ended0; cbn [s_user].
    destruct (s_user session =? u); by rewrite !map_app. }
  assert (Hlen : forall u, py_len (objects_user (l1 ++ ended :: l2) u)
                           = py_len (objects_user (l1 ++ session :: l2) u)).
  { intros u. unfold py_len. by rewrite <- (length_map s_topic), Hu, length_map. }
  assert (Htop : forall u, count_topics (objects_user (l1 ++ ended :: l2) u)
                           = count_topics (objects_user (l1 ++ session :: l2) u)).
  { intros u. apply (count_from_topics _ _ []), Hu. }
  unfold get_user_stats.
  cbn [total_sessions completed_sessions total_time top_topics].
  fold add_duration.
  split; [apply Hlen|]. split; [|split; [|split]].
  - unfold objects_user_completed. rewrite !List.filter_app. cbn [List.filter].
    unfold ended, to_mongo, ended0; cbn [s_user s_completed]. rewrite Hopen, Z.eqb_refl. simpl.
    rewrite !py_len_app. unfold py_len. cbn [length].
    rewrite Nat2Z.inj_succ. unfold Z.succ. ring.
  - unfold objects_user_completed. rewrite !List.filter_app. cbn [List.filter].
    unfold ended, to_mongo, ended0; cbn [s_user s_completed]. rewrite Hopen, Z.eqb_refl. simpl.
    rewrite !fold_left_app. cbn [fold_left].
    rewrite (fold_add_duration _ (add_duration _ ended)).
    rewrite (fold_add_duration _ (fold_left add_duration _ 0)).
    unfold add_duration at 1. unfold ended, to_mongo, ended0; cbn [s_duration default].
    unfold id. ring.
  - by rewrite Htop.
  - intros other count Hother. unfold get_user_stats. fold add_duration.
    rewrite Hlen, Htop. f_equal.
    all: unfold objects_user_completed; rewrite !List.filter_app;
      cbn [List.filter]; unfold ended, to_mongo, ended0; cbn [s_user s_completed];
      destruct (Z.eqb_spec (s_user session) other) as [Heq|_]; [congruence|];
      done.
Qed.

Lemma end_learning_session_stats_witness :
  let open := Build_LearningSession 1 7 (lit "sql") 0 None None false 0 in
  let db := [open; Build_LearningSession 2 8 (lit "git") 0 None None false 0] in
  completed_sessions (get_user_stats 7 0 (snd (end_learning_session 1 5000000 db)))
  = completed_sessions (get_user_stats 7 0 db) + 1.
Proof.
  cbv zeta.
  apply (end_learning_session_stats 1 5000000 0
           [Build_LearningSession 1 7 (lit "sql") 0 None None false 0;
            Build_LearningSession 2 8 (lit "git") 0 None None false 0]
           (Build_LearningSession 1 7 (lit "sql") 0 None None false 0)).
  - repeat constructor; simpl; intuition lia.
  - reflexivity.
  - reflexivity.
Defined.
